(** * A software-walked multi-level page table (mlpt.c)

    Shallow embedding of [translate], [page_allocate] and [page_deallocate]
    together with the helpers they call, and the properties of the walk,
    of lazy table construction and of the reclamation of empty tables.

    Memory is a finite map from the base address of every live block
    obtained from [posix_memalign] to its contents, one [size_t] word per
    list element.  The three operations run in a small state-and-failure
    monad over the machine state; a computation yields [None] exactly when
    the C program would access memory outside a live block. *)

From Stdlib Require Import ZArith Lia.
From stdpp Require Import base option list gmap.

Local Open Scope Z_scope.

(** ** Configuration: config.h and the macros of mlpt.c *)

Definition LEVELS : nat := 3.
Definition POBITS : Z := 10.

(** [size_t] and [unsigned long] are 64-bit words of 8 bytes; the source
    relies on it through [BITS_PER_LEVEL = POBITS - 3]. *)
Definition WORD_BITS : Z := 64.
Definition SIZEOF_SIZE_T : Z := 8.
Definition wrap (x : Z) : Z := x mod 2 ^ WORD_BITS.

Definition PAGE_SIZE : Z := Z.shiftl 1 POBITS.
Definition PAGE_MASK : Z := wrap (Z.lnot (PAGE_SIZE - 1)).
Definition ENTRIES_PER_TABLE : Z := PAGE_SIZE / SIZEOF_SIZE_T.
Definition VALID_FLAG : Z := 1.
Definition ENTRY_TO_PHYS_ADDR (pte : Z) : Z := Z.land pte PAGE_MASK.

Definition BITS_PER_LEVEL : Z := POBITS - 3.
Definition LEVEL_INDEX_MASK : Z := Z.shiftl 1 BITS_PER_LEVEL - 1.

(** The value [~0UL] returned for an address without a mapping. *)
Definition NOT_MAPPED : Z := wrap (Z.lnot 0).

(** ** Machine state *)

(** [ptbr] is the global page table base register, [heap] the live blocks,
    and [pending] the outcomes of the coming calls of [posix_memalign]:
    [Some a] hands out the block at [a], [None] is a failure, and so is
    every call made once the list is used up. *)
Record machine : Type := Machine {
  ptbr : Z;
  heap : gmap Z (list Z);
  pending : list (option Z)
}.

Definition boot : machine := Machine 0 ∅ [].

Definition supply (o : list (option Z)) (s : machine) : machine :=
  Machine (ptbr s) (heap s) o.

(** ** The monad of the three operations *)

Definition M (A : Type) : Type := machine → option (A * machine).

Definition ret {A} (x : A) : M A := λ s, Some (x, s).

Definition bind {A B} (c : M A) (k : A → M B) : M B :=
  λ s, match c s with
       | Some (x, s') => k x s'
       | None => None
       end.

Declare Scope mlpt_scope.
Delimit Scope mlpt_scope with mlpt.
Notation "'do' x <- c ; k" := (bind c (λ x, k))
  (at level 10, x name, c at level 100, k at level 200) : mlpt_scope.
Notation "'do' ' c ; k" := (bind c (λ _, k))
  (at level 10, c at level 100, k at level 200) : mlpt_scope.
Local Open Scope mlpt_scope.

(** *** Primitive accesses *)

Definition read_ptbr : M Z := λ s, Some (ptbr s, s).

Definition write_ptbr (v : Z) : M unit :=
  λ s, Some (tt, Machine v (heap s) (pending s)).

(** The word at index [i] of the block based at [p]. *)
Definition peek (m : gmap Z (list Z)) (p i : Z) : option Z :=
  match m !! p with
  | Some t => if decide (0 ≤ i) then t !! Z.to_nat i else None
  | None => None
  end.

(** [((size_t* )p)[i]] read. *)
Definition load (p i : Z) : M Z :=
  λ s, match peek (heap s) p i with
       | Some e => Some (e, s)
       | None => None
       end.

(** [((size_t* )p)[i] = v]. *)
Definition store (p i v : Z) : M unit :=
  λ s, match heap s !! p with
       | Some t =>
           if decide (0 ≤ i < Z.of_nat (length t))
           then Some (tt, Machine (ptbr s)
                            (<[p := <[Z.to_nat i := v]> t]> (heap s))
                            (pending s))
           else None
       | None => None
       end.

(** [free(p)] of a live block. *)
Definition free (p : Z) : M unit :=
  λ s, match heap s !! p with
       | Some _ => Some (tt, Machine (ptbr s) (delete p (heap s)) (pending s))
       | None => None
       end.

(** ** mlpt.c *)

Definition extract_level_index (virtual_addr : Z) (level : nat) : Z :=
  let shift_amount := POBITS + Z.of_nat level * BITS_PER_LEVEL in
  Z.land (Z.shiftr virtual_addr shift_amount) LEVEL_INDEX_MASK.

(** [posix_memalign] followed by [memset]: the address of a zeroed block
    of [PAGE_SIZE] bytes, or [0] (NULL) when the request fails. *)
Definition allocate_aligned_page : M Z :=
  λ s, match pending s with
       | Some a :: o =>
           Some (a, Machine (ptbr s)
                      (<[a := replicate (Z.to_nat (PAGE_SIZE / SIZEOF_SIZE_T)) 0]>
                         (heap s))
                      o)
       | None :: o => Some (0, Machine (ptbr s) (heap s) o)
       | [] => Some (0, s)
       end.

(** The loop of [is_address_valid]; [n] is [level + 1].  The table capacity
    is an argument: it is [PAGE_SIZE / sizeof(size_t)], which the platform
    fixes and the repository does not. *)
Fixpoint is_address_valid_loop (entries virtual_addr : Z) (n : nat) : bool :=
  match n with
  | O => true
  | S level =>
      if entries <=? extract_level_index virtual_addr level then false
      else is_address_valid_loop entries virtual_addr level
  end.

Definition is_address_valid_within (entries virtual_addr : Z) : bool :=
  is_address_valid_loop entries virtual_addr LEVELS.

Definition is_address_valid (virtual_addr : Z) : bool :=
  is_address_valid_within ENTRIES_PER_TABLE virtual_addr.

Definition pte_valid (table_entry : Z) : bool :=
  negb (Z.land table_entry VALID_FLAG =? 0).

(** *** translate *)

(** The walk of [translate]; [n] is [level + 1]. *)
Fixpoint translate_walk (virtual_addr page_offset : Z) (n : nat)
    (current_table : Z) : M Z :=
  match n with
  | O => ret NOT_MAPPED
  | S level =>
      let table_index := extract_level_index virtual_addr level in
      if ENTRIES_PER_TABLE <=? table_index then ret NOT_MAPPED
      else
        do table_entry <- load current_table table_index;
        if negb (pte_valid table_entry) then ret NOT_MAPPED
        else if decide (level = 0%nat)
        then ret (Z.lor (ENTRY_TO_PHYS_ADDR table_entry) page_offset)
        else translate_walk virtual_addr page_offset level
               (ENTRY_TO_PHYS_ADDR table_entry)
  end.

Definition translate (virtual_addr : Z) : M Z :=
  do root <- read_ptbr;
  if root =? 0 then ret NOT_MAPPED
  else
    let page_offset := Z.land virtual_addr (PAGE_SIZE - 1) in
    translate_walk virtual_addr page_offset LEVELS root.

(** *** page_allocate *)

(** [page_allocate] returns nothing; the embedding returns the [return]
    statement by which the call left: the bounds check, one of the failed
    requests for memory, or the end of the function. *)
Inductive alloc_exit : Type := ExitInvalid | ExitNoMem | ExitDone.

Global Instance alloc_exit_eq_dec : EqDecision alloc_exit.
Proof. solve_decision. Defined.

Definition make_entry (block : Z) : Z :=
  Z.lor (Z.land block PAGE_MASK) VALID_FLAG.

(** The loop over the levels above 0, then the leaf step. *)
Fixpoint allocate_walk (virtual_addr : Z) (level : nat)
    (current_table : Z) : M alloc_exit :=
  let table_index := extract_level_index virtual_addr level in
  match level with
  | S below =>
      let descend : M alloc_exit :=
        do table_entry <- load current_table table_index;
        allocate_walk virtual_addr below (ENTRY_TO_PHYS_ADDR table_entry) in
      do table_entry <- load current_table table_index;
      if negb (pte_valid table_entry) then
        do new_table <- allocate_aligned_page;
        if new_table =? 0 then ret ExitNoMem
        else do ' store current_table table_index (make_entry new_table);
             descend
      else descend
  | O =>
      do table_entry <- load current_table table_index;
      if negb (pte_valid table_entry) then
        do new_page <- allocate_aligned_page;
        if new_page =? 0 then ret ExitNoMem
        else do ' store current_table table_index (make_entry new_page);
             ret ExitDone
      else ret ExitDone
  end.

Definition allocate_from_root (virtual_addr : Z) : M alloc_exit :=
  do root <- read_ptbr;
  allocate_walk virtual_addr (LEVELS - 1) root.

Definition page_allocate_within (entries virtual_addr : Z) : M alloc_exit :=
  if negb (is_address_valid_within entries virtual_addr) then ret ExitInvalid
  else
    do root <- read_ptbr;
    if root =? 0 then
      do root_table <- allocate_aligned_page;
      if root_table =? 0 then ret ExitNoMem
      else do ' write_ptbr root_table;
           allocate_from_root virtual_addr
    else allocate_from_root virtual_addr.

Definition page_allocate (virtual_addr : Z) : M alloc_exit :=
  page_allocate_within ENTRIES_PER_TABLE virtual_addr.

(** *** page_deallocate *)

(** The scan of one table for a valid entry; [n] entries remain from
    index [ENTRIES_PER_TABLE - n].  Yields [table_empty]. *)
Fixpoint scan_table (table : Z) (n : nat) : M bool :=
  match n with
  | O => ret true
  | S n' =>
      let i := ENTRIES_PER_TABLE - Z.of_nat n in
      do table_entry <- load table i;
      if pte_valid table_entry then ret false
      else scan_table table n'
  end.

(** The upward loop; [fuel] is [LEVELS - level], the iterations left.
    [tables] and [indices] are the two local arrays. *)
Fixpoint cleanup (tables indices : list Z) (fuel : nat) : M unit :=
  match fuel with
  | O => ret tt
  | S fuel' =>
      let level := (LEVELS - fuel)%nat in
      do table_empty <- scan_table (tables !!! (level - 1)%nat)
                          (Z.to_nat ENTRIES_PER_TABLE);
      if table_empty then
        do ' free (tables !!! (level - 1)%nat);
        do ' store (tables !!! level) (indices !!! level) 0;
        cleanup tables indices fuel'
      else ret tt
  end.

(** The downward loop that records the path; [n] is [level + 1].  When it
    ends the leaf entry is cleared and the empty tables are reclaimed. *)
Fixpoint deallocate_walk (virtual_addr : Z) (tables indices : list Z)
    (n : nat) (current_table : Z) : M Z :=
  match n with
  | O =>
      do ' store (tables !!! 0%nat) (indices !!! 0%nat) 0;
      do ' cleanup tables indices (LEVELS - 1);
      ret 1
  | S level =>
      let tables := <[level := current_table]> tables in
      let indices := <[level := extract_level_index virtual_addr level]> indices in
      do table_entry <- load current_table (indices !!! level);
      if negb (pte_valid table_entry) then ret 0
      else if decide (0 < level)%nat
      then deallocate_walk virtual_addr tables indices level
             (ENTRY_TO_PHYS_ADDR table_entry)
      else deallocate_walk virtual_addr tables indices level current_table
  end.

Definition page_deallocate (virtual_addr : Z) : M Z :=
  do root <- read_ptbr;
  if root =? 0 then ret 0
  else deallocate_walk virtual_addr (replicate LEVELS 0) (replicate LEVELS 0)
         LEVELS root.

(** * Specification vocabulary *)

(** A block address handed out by [posix_memalign]: aligned on the page
    size, not NULL, and with its one-past-the-end address still a word. *)
Definition page_addr (a : Z) : Prop :=
  a mod PAGE_SIZE = 0 ∧ 0 < a ∧ a + PAGE_SIZE < 2 ^ WORD_BITS.

Definition live (m : gmap Z (list Z)) (p : Z) : Prop := is_Some (m !! p).

Definition zero_page : list Z :=
  replicate (Z.to_nat (PAGE_SIZE / SIZEOF_SIZE_T)) 0.

(** The heap after [((size_t* )p)[i] = v]. *)
Definition poke (m : gmap Z (list Z)) (p i v : Z) : gmap Z (list Z) :=
  match m !! p with
  | Some t => <[p := <[Z.to_nat i := v]> t]> m
  | None => m
  end.

(** Every live block is a page of [ENTRIES_PER_TABLE] words at an address
    [posix_memalign] can return; an entry is zero or the valid entry of a
    live block other than the root and the table holding it, and no block
    is named by two entries. *)
Record wf (s : machine) : Prop := {
  wf_size : ∀ p i, live (heap s) p →
    (is_Some (peek (heap s) p i) ↔ 0 ≤ i < ENTRIES_PER_TABLE);
  wf_base : ∀ p, live (heap s) p → page_addr p;
  wf_root : ptbr s = 0 ∨ live (heap s) (ptbr s);
  wf_link : ∀ p i e, peek (heap s) p i = Some e → e ≠ 0 →
    ∃ a, e = make_entry a ∧ live (heap s) a ∧ a ≠ ptbr s ∧ a ≠ p;
  wf_inj : ∀ p i q j e, peek (heap s) p i = Some e →
    peek (heap s) q j = Some e → e ≠ 0 → p = q ∧ i = j
}.

(** The coming answers of [posix_memalign] are usable: page addresses that
    are not live, and no address twice. *)
Definition supply_ok (s : machine) : Prop :=
  NoDup (omap id (pending s)) ∧
  ∀ a, Some a ∈ pending s → page_addr a ∧ ¬ live (heap s) a.

(** The leaf entry for [va] below the table [cur] of level [level], when
    every entry on the way down, the leaf entry included, is valid. *)
Fixpoint walk (m : gmap Z (list Z)) (va : Z) (level : nat) (cur : Z) : option Z :=
  match peek m cur (extract_level_index va level) with
  | Some e =>
      if pte_valid e then
        match level with
        | O => Some e
        | S below => walk m va below (ENTRY_TO_PHYS_ADDR e)
        end
      else None
  | None => None
  end.

(** The leaf entry that maps [va], if any. *)
Definition lookup_leaf (s : machine) (va : Z) : option Z :=
  if ptbr s =? 0 then None else walk (heap s) va (LEVELS - 1) (ptbr s).

(** [sub_at m top cur level p]: below the table [cur] of level [top], the
    block [p] is a table of level [level]. *)
Inductive sub_at (m : gmap Z (list Z)) (top : nat) (cur : Z) : nat → Z → Prop :=
| sub_here : sub_at m top cur top cur
| sub_child level p i e :
    sub_at m top cur (S level) p →
    peek m p i = Some e → pte_valid e = true →
    sub_at m top cur level (ENTRY_TO_PHYS_ADDR e).

(** The tables of the tree under [ptbr], by level. *)
Definition table_at (s : machine) (level : nat) (p : Z) : Prop :=
  ptbr s ≠ 0 ∧ sub_at (heap s) (LEVELS - 1) (ptbr s) level p.

Definition nonempty (m : gmap Z (list Z)) (p : Z) : Prop :=
  ∃ i e, peek m p i = Some e ∧ pte_valid e = true.

(** [s'] keeps every block and every valid entry of [s]. *)
Definition extends (s s' : machine) : Prop :=
  (∀ p, live (heap s) p → live (heap s') p) ∧
  (∀ p i e, peek (heap s) p i = Some e → e ≠ 0 → peek (heap s') p i = Some e).

(** The heap once a fresh page has been installed at entry [i] of [p]. *)
Definition installed (m : gmap Z (list Z)) (p i a : Z) : gmap Z (list Z) :=
  poke (<[a := zero_page]> m) p i (make_entry a).

(** The entries [s'] has and [s] had not: each names a block that was not
    live, and sits on the path of [va] below [cur]; when the walk went
    through, the tables they name hold a valid entry. *)
Definition grown (va : Z) (top : nat) (cur : Z) (r : alloc_exit)
    (s s' : machine) : Prop :=
  ∀ p i e, peek (heap s') p i = Some e → e ≠ 0 →
    peek (heap s) p i = Some e ∨
    (¬ live (heap s) (ENTRY_TO_PHYS_ADDR e) ∧
     ∃ k, sub_at (heap s') top cur k p ∧ i = extract_level_index va k ∧
       (r = ExitDone → (0 < k)%nat → nonempty (heap s') (ENTRY_TO_PHYS_ADDR e))).

Definition allocate_walk_post (va : Z) (level : nat) (cur : Z)
    (s : machine) (r : alloc_exit) (s' : machine) : Prop :=
  r ≠ ExitInvalid ∧ wf s' ∧ supply_ok s' ∧ ptbr s' = ptbr s ∧ extends s s' ∧
  (r = ExitDone → is_Some (walk (heap s') va level cur)) ∧
  grown va level cur r s s'.

Definition page_allocate_post (va : Z) (s : machine) (r : alloc_exit)
    (s' : machine) : Prop :=
  r ≠ ExitInvalid ∧ wf s' ∧ supply_ok s' ∧
  (ptbr s ≠ 0 → ptbr s' = ptbr s) ∧
  (ptbr s = 0 → ptbr s' = 0 ∨ ¬ live (heap s) (ptbr s')) ∧
  extends s s' ∧
  (r = ExitDone → is_Some (lookup_leaf s' va)) ∧
  grown va (LEVELS - 1) (ptbr s') r s s'.

(** The address [translate] yields, read off the heap. *)
Definition translation (s : machine) (va : Z) : Z :=
  match lookup_leaf s va with
  | Some e => Z.lor (ENTRY_TO_PHYS_ADDR e) (Z.land va (PAGE_SIZE - 1))
  | None => NOT_MAPPED
  end.

(** No entry of the block is valid. *)
Definition vacant (m : gmap Z (list Z)) (p : Z) : bool :=
  match m !! p with
  | Some t => forallb (λ e, negb (pte_valid e)) t
  | None => true
  end.

(** Some entry on the path of [va] below [cur] is there and invalid. *)
Fixpoint stalls (m : gmap Z (list Z)) (va : Z) (level : nat) (cur : Z) : bool :=
  match peek m cur (extract_level_index va level) with
  | Some e =>
      if pte_valid e then
        match level with
        | O => false
        | S below => stalls m va below (ENTRY_TO_PHYS_ADDR e)
        end
      else true
  | None => false
  end.

(** The heap after [page_deallocate] of a mapped address whose path runs
    through entry [i2] of [t2], [i1] of [t1] and [i0] of [t0]. *)
Definition reclaimed (m : gmap Z (list Z)) (t2 i2 t1 i1 t0 i0 : Z) : gmap Z (list Z) :=
  let m0 := poke m t0 i0 0 in
  if vacant m0 t0 then
    let m1 := poke (delete t0 m0) t1 i1 0 in
    if vacant m1 t1 then poke (delete t1 m1) t2 i2 0 else m1
  else m0.

(** The three entries on the path of a mapped address, root first. *)
Definition mapped_path (s : machine) (va e2 e1 e0 : Z) : Prop :=
  ptbr s ≠ 0 ∧
  peek (heap s) (ptbr s) (extract_level_index va 2) = Some e2 ∧
  pte_valid e2 = true ∧
  peek (heap s) (ENTRY_TO_PHYS_ADDR e2) (extract_level_index va 1) = Some e1 ∧
  pte_valid e1 = true ∧
  peek (heap s) (ENTRY_TO_PHYS_ADDR e1) (extract_level_index va 0) = Some e0 ∧
  pte_valid e0 = true.

(** No entry of the block other than entry [i] is valid: the table is
    empty once entry [i] is cleared. *)
Definition bare (m : gmap Z (list Z)) (p i : Z) : Prop :=
  ∀ j x, peek m p j = Some x → j ≠ i → pte_valid x = false.

(** The states the program reaches from start-up, where [ptbr] is 0 and
    nothing is allocated.  Between two calls the environment settles what
    the coming requests for memory will be answered; [ok] restricts the
    exits of [page_allocate] that are followed. *)
Inductive reach (ok : alloc_exit → Prop) : machine → Prop :=
| reach_boot : reach ok boot
| reach_supply s o :
    reach ok s → supply_ok (supply o s) → reach ok (supply o s)
| reach_translate s va r s' :
    reach ok s → translate va s = Some (r, s') → reach ok s'
| reach_allocate s va r s' :
    reach ok s → page_allocate va s = Some (r, s') → ok r → reach ok s'
| reach_deallocate s va r s' :
    reach ok s → page_deallocate va s = Some (r, s') → reach ok s'.

Definition reachable : machine → Prop := reach (λ _, True).

(** Reachable without a failed request for memory inside [page_allocate]. *)
Definition reachable_unstarved : machine → Prop := reach (λ r, r = ExitDone).

(** What the upward loop did to the tables [t0] (leaf level) and [t1] on
    the path of [va] under the root, [bare] being read in the state before
    the call. *)
Definition walk_up_report (s : machine) (va e2 e1 : Z) (s' : machine) : Prop :=
  let t2 := ptbr s in
  let t1 := ENTRY_TO_PHYS_ADDR e2 in
  let t0 := ENTRY_TO_PHYS_ADDR e1 in
  let i2 := extract_level_index va 2 in
  let i1 := extract_level_index va 1 in
  let i0 := extract_level_index va 0 in
  (¬ live (heap s') t0 ↔ bare (heap s) t0 i0) ∧
  (¬ live (heap s') t1 ↔ bare (heap s) t0 i0 ∧ bare (heap s) t1 i1) ∧
  (live (heap s') t0 →
     peek (heap s') t0 i0 = Some 0 ∧
     (∀ j, peek (heap s') t1 j = peek (heap s) t1 j) ∧
     (∀ j, peek (heap s') t2 j = peek (heap s) t2 j)) ∧
  (¬ live (heap s') t0 → live (heap s') t1 →
     peek (heap s') t1 i1 = Some 0 ∧
     (∀ j, peek (heap s') t2 j = peek (heap s) t2 j)) ∧
  (¬ live (heap s') t1 → live (heap s') t2 ∧ peek (heap s') t2 i2 = Some 0) ∧
  (∀ q j, q ≠ t0 → q ≠ t1 → q ≠ t2 → peek (heap s') q j = peek (heap s) q j).

(** Every valid entry of a table above the leaf level names a table that
    holds a valid entry. *)
Definition no_empty_child (s : machine) : Prop :=
  ∀ level p i e,
    table_at s (S level) p → peek (heap s) p i = Some e → pte_valid e = true →
    nonempty (heap s) (ENTRY_TO_PHYS_ADDR e).

(** The number of low bits of a virtual address the walk looks at. *)
Definition VA_BITS : Z := POBITS + Z.of_nat LEVELS * BITS_PER_LEVEL.

(** [on_walk m va top cur level p]: the walk for [va] that starts at the
    table [cur] of level [top] comes to the table [p] at level [level]. *)
Inductive on_walk (m : gmap Z (list Z)) (va : Z) (top : nat) (cur : Z) :
    nat → Z → Prop :=
| walk_here : on_walk m va top cur top cur
| walk_down level p e :
    on_walk m va top cur (S level) p →
    peek m p (extract_level_index va (S level)) = Some e →
    pte_valid e = true →
    on_walk m va top cur level (ENTRY_TO_PHYS_ADDR e).

(** The books of one walk of [page_allocate] from the table [cur]: the
    answers [used] of [posix_memalign] it took, at most one a level; the
    blocks that are live after it; and the entries it wrote, each on the
    path of [va] and each naming one of the blocks it was given. *)
Definition allocate_account (va : Z) (level : nat) (cur : Z)
    (s : machine) (r : alloc_exit) (s' : machine) (used : list (option Z)) : Prop :=
  pending s = used ++ pending s' ∧
  (length used ≤ S level)%nat ∧
  (∀ q, live (heap s') q ↔ live (heap s) q ∨ Some q ∈ used) ∧
  (r = ExitDone → None ∉ used) ∧
  (r = ExitNoMem →
     walk (heap s') va level cur = None ∧
     (None ∈ used ∨ (pending s' = [] ∧ (length used < S level)%nat))) ∧
  (∀ p i e, peek (heap s') p i = Some e → e ≠ 0 →
     peek (heap s) p i = Some e ∨
     (Some (ENTRY_TO_PHYS_ADDR e) ∈ used ∧
      ∃ k, on_walk (heap s') va level cur k p ∧ i = extract_level_index va k)) ∧
  (∀ a, Some a ∈ used →
     ∃ k p, on_walk (heap s') va level cur k p ∧
       peek (heap s') p (extract_level_index va k) = Some (make_entry a)).

(** ** Sample machines *)

(** The state a computation leaves. *)
Definition after {A} (c : M A) (s : machine) : machine :=
  match c s with
  | Some (_, s') => s'
  | None => s
  end.

Definition demo_supply : list (option Z) :=
  [Some 4096; Some 8192; Some 12288; Some 16384].

Definition demo_start : machine := supply demo_supply boot.

(** Address 0 mapped through three fresh tables to the page at 16384. *)
Definition demo_mapped : machine := after (page_allocate 0) demo_start.

(** The same after the address is unmapped again: an empty root. *)
Definition demo_unmapped : machine := after (page_deallocate 0) demo_mapped.

Definition starved_start : machine := supply [None] boot.

Definition retry_start : machine := supply (None :: demo_supply) boot.

(** A request for the third block fails: the root names a table that was
    created and never filled. *)
Definition half_built : machine :=
  after (page_allocate 0) (supply [Some 4096; Some 8192] boot).

(** The empty tree of [demo_unmapped] with memory for one more mapping. *)
Definition demo_refilled : machine :=
  supply [Some 20480; Some 24576; Some 28672] demo_unmapped.

(** * Properties *)

(** ** Word arithmetic of entries and addresses *)

Lemma PAGE_MASK_testbit n :
  0 ≤ n → Z.testbit PAGE_MASK n = (10 <=? n) && (n <? 64).
Proof.
  intros Hn.
  replace PAGE_MASK with (Z.shiftl (Z.ones 54) 10) by reflexivity.
  rewrite Z.shiftl_spec by lia.
  destruct (Z.leb_spec 10 n) as [H|H]; simpl.
  - rewrite Z.testbit_ones by lia.
    destruct (Z.ltb_spec n 64), (Z.ltb_spec (n - 10) 54), (Z.leb_spec 0 (n - 10));
      simpl; lia.
  - apply Z.testbit_neg_r. lia.
Qed.

Lemma page_addr_testbit a n :
  page_addr a → 0 ≤ n → Z.testbit a n = Z.testbit a n && (10 <=? n) && (n <? 64).
Proof.
  intros (Hal & Hpos & Hhi) Hn.
  change PAGE_SIZE with (2 ^ 10) in *. change WORD_BITS with 64 in *.
  destruct (Z.leb_spec 10 n) as [H|H].
  - destruct (Z.ltb_spec n 64) as [H'|H'].
    + by rewrite !andb_true_r.
    + rewrite !andb_false_r.
      rewrite <- (Z.mod_small a (2 ^ 64)) by lia.
      apply Z.mod_pow2_bits_high. lia.
  - rewrite andb_false_r. simpl.
    rewrite <- (Z.mod_pow2_bits_low a 10 n) by lia.
    rewrite Hal. apply Z.bits_0.
Qed.

Lemma one_testbit n : 0 ≤ n → Z.testbit 1 n = (n =? 0).
Proof.
  intros Hn. destruct (Z.eqb_spec n 0) as [->|H]; [done|].
  change 1 with (Z.ones 1). rewrite Z.testbit_ones by lia.
  destruct (Z.leb_spec 0 n), (Z.ltb_spec n 1); simpl; lia.
Qed.

Lemma phys_make_entry a : page_addr a → ENTRY_TO_PHYS_ADDR (make_entry a) = a.
Proof.
  intros Ha. unfold ENTRY_TO_PHYS_ADDR, make_entry, VALID_FLAG.
  apply Z.bits_inj'. intros n Hn.
  rewrite Z.land_spec, Z.lor_spec, Z.land_spec, PAGE_MASK_testbit,
    one_testbit, (page_addr_testbit a n) by done.
  destruct (Z.testbit a n), (Z.leb_spec 10 n), (Z.ltb_spec n 64),
    (Z.eqb_spec n 0); simpl; try done; lia.
Qed.

Lemma make_entry_valid a : pte_valid (make_entry a) = true.
Proof.
  unfold pte_valid, make_entry, VALID_FLAG.
  replace (Z.land (Z.lor (Z.land a PAGE_MASK) 1) 1) with 1; [done|].
  apply Z.bits_inj'. intros n Hn.
  rewrite Z.land_spec, Z.lor_spec, one_testbit by done.
  destruct (Z.eqb_spec n 0); [|by rewrite andb_false_r].
  by rewrite orb_true_r.
Qed.

Lemma pte_valid_0 : pte_valid 0 = false.
Proof. reflexivity. Qed.

Lemma pte_valid_nonzero e : pte_valid e = true → e ≠ 0.
Proof. intros H ->. by rewrite pte_valid_0 in H. Qed.

Lemma page_offset_range va : 0 ≤ Z.land va (PAGE_SIZE - 1) < PAGE_SIZE.
Proof.
  change (PAGE_SIZE - 1) with (Z.ones 10). change PAGE_SIZE with (2 ^ 10).
  rewrite Z.land_ones by lia. apply Z.mod_pos_bound. lia.
Qed.

(** On a page address the bitwise or with an offset is their sum. *)
Lemma lor_page_offset a off :
  page_addr a → 0 ≤ off < PAGE_SIZE → Z.lor a off = a + off.
Proof.
  intros Ha Hoff.
  assert (Z.land a off = 0) as Hdisj.
  { apply Z.bits_inj'. intros n Hn.
    rewrite Z.land_spec, Z.bits_0, (page_addr_testbit a n) by done.
    destruct (Z.leb_spec 10 n); [|by rewrite andb_false_r].
    replace (Z.testbit off n) with false; [by rewrite andb_false_r|].
    symmetry. rewrite <- (Z.mod_small off (2 ^ 10)) by done.
    apply Z.mod_pow2_bits_high. lia. }
  rewrite <- Z.lxor_lor by done. symmetry. by apply Z.add_nocarry_lxor.
Qed.

Lemma extract_level_index_range va level :
  0 ≤ extract_level_index va level < ENTRIES_PER_TABLE.
Proof.
  unfold extract_level_index.
  change LEVEL_INDEX_MASK with (Z.ones 7). change ENTRIES_PER_TABLE with (2 ^ 7).
  rewrite Z.land_ones by lia. apply Z.mod_pos_bound. lia.
Qed.

(** ** Heap updates *)

Lemma peek_live m p i e : peek m p i = Some e → live m p.
Proof. unfold peek, live. destruct (m !! p); naive_solver. Qed.

Lemma zero_page_lookup i :
  zero_page !! i = if decide (i < Z.to_nat ENTRIES_PER_TABLE)%nat then Some 0 else None.
Proof.
  unfold zero_page. change (PAGE_SIZE / SIZEOF_SIZE_T) with ENTRIES_PER_TABLE.
  case_decide.
  - by apply lookup_replicate_2.
  - apply lookup_ge_None. rewrite length_replicate. lia.
Qed.

Lemma peek_fresh m a q j :
  peek (<[a := zero_page]> m) q j =
    if decide (q = a)
    then (if decide (0 ≤ j < ENTRIES_PER_TABLE) then Some 0 else None)
    else peek m q j.
Proof.
  unfold peek. destruct (decide (q = a)) as [->|Hq].
  - rewrite lookup_insert_eq, zero_page_lookup.
    repeat case_decide; try done; lia.
  - by rewrite lookup_insert_ne.
Qed.

Lemma live_fresh m a q : live (<[a := zero_page]> m) q ↔ q = a ∨ live m q.
Proof.
  unfold live. destruct (decide (q = a)) as [->|Hq].
  - rewrite lookup_insert_eq. naive_solver.
  - rewrite lookup_insert_ne by done. naive_solver.
Qed.

Lemma peek_poke m p i v q j :
  is_Some (peek m p i) →
  peek (poke m p i v) q j =
    if decide (q = p ∧ j = i) then Some v else peek m q j.
Proof.
  unfold peek, poke. intros [e He].
  destruct (m !! p) as [t|] eqn:Hp; [|done].
  destruct (decide (0 ≤ i)) as [Hi|]; [|done].
  assert (Z.to_nat i < length t)%nat by by eapply lookup_lt_Some.
  destruct (decide (q = p ∧ j = i)) as [[-> ->]|Hq].
  - rewrite lookup_insert_eq.
    rewrite decide_True by done. by apply list_lookup_insert_eq.
  - destruct (decide (q = p)) as [->|Hne].
    + rewrite lookup_insert_eq, Hp. destruct (decide (0 ≤ j)); [|done].
      apply list_lookup_insert_ne. intros Heq. apply Hq. split; [done|lia].
    + by rewrite lookup_insert_ne.
Qed.

Lemma live_poke m p i v q : live (poke m p i v) q ↔ live m q.
Proof.
  unfold live, poke. destruct (m !! p) as [t|] eqn:Hp; [|done].
  destruct (decide (q = p)) as [->|Hq].
  - rewrite lookup_insert_eq, Hp. naive_solver.
  - by rewrite lookup_insert_ne.
Qed.

Lemma peek_delete m a q j :
  peek (delete a m) q j = if decide (q = a) then None else peek m q j.
Proof.
  unfold peek. destruct (decide (q = a)) as [->|Hq].
  - by rewrite lookup_delete_eq.
  - by rewrite lookup_delete_ne.
Qed.

Lemma live_delete m a q : live (delete a m) q ↔ q ≠ a ∧ live m q.
Proof.
  unfold live. destruct (decide (q = a)) as [->|Hq].
  - rewrite lookup_delete_eq. split; [by intros [? ?]|naive_solver].
  - rewrite lookup_delete_ne by done. naive_solver.
Qed.

(** ** The primitives as equations *)

Lemma bind_Some {A B} (c : M A) (k : A → M B) s r :
  bind c k s = Some r ↔ ∃ x s1, c s = Some (x, s1) ∧ k x s1 = Some r.
Proof.
  unfold bind. destruct (c s) as [[x s1]|]; naive_solver.
Qed.

Lemma bind_run {A B} (c : M A) (k : A → M B) s x s1 :
  c s = Some (x, s1) → bind c k s = k x s1.
Proof. unfold bind. by intros ->. Qed.

Lemma load_Some p i s e s' :
  load p i s = Some (e, s') ↔ peek (heap s) p i = Some e ∧ s' = s.
Proof. unfold load. destruct (peek (heap s) p i); naive_solver. Qed.

Lemma load_run p i s e : peek (heap s) p i = Some e → load p i s = Some (e, s).
Proof. intros. by apply load_Some. Qed.

Lemma store_run p i v s :
  is_Some (peek (heap s) p i) →
  store p i v s = Some (tt, Machine (ptbr s) (poke (heap s) p i v) (pending s)).
Proof.
  unfold store, peek, poke. intros [e He].
  destruct (heap s !! p) as [t|]; [|done].
  case_decide; [|done].
  assert (Z.to_nat i < length t)%nat by by eapply lookup_lt_Some.
  rewrite decide_True by lia. done.
Qed.

Lemma free_run p s :
  live (heap s) p →
  free p s = Some (tt, Machine (ptbr s) (delete p (heap s)) (pending s)).
Proof. unfold free, live. by intros [t ->]. Qed.

(** ** Well-formed machine states *)

Lemma wf_boot : wf boot.
Proof.
  split; simpl.
  - intros p i [t Ht]. by rewrite lookup_empty in Ht.
  - intros p [t Ht]. by rewrite lookup_empty in Ht.
  - by left.
  - intros p i e H. apply peek_live in H as [t Ht]. by rewrite lookup_empty in Ht.
  - intros p i q j e H. apply peek_live in H as [t Ht]. by rewrite lookup_empty in Ht.
Qed.

Lemma make_entry_inj a b :
  page_addr a → page_addr b → make_entry a = make_entry b → a = b.
Proof.
  intros Ha Hb Heq.
  by rewrite <- (phys_make_entry a), <- (phys_make_entry b), Heq.
Qed.

Lemma make_entry_nonzero a : make_entry a ≠ 0.
Proof. apply pte_valid_nonzero, make_entry_valid. Qed.

(** In a well-formed state the valid entries are exactly the non-zero ones. *)
Lemma wf_valid_iff s p i e :
  wf s → peek (heap s) p i = Some e → (pte_valid e = true ↔ e ≠ 0).
Proof.
  intros Hwf He. split; [apply pte_valid_nonzero|].
  intros Hnz. destruct (wf_link s Hwf p i e He Hnz) as (a & -> & _).
  apply make_entry_valid.
Qed.

Lemma wf_invalid_zero s p i e :
  wf s → peek (heap s) p i = Some e → pte_valid e = false → e = 0.
Proof.
  intros Hwf He Hv. destruct (decide (e = 0)) as [|Hnz]; [done|].
  apply (wf_valid_iff s p i e Hwf He) in Hnz. congruence.
Qed.

(** The block a valid entry names. *)
Lemma wf_target s p i e :
  wf s → peek (heap s) p i = Some e → pte_valid e = true →
  e = make_entry (ENTRY_TO_PHYS_ADDR e) ∧
  live (heap s) (ENTRY_TO_PHYS_ADDR e) ∧
  page_addr (ENTRY_TO_PHYS_ADDR e) ∧
  ENTRY_TO_PHYS_ADDR e ≠ ptbr s ∧ ENTRY_TO_PHYS_ADDR e ≠ p.
Proof.
  intros Hwf He Hv.
  destruct (wf_link s Hwf p i e He (pte_valid_nonzero e Hv))
    as (a & -> & Hlive & Hroot & Hself).
  pose proof (wf_base s Hwf a Hlive) as Ha.
  rewrite phys_make_entry by done. done.
Qed.

(** A block that is not live is named by no entry. *)
Lemma wf_unnamed s a q j :
  wf s → page_addr a → ¬ live (heap s) a →
  peek (heap s) q j ≠ Some (make_entry a).
Proof.
  intros Hwf Ha Hdead Hq.
  destruct (wf_link s Hwf q j _ Hq (make_entry_nonzero a))
    as (b & Heq & Hlive & _).
  apply make_entry_inj in Heq; [congruence|done|by eapply wf_base].
Qed.

Lemma wf_fresh s a o :
  wf s → page_addr a → ¬ live (heap s) a →
  wf (Machine (ptbr s) (<[a := zero_page]> (heap s)) o).
Proof.
  intros Hwf Ha Hdead. split; simpl.
  - intros p i Hp. rewrite peek_fresh. case_decide as Hpa.
    + case_decide; [|split; [by intros [? ?]|done]]. split; [done|by eexists].
    + apply (wf_size s Hwf). apply live_fresh in Hp. naive_solver.
  - intros p [->|Hp]%live_fresh; [done|by eapply wf_base].
  - destruct (wf_root s Hwf) as [?|?]; [by left|right].
    apply live_fresh. by right.
  - intros p i e. rewrite peek_fresh. case_decide as Hpa.
    + case_decide; naive_solver.
    + intros He Hnz.
      destruct (wf_link s Hwf p i e He Hnz) as (b & ? & ? & ? & ?).
      exists b. repeat split; try done. apply live_fresh. by right.
  - intros p i q j e. rewrite !peek_fresh.
    repeat case_decide; try naive_solver. by eapply wf_inj.
Qed.

Lemma wf_new_root s a o :
  wf s → ptbr s = 0 → page_addr a → ¬ live (heap s) a →
  wf (Machine a (<[a := zero_page]> (heap s)) o).
Proof.
  intros Hwf Hroot Ha Hdead.
  pose proof (wf_fresh s a o Hwf Ha Hdead) as Hwf'.
  split; simpl.
  - apply (wf_size _ Hwf').
  - apply (wf_base _ Hwf').
  - right. apply live_fresh. by left.
  - intros p i e He Hnz.
    destruct (wf_link _ Hwf' p i e He Hnz) as (b & -> & Hb & _ & Hself).
    exists b. repeat split; try done. intros ->.
    simpl in He. rewrite peek_fresh in He. case_decide as Hpa; [naive_solver|].
    by eapply (wf_unnamed s a p i).
  - apply (wf_inj _ Hwf').
Qed.

(** Writing the entry of an unnamed live block into a table. *)
Lemma wf_set_link s p i a :
  wf s → is_Some (peek (heap s) p i) → live (heap s) a →
  a ≠ ptbr s → a ≠ p →
  (∀ q j, peek (heap s) q j ≠ Some (make_entry a)) →
  wf (Machine (ptbr s) (poke (heap s) p i (make_entry a)) (pending s)).
Proof.
  intros Hwf Hpi Ha Hroot Hself Hun. split; simpl.
  - intros q j Hq%live_poke. rewrite peek_poke by done.
    case_decide as Hqj; [|by apply (wf_size s Hwf)].
    destruct Hqj as [-> ->]. split; [|by eexists].
    intros _. by apply (wf_size s Hwf p i).
  - intros q Hq%live_poke. by eapply wf_base.
  - destruct (wf_root s Hwf) as [?|?]; [by left|right]. by apply live_poke.
  - intros q j e. rewrite peek_poke by done. case_decide as Hqj.
    + destruct Hqj as [-> ->]. intros [= <-] _. exists a.
      repeat split; try done. by apply live_poke.
    + intros He Hnz.
      destruct (wf_link s Hwf q j e He Hnz) as (b & ? & ? & ? & ?).
      exists b. repeat split; try done. by apply live_poke.
  - intros q j q' j' e. rewrite !peek_poke by done.
    destruct (decide (q = p ∧ j = i)) as [[-> ->]|Hq],
             (decide (q' = p ∧ j' = i)) as [[-> ->]|Hq']; simpl.
    + done.
    + intros [= <-] Hx _. by destruct (Hun q' j').
    + intros Hx [= <-] _. by destruct (Hun q j).
    + by apply (wf_inj s).
Qed.

(** Clearing an entry. *)
Lemma wf_clear s p i :
  wf s → is_Some (peek (heap s) p i) →
  wf (Machine (ptbr s) (poke (heap s) p i 0) (pending s)).
Proof.
  intros Hwf Hpi. split; simpl.
  - intros q j Hq%live_poke. rewrite peek_poke by done.
    case_decide as Hqj; [|by apply (wf_size s Hwf)].
    destruct Hqj as [-> ->]. split; [|by eexists].
    intros _. by apply (wf_size s Hwf p i).
  - intros q Hq%live_poke. by eapply wf_base.
  - destruct (wf_root s Hwf) as [?|?]; [by left|right]. by apply live_poke.
  - intros q j e. rewrite peek_poke by done. case_decide as Hqj.
    + naive_solver.
    + intros He Hnz.
      destruct (wf_link s Hwf q j e He Hnz) as (b & ? & ? & ? & ?).
      exists b. repeat split; try done. by apply live_poke.
  - intros q j q' j' e. rewrite !peek_poke by done.
    destruct (decide (q = p ∧ j = i)) as [[-> ->]|Hq],
             (decide (q' = p ∧ j' = i)) as [[-> ->]|Hq']; simpl.
    + done.
    + by intros [= <-] _ ?.
    + by intros _ [= <-] ?.
    + by apply (wf_inj s).
Qed.

(** Freeing the block an entry names and clearing that entry. *)
Lemma wf_unlink s p i e :
  wf s → peek (heap s) p i = Some e → pte_valid e = true →
  wf (Machine (ptbr s)
        (poke (delete (ENTRY_TO_PHYS_ADDR e) (heap s)) p i 0) (pending s)).
Proof.
  intros Hwf He Hv.
  destruct (wf_target s p i e Hwf He Hv) as (Heq & Ha & Hpa & Hroot & Hself).
  set (a := ENTRY_TO_PHYS_ADDR e) in *.
  assert (is_Some (peek (delete a (heap s)) p i)) as Hpi.
  { rewrite peek_delete. rewrite decide_False by done. by eexists. }
  assert (∀ q j x, peek (poke (delete a (heap s)) p i 0) q j = Some x →
            x ≠ 0 → q ≠ a ∧ (q, j) ≠ (p, i) ∧ peek (heap s) q j = Some x) as Hold.
  { intros q j x. rewrite peek_poke by done. case_decide as Hqj; [naive_solver|].
    rewrite peek_delete. case_decide; [done|]. naive_solver. }
  split; simpl.
  - intros q j Hq%live_poke. rewrite peek_poke by done.
    apply live_delete in Hq as [Hqa Hq].
    case_decide as Hqj.
    + destruct Hqj as [-> ->]. split; [|by eexists].
      intros _. apply (wf_size s Hwf p i); [done|by eexists].
    + rewrite peek_delete, decide_False by done. by apply (wf_size s Hwf).
  - intros q Hq%live_poke. apply live_delete in Hq as [_ Hq]. by eapply wf_base.
  - destruct (wf_root s Hwf) as [?|?]; [by left|right].
    apply live_poke, live_delete. done.
  - intros q j x Hx Hnz. destruct (Hold q j x Hx Hnz) as (Hqa & Hqj & Hx').
    destruct (wf_link s Hwf q j x Hx' Hnz) as (b & -> & Hb & ? & ?).
    exists b. repeat split; try done.
    apply live_poke, live_delete. split; [|done]. intros ->.
    rewrite Heq in He.
    destruct (wf_inj s Hwf p i q j _ He Hx' (make_entry_nonzero a)).
    naive_solver.
  - intros q j q' j' x Hx Hx' Hnz.
    destruct (Hold q j x Hx Hnz) as (_ & _ & H1).
    destruct (Hold q' j' x Hx' Hnz) as (_ & _ & H2).
    by eapply wf_inj.
Qed.

Lemma wf_same s s' : ptbr s' = ptbr s → heap s' = heap s → wf s → wf s'.
Proof.
  destruct s, s'. simpl. intros -> -> [H1 H2 H3 H4 H5]. by split.
Qed.

Lemma supply_ok_shrink s s' :
  (∀ a, live (heap s') a → live (heap s) a) → pending s' = pending s →
  supply_ok s → supply_ok s'.
Proof.
  intros Hlive Hp [Hnd Hok]. split; rewrite Hp; [done|].
  intros a Ha. destruct (Hok a Ha). naive_solver.
Qed.

(** What a request for a page does in a well-formed state. *)
Lemma allocate_aligned_page_cases s :
  supply_ok s →
  ∃ a s', allocate_aligned_page s = Some (a, s') ∧ supply_ok s' ∧
    ptbr s' = ptbr s ∧
    ((a = 0 ∧ heap s' = heap s) ∨
     (page_addr a ∧ ¬ live (heap s) a ∧ heap s' = <[a := zero_page]> (heap s))).
Proof.
  intros [Hnd Hok]. unfold allocate_aligned_page.
  destruct (pending s) as [|[a|] o] eqn:Hp.
  - exists 0, s. split; [done|]. split; [|split; [done|by left]].
    split; rewrite Hp; [done|]. intros a Ha. by apply Hok.
  - eexists a, _. split; [done|]. simpl in Hnd.
    apply NoDup_cons in Hnd as [Hnew Hnd].
    destruct (Hok a) as [Ha Hdead]; [by left|].
    split; [|split; [done|by right]].
    split; simpl; [done|].
    intros b Hb. destruct (Hok b) as [? ?]; [by right|]. split; [done|].
    intros [->|?]%live_fresh; [|done].
    apply Hnew. apply list_elem_of_omap. by exists (Some a).
  - eexists 0, _. split; [done|]. split; [|split; [done|by left]].
    split; simpl; [done|]. intros b Hb. apply Hok. by right.
Qed.

(** ** Walks as functions of the heap *)

Lemma extends_refl s : extends s s.
Proof. by split. Qed.

Lemma extends_same s s' : heap s' = heap s → extends s s'.
Proof. intros H. unfold extends. by rewrite H. Qed.

Lemma extends_trans s1 s2 s3 : extends s1 s2 → extends s2 s3 → extends s1 s3.
Proof. intros [H1 H2] [H3 H4]. split; naive_solver. Qed.

(** Going down one level and then on. *)
Lemma sub_at_below m top cur i e below level p :
  peek m cur i = Some e → pte_valid e = true → top = S below →
  sub_at m below (ENTRY_TO_PHYS_ADDR e) level p →
  sub_at m top cur level p.
Proof.
  intros He Hv ->. induction 1 as [|level p j x Hp IH Hx Hvx].
  - eapply sub_child; [constructor|done..].
  - eapply sub_child; done.
Qed.

Lemma walk_nonempty m va level cur e :
  walk m va level cur = Some e → nonempty m cur.
Proof.
  destruct level; simpl;
    destruct (peek m cur _) as [x|] eqn:Hx; try done;
    destruct (pte_valid x) eqn:Hv; try done; intros _; by eexists _, x.
Qed.

(** ** page_allocate: the walk *)

Lemma peek_installed m p i a q j :
  is_Some (peek m p i) → ¬ live m a →
  peek (installed m p i a) q j =
    if decide (q = p ∧ j = i) then Some (make_entry a)
    else if decide (q = a)
         then (if decide (0 ≤ j < ENTRIES_PER_TABLE) then Some 0 else None)
         else peek m q j.
Proof.
  intros [e He] Hdead. unfold installed.
  assert (p ≠ a) by (intros ->; by apply Hdead, (peek_live m a i e)).
  rewrite peek_poke; [by rewrite peek_fresh|].
  rewrite peek_fresh, decide_False by done. by eexists.
Qed.

Lemma live_installed m p i a q :
  live (installed m p i a) q ↔ q = a ∨ live m q.
Proof. unfold installed. by rewrite live_poke, live_fresh. Qed.

(** Filling an invalid entry: the request fails and nothing changes, or a
    fresh page is installed. *)
Lemma fill_entry s cur idx e :
  wf s → supply_ok s → peek (heap s) cur idx = Some e → pte_valid e = false →
  ∃ a s1, allocate_aligned_page s = Some (a, s1) ∧
    ((a = 0 ∧ wf s1 ∧ supply_ok s1 ∧ ptbr s1 = ptbr s ∧ heap s1 = heap s) ∨
     ((a =? 0) = false ∧ page_addr a ∧ ¬ live (heap s) a ∧
      ∃ s2, store cur idx (make_entry a) s1 = Some (tt, s2) ∧
        wf s2 ∧ supply_ok s2 ∧ ptbr s2 = ptbr s ∧
        heap s2 = installed (heap s) cur idx a)).
Proof.
  intros Hwf Hsup He Hv.
  destruct (allocate_aligned_page_cases s Hsup)
    as (a & s1 & Hrun & Hsup1 & Hroot1 & [[-> Hheap]|(Ha & Hdead & Hheap)]).
  - exists 0, s1. split; [done|left]. split_and!; try done. by eapply wf_same.
  - exists a, s1. split; [done|right].
    assert (wf s1) as Hwf1.
    { eapply (wf_same (Machine (ptbr s) (<[a:=zero_page]> (heap s)) (pending s1))); 
        [done|done|by apply wf_fresh]. }
    assert (cur ≠ a) as Hne by (intros ->; by apply Hdead, (peek_live _ a idx e)).
    assert (is_Some (peek (heap s1) cur idx)) as Hcur.
    { rewrite Hheap, peek_fresh, decide_False by done. by eexists. }
    destruct Ha as (Hal & Hpos & Hhi).
    split; [by apply Z.eqb_neq; lia|]. split; [done|]. split; [done|].
    eexists. split; [by apply store_run|]. simpl.
    split; [|split; [|by rewrite Hheap]].
    + apply (wf_set_link s1 cur idx a Hwf1 Hcur).
      * rewrite Hheap. apply live_fresh. by left.
      * rewrite Hroot1. destruct (wf_root s Hwf) as [->|Hr]; [lia|]. by intros ->.
      * done.
      * intros q j. rewrite Hheap, peek_fresh. case_decide.
        -- pose proof (make_entry_nonzero a). case_decide; naive_solver.
        -- by apply wf_unnamed.
    + eapply (supply_ok_shrink s1); [|done|done].
      simpl. intros b. by rewrite live_poke.
Qed.

Lemma extends_installed s s2 cur idx a :
  wf s → peek (heap s) cur idx = Some 0 → ¬ live (heap s) a →
  heap s2 = installed (heap s) cur idx a → extends s s2.
Proof.
  intros Hwf He Hdead Hheap. split.
  - intros p Hp. rewrite Hheap. apply live_installed. by right.
  - intros p i e Hp Hnz. rewrite Hheap, peek_installed by (done || by eexists).
    rewrite decide_False by (intros [-> ->]; congruence).
    rewrite decide_False; [done|]. intros ->. by apply Hdead, (peek_live _ a i e).
Qed.

Lemma grown_same va top cur r s s' :
  heap s' = heap s → grown va top cur r s s'.
Proof. intros Hheap p i e He _. left. by rewrite <- Hheap. Qed.

Lemma allocate_walk_leaf va cur s :
  wf s → supply_ok s → live (heap s) cur →
  ∃ r s', allocate_walk va 0 cur s = Some (r, s') ∧
    allocate_walk_post va 0 cur s r s'.
Proof.
  intros Hwf Hsup Hcur. simpl.
  set (idx := extract_level_index va 0).
  destruct (proj2 (wf_size s Hwf cur idx Hcur) (extract_level_index_range va 0))
    as [e He].
  rewrite (bind_run _ _ s e s (load_run _ _ _ _ He)).
  destruct (pte_valid e) eqn:Hv; simpl.
  - exists ExitDone, s. split; [done|].
    split_and!; try done; try apply extends_refl; [|by apply grown_same].
    intros _. simpl. fold idx. rewrite He, Hv. by eexists.
  - pose proof (wf_invalid_zero s cur idx e Hwf He Hv) as ->.
    destruct (fill_entry s cur idx 0 Hwf Hsup He Hv)
      as (a & s1 & Hrun & [(-> & Hwf1 & Hsup1 & Hroot1 & Hheap)|
                           (Hnz & Ha & Hdead & s2 & Hst & Hwf2 & Hsup2 & Hroot2 & Hheap)]).
    + rewrite (bind_run _ _ _ _ _ Hrun). simpl.
      exists ExitNoMem, s1. split; [done|].
      split_and!; try done; [by apply extends_same|by apply grown_same].
    + rewrite (bind_run _ _ _ _ _ Hrun). rewrite Hnz.
      rewrite (bind_run _ _ _ _ _ Hst).
      exists ExitDone, s2. split; [done|].
      assert (peek (heap s2) cur idx = Some (make_entry a)) as Hnew.
      { rewrite Hheap, peek_installed by (done || by eexists).
        by rewrite decide_True. }
      split; [done|]. split; [done|]. split; [done|]. split; [done|].
      split; [by eapply extends_installed|]. split.
      * intros _. simpl. fold idx. rewrite Hnew, make_entry_valid. by eexists.
      * intros p i e. rewrite Hheap, peek_installed by (done || by eexists).
        case_decide as Hpi.
        -- destruct Hpi as [-> ->]. intros [= <-] _. right.
           rewrite phys_make_entry by done. split; [done|].
           exists 0%nat. split; [constructor|]. split; [done|]. lia.
        -- case_decide; [case_decide; naive_solver|]. by left.
Qed.

Lemma allocate_walk_spec va level cur s :
  wf s → supply_ok s → live (heap s) cur →
  ∃ r s', allocate_walk va level cur s = Some (r, s') ∧
    allocate_walk_post va level cur s r s'.
Proof.
  revert cur s. induction level as [|below IH]; intros cur s Hwf Hsup Hcur.
  { by apply allocate_walk_leaf. }
  cbn [allocate_walk].
  set (idx := extract_level_index va (S below)).
  destruct (proj2 (wf_size s Hwf cur idx Hcur)
              (extract_level_index_range va (S below))) as [e He].
  rewrite (bind_run _ _ s e s (load_run _ _ _ _ He)).
  destruct (pte_valid e) eqn:Hv; simpl.
  - (* the table exists *)
    rewrite (bind_run _ _ s e s (load_run _ _ _ _ He)).
    destruct (wf_target s cur idx e Hwf He Hv) as (_ & Hchild & _).
    destruct (IH (ENTRY_TO_PHYS_ADDR e) s Hwf Hsup Hchild)
      as (r & s' & Hrun & Hr & Hwf' & Hsup' & Hroot' & Hext & Hdone & Hgrown).
    exists r, s'. split; [done|].
    assert (peek (heap s') cur idx = Some e) as He'
      by (apply Hext; [done|by apply pte_valid_nonzero]).
    split_and!; try done.
    + intros Hok. simpl. fold idx. rewrite He', Hv. by apply Hdone.
    + intros p i x Hx Hnz. destruct (Hgrown p i x Hx Hnz)
        as [?|(Hdead & k & Hk & Hi & Hne)]; [by left|right].
      split; [done|]. exists k. split; [|done].
      by eapply sub_at_below.
  - (* the table is missing *)
    pose proof (wf_invalid_zero s cur idx e Hwf He Hv) as ->.
    destruct (fill_entry s cur idx 0 Hwf Hsup He Hv)
      as (a & s1 & Hrun & [(-> & Hwf1 & Hsup1 & Hroot1 & Hheap)|
                           (Hnz & Ha & Hdead & s2 & Hst & Hwf2 & Hsup2 & Hroot2 & Hheap)]).
    + rewrite (bind_run _ _ _ _ _ Hrun). simpl.
      exists ExitNoMem, s1. split; [done|].
      split_and!; try done; [by apply extends_same|by apply grown_same].
    + rewrite (bind_run _ _ _ _ _ Hrun). rewrite Hnz.
      rewrite (bind_run _ _ _ _ _ Hst).
      assert (peek (heap s2) cur idx = Some (make_entry a)) as Hnew.
      { rewrite Hheap, peek_installed by (done || by eexists).
        by rewrite decide_True. }
      rewrite (bind_run _ _ _ _ _ (load_run _ _ _ _ Hnew)).
      rewrite phys_make_entry by done.
      assert (live (heap s2) a) as Hlive
        by (rewrite Hheap; apply live_installed; by left).
      destruct (IH a s2 Hwf2 Hsup2 Hlive)
        as (r & s' & Hrun' & Hr & Hwf' & Hsup' & Hroot' & Hext & Hdone & Hgrown).
      exists r, s'. split; [done|].
      assert (extends s s2) as Hext2 by by eapply extends_installed.
      assert (peek (heap s') cur idx = Some (make_entry a)) as Hnew'
        by (apply Hext; [done|apply make_entry_nonzero]).
      split; [done|]. split; [done|]. split; [done|].
      split; [congruence|]. split; [by eapply extends_trans|]. split.
      * intros Hok. simpl. fold idx. rewrite Hnew', make_entry_valid.
        rewrite phys_make_entry by done. by apply Hdone.
      * intros p i x Hx Hnzx.
        destruct (Hgrown p i x Hx Hnzx) as [Hold|(Hdead' & k & Hk & Hi & Hne)].
        -- revert Hold. rewrite Hheap, peek_installed by (done || by eexists).
           case_decide as Hpi.
           ++ destruct Hpi as [-> ->]. intros [= <-]. right.
              rewrite phys_make_entry by done. split; [done|].
              exists (S below). split; [constructor|]. split; [done|].
              intros Hok _. destruct (Hdone Hok) as [leaf Hleaf].
              by eapply walk_nonempty.
           ++ case_decide; [case_decide; naive_solver|]. by left.
        -- right. split.
           ++ intros Hl. apply Hdead'. by apply Hext2.
           ++ exists k. split; [|done].
              eapply (sub_at_below _ _ cur idx (make_entry a)); eauto using make_entry_valid.
              by rewrite phys_make_entry.
Qed.

(** An entry that is already there is left alone: when the whole path is
    valid the walk allocates nothing and writes nothing. *)
Lemma allocate_walk_mapped va level cur s :
  is_Some (walk (heap s) va level cur) →
  allocate_walk va level cur s = Some (ExitDone, s).
Proof.
  revert cur. induction level as [|below IH]; intros cur [leaf Hleaf];
    cbn [allocate_walk]; simpl in Hleaf;
    destruct (peek (heap s) cur _) as [e|] eqn:He; try done;
    destruct (pte_valid e) eqn:Hv; try done;
    rewrite (bind_run _ _ s e s (load_run _ _ _ _ He)), Hv; simpl; [done|].
  rewrite (bind_run _ _ s e s (load_run _ _ _ _ He)).
  apply IH. by eexists.
Qed.

(** ** The bounds check never fails *)

Lemma is_address_valid_loop_true va n :
  is_address_valid_loop ENTRIES_PER_TABLE va n = true.
Proof.
  induction n as [|level IH]; [done|]. simpl.
  pose proof (extract_level_index_range va level).
  destruct (Z.leb_spec ENTRIES_PER_TABLE (extract_level_index va level)); [lia|done].
Qed.

Lemma is_address_valid_true va : is_address_valid va = true.
Proof. apply is_address_valid_loop_true. Qed.

(** ** page_allocate as a whole *)

Lemma page_allocate_spec va s :
  wf s → supply_ok s →
  ∃ r s', page_allocate va s = Some (r, s') ∧ page_allocate_post va s r s'.
Proof.
  intros Hwf Hsup. unfold page_allocate, page_allocate_within.
  fold (is_address_valid va). rewrite is_address_valid_true. simpl.
  rewrite (bind_run _ _ s (ptbr s) s eq_refl).
  destruct (Z.eqb_spec (ptbr s) 0) as [Hnull|Hroot].
  - (* no root yet *)
    destruct (allocate_aligned_page_cases s Hsup)
      as (a & s1 & Hrun & Hsup1 & Hroot1 & [[-> Hheap]|(Ha & Hdead & Hheap)]);
      rewrite (bind_run _ _ _ _ _ Hrun).
    + simpl. exists ExitNoMem, s1. split; [done|].
      split_and!; try done.
      * by eapply wf_same.
      * intros _. left. congruence.
      * by apply extends_same.
      * by apply grown_same.
    + assert ((a =? 0) = false) as -> by (destruct Ha as (_ & ? & _); lia).
      rewrite (bind_run _ _ s1 tt (Machine a (heap s1) (pending s1)) eq_refl).
      set (s2 := Machine a (heap s1) (pending s1)).
      assert (wf s2) as Hwf2.
      { eapply (wf_same (Machine a (<[a:=zero_page]> (heap s)) (pending s1)));
          [done|done|by apply wf_new_root]. }
      assert (supply_ok s2) as Hsup2 by by eapply (supply_ok_shrink s1).
      assert (live (heap s2) a) as Hlive
        by (simpl; rewrite Hheap; apply live_fresh; by left).
      unfold allocate_from_root.
      rewrite (bind_run _ _ s2 a s2 eq_refl).
      destruct (allocate_walk_spec va (LEVELS - 1) a s2 Hwf2 Hsup2 Hlive)
        as (r & s' & Hrun' & Hr & Hwf' & Hsup' & Hroot' & Hext & Hdone & Hgrown).
      exists r, s'. split; [done|].
      assert (extends s s2) as Hext2.
      { split; simpl; rewrite Hheap.
        - intros p Hp. apply live_fresh. by right.
        - intros p i e Hp _. rewrite peek_fresh, decide_False; [done|].
          intros ->. by apply Hdead, (peek_live _ a i e). }
      simpl in Hroot'. split_and!; try done.
      * intros _. right. by rewrite Hroot'.
      * by eapply extends_trans.
      * intros Hok. unfold lookup_leaf. rewrite Hroot'.
        assert ((a =? 0) = false) as -> by (destruct Ha as (_ & ? & _); lia).
        by apply Hdone.
      * rewrite Hroot'. intros p i e He Hnz.
        destruct (Hgrown p i e He Hnz) as [Hold|(Hdead' & Hk)].
        -- left. simpl in Hold. rewrite Hheap, peek_fresh in Hold.
           case_decide; [case_decide; naive_solver|done].
        -- right. split; [|done]. intros Hl. apply Hdead'. by apply Hext2.
  - (* the root exists *)
    unfold allocate_from_root.
    rewrite (bind_run _ _ s (ptbr s) s eq_refl).
    destruct (wf_root s Hwf) as [?|Hlive]; [done|].
    destruct (allocate_walk_spec va (LEVELS - 1) (ptbr s) s Hwf Hsup Hlive)
      as (r & s' & Hrun' & Hr & Hwf' & Hsup' & Hroot' & Hext & Hdone & Hgrown).
    exists r, s'. split; [done|]. split_and!; try done.
    + intros Hok. unfold lookup_leaf. rewrite Hroot'.
      destruct (Z.eqb_spec (ptbr s) 0); [done|]. by apply Hdone.
    + by rewrite Hroot'.
Qed.

Lemma page_allocate_mapped va s :
  is_Some (lookup_leaf s va) → page_allocate va s = Some (ExitDone, s).
Proof.
  unfold lookup_leaf. intros Hleaf.
  unfold page_allocate, page_allocate_within.
  fold (is_address_valid va). rewrite is_address_valid_true. simpl.
  rewrite (bind_run _ _ s (ptbr s) s eq_refl).
  destruct (ptbr s =? 0); [by destruct Hleaf|].
  unfold allocate_from_root. rewrite (bind_run _ _ s (ptbr s) s eq_refl).
  by apply allocate_walk_mapped.
Qed.

(** ** translate *)

Lemma translate_walk_spec va off level cur s :
  wf s → live (heap s) cur →
  translate_walk va off (S level) cur s =
    Some (match walk (heap s) va level cur with
          | Some e => Z.lor (ENTRY_TO_PHYS_ADDR e) off
          | None => NOT_MAPPED
          end, s).
Proof.
  intros Hwf. revert cur. induction level as [|below IH]; intros cur Hcur;
    cbn [translate_walk walk];
    pose proof (extract_level_index_range va) as Hrange.
  - destruct (Z.leb_spec ENTRIES_PER_TABLE (extract_level_index va 0));
      [specialize (Hrange 0%nat); lia|].
    destruct (proj2 (wf_size s Hwf cur _ Hcur) (Hrange 0%nat)) as [e He].
    rewrite (bind_run _ _ s e s (load_run _ _ _ _ He)), He.
    by destruct (pte_valid e).
  - destruct (Z.leb_spec ENTRIES_PER_TABLE (extract_level_index va (S below)));
      [specialize (Hrange (S below)); lia|].
    destruct (proj2 (wf_size s Hwf cur _ Hcur) (Hrange (S below))) as [e He].
    rewrite (bind_run _ _ s e s (load_run _ _ _ _ He)), He.
    destruct (pte_valid e) eqn:Hv; [|done]. simpl.
    apply IH. by destruct (wf_target s cur _ e Hwf He Hv) as (_ & ? & _).
Qed.

Lemma translate_spec va s :
  wf s → translate va s = Some (translation s va, s).
Proof.
  intros Hwf. unfold translate, translation, lookup_leaf.
  rewrite (bind_run _ _ s (ptbr s) s eq_refl).
  destruct (Z.eqb_spec (ptbr s) 0) as [|Hroot]; [done|].
  destruct (wf_root s Hwf) as [?|Hlive]; [done|].
  by apply (translate_walk_spec va _ (LEVELS - 1)).
Qed.

(** [translate] never changes the machine, well-formed or not. *)
Lemma translate_walk_pure va off n cur s r s' :
  translate_walk va off n cur s = Some (r, s') → s' = s.
Proof.
  revert cur. induction n as [|level IH]; intros cur; cbn [translate_walk].
  - by intros [= _ <-].
  - destruct (ENTRIES_PER_TABLE <=? _); [by intros [= _ <-]|].
    intros (e & s1 & [He ->]%load_Some & Hk)%bind_Some.
    destruct (pte_valid e); simpl in Hk; [|by injection Hk as _ <-].
    destruct (decide (level = 0%nat)); [by injection Hk as _ <-|by eapply IH].
Qed.

Lemma translate_pure va s r s' : translate va s = Some (r, s') → s' = s.
Proof.
  unfold translate. intros (root & s1 & [= _ <-] & Hk)%bind_Some.
  destruct (root =? 0); [by injection Hk as _ <-|].
  by eapply translate_walk_pure.
Qed.

(** ** page_deallocate *)

Lemma wf_length s p t :
  wf s → heap s !! p = Some t → length t = Z.to_nat ENTRIES_PER_TABLE.
Proof.
  intros Hwf Hp.
  assert (live (heap s) p) as Hlive by by eexists.
  pose proof (wf_size s Hwf p) as Hsize. unfold peek in Hsize. rewrite Hp in Hsize.
  destruct (decide (length t < Z.to_nat ENTRIES_PER_TABLE)%nat) as [Hlt|Hge].
  - destruct (proj2 (Hsize (Z.of_nat (length t)) Hlive)) as [e He]; [lia|].
    rewrite decide_True in He by lia. apply lookup_lt_Some in He. lia.
  - destruct (decide (length t = Z.to_nat ENTRIES_PER_TABLE)) as [|Hne]; [done|].
    assert (is_Some (t !! Z.to_nat ENTRIES_PER_TABLE)) as Hin
      by (apply lookup_lt_is_Some; lia).
    pose proof (proj1 (Hsize ENTRIES_PER_TABLE Hlive)) as Hout.
    rewrite decide_True in Hout by done. specialize (Hout Hin). lia.
Qed.

Lemma vacant_true m p :
  vacant m p = true ↔ ∀ i e, peek m p i = Some e → pte_valid e = false.
Proof.
  unfold vacant, peek. destruct (m !! p) as [t|]; [|done].
  rewrite forallb_forall. split.
  - intros Hall i e Hi. case_decide; [|done].
    apply negb_true_iff, Hall, list_elem_of_In. by eapply list_elem_of_lookup_2.
  - intros Hall e [i Hi]%list_elem_of_In%list_elem_of_lookup.
    apply negb_true_iff, (Hall (Z.of_nat i)).
    rewrite decide_True by lia. by rewrite Nat2Z.id.
Qed.

Lemma vacant_false m p : vacant m p = false ↔ nonempty m p.
Proof.
  split.
  - intros Hv. unfold vacant, nonempty, peek in *.
    destruct (m !! p) as [t|]; [|done].
    assert (∃ e, e ∈ t ∧ pte_valid e = true) as (e & [i Hi]%list_elem_of_lookup & He).
    { clear -Hv. induction t as [|x t IH]; [done|]. simpl in Hv.
      destruct (pte_valid x) eqn:Hx.
      - exists x. split; [by left|done].
      - destruct (IH Hv) as (e & ? & ?). exists e. split; [by right|done]. }
    exists (Z.of_nat i), e. rewrite decide_True by lia. by rewrite Nat2Z.id.
  - intros (i & e & He & Hv). destruct (vacant m p) eqn:Hvac; [|done].
    rewrite vacant_true in Hvac. rewrite (Hvac i e He) in Hv. done.
Qed.

Lemma scan_table_drop s p t n :
  heap s !! p = Some t → length t = Z.to_nat ENTRIES_PER_TABLE →
  (n ≤ length t)%nat →
  scan_table p n s =
    Some (forallb (λ e, negb (pte_valid e)) (drop (length t - n) t), s).
Proof.
  intros Hp Hlen. induction n as [|n IH]; intros Hn.
  - simpl. rewrite drop_ge by lia. done.
  - cbn [scan_table].
    destruct (lookup_lt_is_Some_2 t (length t - S n)) as [e He]; [lia|].
    assert (peek (heap s) p (ENTRIES_PER_TABLE - Z.of_nat (S n)) = Some e) as Hpeek.
    { unfold peek. rewrite Hp, decide_True by lia.
      replace (Z.to_nat (ENTRIES_PER_TABLE - Z.of_nat (S n)))
        with (length t - S n)%nat by lia. done. }
    rewrite (bind_run _ _ s e s (load_run _ _ _ _ Hpeek)).
    rewrite (drop_S t e (length t - S n) He). simpl.
    destruct (pte_valid e); [done|]. simpl.
    replace (S (length t - S n)) with (length t - n)%nat by lia.
    apply IH. lia.
Qed.

Lemma scan_table_spec s p :
  wf s → live (heap s) p →
  scan_table p (Z.to_nat ENTRIES_PER_TABLE) s = Some (vacant (heap s) p, s).
Proof.
  intros Hwf [t Hp].
  pose proof (wf_length s p t Hwf Hp) as Hlen.
  rewrite (scan_table_drop s p t _ Hp Hlen) by lia.
  unfold vacant. rewrite Hp, <- Hlen, Nat.sub_diag. done.
Qed.

(** One round of the downward loop. *)
Lemma deallocate_walk_step va tables indices level cur s e :
  (level < length indices)%nat →
  peek (heap s) cur (extract_level_index va level) = Some e →
  deallocate_walk va tables indices (S level) cur s =
    if pte_valid e
    then deallocate_walk va (<[level := cur]> tables)
           (<[level := extract_level_index va level]> indices) level
           (if decide (0 < level)%nat then ENTRY_TO_PHYS_ADDR e else cur) s
    else Some (0, s).
Proof.
  intros Hlen He. cbn [deallocate_walk].
  rewrite list_lookup_total_insert_eq by done.
  rewrite (bind_run _ _ s e s (load_run _ _ _ _ He)).
  destruct (pte_valid e); simpl; [|done]. by case_decide.
Qed.

Lemma deallocate_walk_stalls va s level cur tables indices :
  (level < length indices)%nat →
  stalls (heap s) va level cur = true →
  deallocate_walk va tables indices (S level) cur s = Some (0, s).
Proof.
  revert cur tables indices.
  induction level as [|below IH]; intros cur tables indices Hlen; simpl stalls;
    destruct (peek (heap s) cur _) as [e|] eqn:He; try done;
    rewrite (deallocate_walk_step _ _ _ _ _ _ e Hlen He);
    destruct (pte_valid e) eqn:Hv; try done.
  intros Hst. rewrite decide_True by lia. apply IH; [|done].
  rewrite length_insert. lia.
Qed.

Lemma wf_stalls_iff s va level cur :
  wf s → live (heap s) cur →
  (walk (heap s) va level cur = None ↔ stalls (heap s) va level cur = true).
Proof.
  intros Hwf. revert cur. induction level as [|below IH]; intros cur Hcur; simpl.
  - destruct (proj2 (wf_size s Hwf cur _ Hcur) (extract_level_index_range va 0))
      as [e He]. rewrite He. by destruct (pte_valid e).
  - destruct (proj2 (wf_size s Hwf cur _ Hcur)
                (extract_level_index_range va (S below))) as [e He].
    rewrite He. destruct (pte_valid e) eqn:Hv; [|done].
    apply IH. by destruct (wf_target s cur _ e Hwf He Hv) as (_ & ? & _).
Qed.

(** One round of the upward loop. *)
Lemma cleanup_step tables indices fuel s :
  wf s → live (heap s) (tables !!! (LEVELS - S fuel - 1)%nat) →
  cleanup tables indices (S fuel) s =
    if vacant (heap s) (tables !!! (LEVELS - S fuel - 1)%nat)
    then (do ' free (tables !!! (LEVELS - S fuel - 1)%nat);
          do ' store (tables !!! (LEVELS - S fuel)%nat)
                 (indices !!! (LEVELS - S fuel)%nat) 0;
          cleanup tables indices fuel) s
    else Some (tt, s).
Proof.
  intros Hwf Hlive. cbn [cleanup].
  rewrite (bind_run _ _ s _ s (scan_table_spec s _ Hwf Hlive)).
  by destruct (vacant _ _).
Qed.

Lemma lookup_leaf_path s va e0 :
  lookup_leaf s va = Some e0 ↔ ∃ e2 e1, mapped_path s va e2 e1 e0.
Proof.
  unfold lookup_leaf, mapped_path. change (LEVELS - 1)%nat with 2%nat.
  cbn [walk]. split.
  - destruct (Z.eqb_spec (ptbr s) 0); [done|].
    destruct (peek (heap s) (ptbr s) _) as [e2|] eqn:P2; [|done].
    destruct (pte_valid e2) eqn:H2; [|done].
    destruct (peek (heap s) (ENTRY_TO_PHYS_ADDR e2) _) as [e1|] eqn:P1; [|done].
    destruct (pte_valid e1) eqn:H1; [|done].
    destruct (peek (heap s) (ENTRY_TO_PHYS_ADDR e1) _) as [e|] eqn:P0; [|done].
    destruct (pte_valid e) eqn:H0; [|done].
    intros [= ->]. by exists e2, e1.
  - intros (e2 & e1 & Hr & -> & -> & -> & -> & -> & ->).
    by destruct (Z.eqb_spec (ptbr s) 0).
Qed.

Section Reclaim.
Variables (s : machine) (va e2 e1 e0 : Z).
Hypothesis Hwf : wf s.
Hypothesis Hpath : mapped_path s va e2 e1 e0.

Local Abbreviation i2 := (extract_level_index va 2).
Local Abbreviation i1 := (extract_level_index va 1).
Local Abbreviation i0 := (extract_level_index va 0).
Local Abbreviation t2 := (ptbr s).
Local Abbreviation t1 := (ENTRY_TO_PHYS_ADDR e2).
Local Abbreviation t0 := (ENTRY_TO_PHYS_ADDR e1).
Local Abbreviation m0 := (poke (heap s) t0 i0 0).
Local Abbreviation m1 := (poke (delete t0 m0) t1 i1 0).
Local Abbreviation m2 := (poke (delete t1 m1) t2 i2 0).

Lemma path_distinct : t1 ≠ t2 ∧ t0 ≠ t2 ∧ t0 ≠ t1 ∧ live (heap s) t1 ∧ live (heap s) t0.
Proof.
  destruct Hpath as (Hr & H2 & Hv2 & H1 & Hv1 & H0 & Hv0).
  destruct (wf_target s _ _ _ Hwf H2 Hv2) as (_ & ? & _ & ? & _).
  destruct (wf_target s _ _ _ Hwf H1 Hv1) as (_ & ? & _ & ? & ?).
  done.
Qed.

Lemma peek_m0 q j :
  peek m0 q j = if decide (q = t0 ∧ j = i0) then Some 0 else peek (heap s) q j.
Proof.
  destruct Hpath as (Hr & H2 & Hv2 & H1 & Hv1 & H0 & Hv0).
  apply peek_poke. by eexists.
Qed.

Lemma peek_m1 q j :
  peek m1 q j =
    if decide (q = t1 ∧ j = i1) then Some 0
    else if decide (q = t0) then None else peek (heap s) q j.
Proof.
  destruct Hpath as (Hr & H2 & Hv2 & H1 & Hv1 & H0 & Hv0).
  destruct path_distinct as (? & ? & ? & ? & ?).
  rewrite peek_poke.
  - case_decide; [done|]. rewrite peek_delete. case_decide; [done|].
    rewrite peek_m0. rewrite decide_False; naive_solver.
  - rewrite peek_delete, decide_False, peek_m0, decide_False by naive_solver.
    by eexists.
Qed.

Lemma peek_m2 q j :
  peek m2 q j =
    if decide (q = t2 ∧ j = i2) then Some 0
    else if decide (q = t1 ∨ q = t0) then None else peek (heap s) q j.
Proof.
  destruct Hpath as (Hr & H2 & Hv2 & H1 & Hv1 & H0 & Hv0).
  destruct path_distinct as (? & ? & ? & ? & ?).
  rewrite peek_poke.
  - case_decide; [done|]. rewrite peek_delete. case_decide.
    + rewrite decide_True; [done|by left].
    + rewrite peek_m1. rewrite decide_False by naive_solver.
      repeat case_decide; naive_solver.
  - rewrite peek_delete, decide_False, peek_m1 by naive_solver.
    rewrite !decide_False by naive_solver. by eexists.
Qed.

Lemma live_m0 q : live m0 q ↔ live (heap s) q.
Proof. apply live_poke. Qed.

Lemma live_m1 q : live m1 q ↔ q ≠ t0 ∧ live (heap s) q.
Proof. by rewrite live_poke, live_delete, live_poke. Qed.

Lemma live_m2 q : live m2 q ↔ q ≠ t1 ∧ q ≠ t0 ∧ live (heap s) q.
Proof. by rewrite live_poke, live_delete, live_m1. Qed.

Lemma wf_m0 : wf (Machine t2 m0 (pending s)).
Proof.
  destruct Hpath as (Hr & H2 & Hv2 & H1 & Hv1 & H0 & Hv0).
  apply wf_clear; [done|by eexists].
Qed.

Lemma wf_m1 : wf (Machine t2 m1 (pending s)).
Proof.
  destruct Hpath as (Hr & H2 & Hv2 & H1 & Hv1 & H0 & Hv0).
  destruct path_distinct as (? & ? & ? & ? & ?).
  apply (wf_unlink (Machine t2 m0 (pending s)) t1 i1 e1 wf_m0); [|done].
  simpl. rewrite peek_m0, decide_False by naive_solver. done.
Qed.

Lemma wf_m2 : wf (Machine t2 m2 (pending s)).
Proof.
  destruct Hpath as (Hr & H2 & Hv2 & H1 & Hv1 & H0 & Hv0).
  destruct path_distinct as (? & ? & ? & ? & ?).
  apply (wf_unlink (Machine t2 m1 (pending s)) t2 i2 e2 wf_m1); [|done].
  simpl. rewrite peek_m1, !decide_False by naive_solver. done.
Qed.

Lemma reclaimed_cases :
  let m' := reclaimed (heap s) t2 i2 t1 i1 t0 i0 in
  (vacant m0 t0 = false ∧ m' = m0) ∨
  (vacant m0 t0 = true ∧ vacant m1 t1 = false ∧ m' = m1) ∨
  (vacant m0 t0 = true ∧ vacant m1 t1 = true ∧ m' = m2).
Proof.
  unfold reclaimed.
  destruct (vacant m0 t0); [|by left].
  destruct (vacant m1 t1); right; [by right|by left].
Qed.

Lemma wf_reclaimed :
  wf (Machine t2 (reclaimed (heap s) t2 i2 t1 i1 t0 i0) (pending s)).
Proof.
  destruct reclaimed_cases as [(_ & ->)|[(_ & _ & ->)|(_ & _ & ->)]];
    [apply wf_m0|apply wf_m1|apply wf_m2].
Qed.

Lemma cleanup_reclaims :
  cleanup [t0; t1; t2] [i0; i1; i2] (LEVELS - 1) (Machine t2 m0 (pending s)) =
    Some (tt, Machine t2 (reclaimed (heap s) t2 i2 t1 i1 t0 i0) (pending s)).
Proof.
  destruct Hpath as (Hr & H2 & Hv2 & H1 & Hv1 & H0 & Hv0).
  destruct path_distinct as (? & ? & ? & Hl1 & Hl0).
  change (LEVELS - 1)%nat with 2%nat.
  rewrite (cleanup_step _ _ 1 _ wf_m0) by (by apply live_m0).
  change ([t0; t1; t2] !!! (LEVELS - 2 - 1)%nat) with t0.
  change ([t0; t1; t2] !!! (LEVELS - 2)%nat) with t1.
  change ([i0; i1; i2] !!! (LEVELS - 2)%nat) with i1.
  unfold reclaimed. cbn [heap].
  destruct (vacant m0 t0); [|done].
  erewrite bind_run; last first.
  { apply free_run. cbn [heap]. by apply live_m0. }
  cbn [ptbr heap pending].
  erewrite bind_run; last first.
  { apply store_run. cbn [heap].
    rewrite peek_delete, decide_False, peek_m0, decide_False by naive_solver.
    by eexists. }
  cbn [ptbr heap pending].
  rewrite (cleanup_step _ _ 0 _ wf_m1) by (apply live_m1; done).
  change ([t0; t1; t2] !!! (LEVELS - 1 - 1)%nat) with t1.
  change ([t0; t1; t2] !!! (LEVELS - 1)%nat) with t2.
  change ([i0; i1; i2] !!! (LEVELS - 1)%nat) with i2.
  cbn [heap].
  destruct (vacant m1 t1); [|done].
  erewrite bind_run; last first.
  { apply free_run. cbn [heap]. apply live_m1. naive_solver. }
  cbn [ptbr heap pending].
  erewrite bind_run; last first.
  { apply store_run. cbn [heap].
    rewrite peek_delete, decide_False, peek_m1, !decide_False by naive_solver.
    by eexists. }
  done.
Qed.

Lemma page_deallocate_mapped :
  page_deallocate va s =
    Some (1, Machine t2 (reclaimed (heap s) t2 i2 t1 i1 t0 i0) (pending s)).
Proof.
  destruct Hpath as (Hr & H2 & Hv2 & H1 & Hv1 & H0 & Hv0).
  unfold page_deallocate. rewrite (bind_run _ _ s t2 s eq_refl).
  destruct (Z.eqb_spec t2 0); [done|].
  change LEVELS with 3%nat.
  rewrite (deallocate_walk_step _ _ _ _ _ _ e2) by (done || (simpl; lia)).
  rewrite Hv2, decide_True by lia.
  rewrite (deallocate_walk_step _ _ _ _ _ _ e1) by (done || (simpl; lia)).
  rewrite Hv1, decide_True by lia.
  rewrite (deallocate_walk_step _ _ _ _ _ _ e0) by (done || (simpl; lia)).
  rewrite Hv0, decide_False by lia.
  cbn [deallocate_walk].
  match goal with
  | |- context [cleanup ?tbl ?idx _] =>
      change tbl with [t0; t1; t2]; change idx with [i0; i1; i2]
  end.
  change ([t0; t1; t2] !!! 0%nat) with t0.
  change ([i0; i1; i2] !!! 0%nat) with i0.
  erewrite bind_run; last first.
  { apply store_run. by eexists. }
  rewrite (bind_run _ _ _ _ _ cleanup_reclaims). done.
Qed.
Local Abbreviation m' := (reclaimed (heap s) t2 i2 t1 i1 t0 i0).

Local Ltac by_cases :=
  destruct Hpath as (Hr & H2 & Hv2 & H1 & Hv1 & H0 & Hv0);
  destruct path_distinct as (Hd12 & Hd02 & Hd01 & Hl1 & Hl0);
  destruct reclaimed_cases
    as [(Hvac0 & ->)|[(Hvac0 & Hvac1 & ->)|(Hvac0 & Hvac1 & ->)]].

(** Only blocks of [s] are live, the root among them. *)
Lemma live_reclaimed q : live m' q → live (heap s) q.
Proof.
  by_cases.
  - by rewrite live_m0.
  - rewrite live_m1. naive_solver.
  - rewrite live_m2. naive_solver.
Qed.

Lemma live_reclaimed_root : live m' t2.
Proof.
  destruct (wf_root s Hwf) as [Hnull|Hroot];
    [by destruct Hpath as (Hr & _)|].
  by_cases.
  - by rewrite live_m0.
  - rewrite live_m1. naive_solver.
  - rewrite live_m2. naive_solver.
Qed.

(** A block that is gone is one of the two tables under the root. *)
Lemma dead_reclaimed q :
  live (heap s) q → ¬ live m' q → q = t0 ∨ q = t1.
Proof.
  intros Hq. by_cases.
  - rewrite live_m0. naive_solver.
  - rewrite live_m1. destruct (decide (q = t0)); naive_solver.
  - rewrite live_m2.
    destruct (decide (q = t0)), (decide (q = t1)); naive_solver.
Qed.

(** Entries are cleared, never written otherwise. *)
Lemma peek_reclaimed q j x :
  peek m' q j = Some x → x ≠ 0 → peek (heap s) q j = Some x.
Proof.
  by_cases.
  - rewrite peek_m0. case_decide; naive_solver.
  - rewrite peek_m1. repeat case_decide; naive_solver.
  - rewrite peek_m2. repeat case_decide; naive_solver.
Qed.

(** The address is no longer mapped. *)
Lemma lookup_leaf_reclaimed :
  lookup_leaf (Machine t2 m' (pending s)) va = None.
Proof.
  unfold lookup_leaf. cbn [ptbr heap]. change (LEVELS - 1)%nat with 2%nat.
  cbn [walk]. by_cases; destruct (t2 =? 0); try done.
  - rewrite peek_m0, decide_False, H2 by naive_solver. cbv beta iota.
    rewrite Hv2, peek_m0, decide_False, H1 by naive_solver. cbv beta iota.
    rewrite Hv1, peek_m0, decide_True by done. done.
  - rewrite peek_m1, !decide_False, H2 by naive_solver. cbv beta iota.
    rewrite Hv2, peek_m1, decide_True by done. done.
  - by rewrite peek_m2, decide_True.
Qed.

(** A table other than the root that had a valid entry and is still
    live has one still. *)
Lemma nonempty_reclaimed c :
  c ≠ t2 → nonempty (heap s) c → live m' c → nonempty m' c.
Proof.
  intros Hc (j & x & Hx & Hvx). by_cases.
  - intros _. destruct (decide (c = t0)) as [->|Hc0]; [by apply vacant_false|].
    exists j, x. rewrite peek_m0.
    rewrite decide_False by naive_solver. done.
  - rewrite live_m1. intros [Hc0 _].
    destruct (decide (c = t1)) as [->|Hc1]; [by apply vacant_false|].
    exists j, x. rewrite peek_m1.
    rewrite !decide_False by naive_solver. done.
  - rewrite live_m2. intros (Hc1 & Hc0 & _).
    exists j, x. rewrite peek_m2.
    rewrite !decide_False by naive_solver. done.
Qed.
Lemma vacant_m0 : vacant m0 t0 = true ↔ bare (heap s) t0 i0.
Proof.
  rewrite vacant_true. unfold bare. split.
  - intros Hall j x Hx Hj. apply (Hall j). rewrite peek_m0.
    rewrite decide_False by naive_solver. done.
  - intros Hbare j x. rewrite peek_m0. case_decide as Hj.
    + by intros [= <-].
    + intros Hx. apply (Hbare j x Hx). naive_solver.
Qed.

Lemma vacant_m1 : vacant m1 t1 = true ↔ bare (heap s) t1 i1.
Proof.
  destruct path_distinct as (Hd12 & Hd02 & Hd01 & Hl1 & Hl0).
  rewrite vacant_true. unfold bare. split.
  - intros Hall j x Hx Hj. apply (Hall j). rewrite peek_m1.
    rewrite !decide_False by naive_solver. done.
  - intros Hbare j x. rewrite peek_m1. case_decide as Hj.
    + by intros [= <-].
    + rewrite decide_False by naive_solver.
      intros Hx. apply (Hbare j x Hx). naive_solver.
Qed.

(** The outcome of the upward loop, table by table. *)
Lemma walk_up_outcome :
  (¬ live m' t0 ↔ bare (heap s) t0 i0) ∧
  (¬ live m' t1 ↔ bare (heap s) t0 i0 ∧ bare (heap s) t1 i1) ∧
  (live m' t0 →
     peek m' t0 i0 = Some 0 ∧
     (∀ j, peek m' t1 j = peek (heap s) t1 j) ∧
     (∀ j, peek m' t2 j = peek (heap s) t2 j)) ∧
  (¬ live m' t0 → live m' t1 →
     peek m' t1 i1 = Some 0 ∧ (∀ j, peek m' t2 j = peek (heap s) t2 j)) ∧
  (¬ live m' t1 → live m' t2 ∧ peek m' t2 i2 = Some 0) ∧
  (∀ q j, q ≠ t0 → q ≠ t1 → q ≠ t2 → peek m' q j = peek (heap s) q j).
Proof.
  pose proof vacant_m0 as Hb0. pose proof vacant_m1 as Hb1.
  by_cases.
  - assert (¬ bare (heap s) t0 i0) as Hn0 by (rewrite <- Hb0; congruence).
    assert (live m0 t0) as Hk0 by by apply live_m0.
    assert (live m0 t1) as Hk1 by by apply live_m0.
    clear Hb0 Hb1. split_and!.
    + tauto.
    + tauto.
    + intros _. split_and!.
      * by rewrite peek_m0, decide_True.
      * intros j. rewrite peek_m0, decide_False; [done|]. by intros [? _].
      * intros j. rewrite peek_m0, decide_False; [done|].
        intros [? _]. congruence.
    + tauto.
    + tauto.
    + intros q j ? ? ?. rewrite peek_m0, decide_False; [done|]. by intros [? _].
  - assert (bare (heap s) t0 i0) as Hy0 by by apply Hb0.
    assert (¬ bare (heap s) t1 i1) as Hn1 by (rewrite <- Hb1; congruence).
    assert (¬ live m1 t0) as Hk0 by (rewrite live_m1; tauto).
    assert (live m1 t1) as Hk1 by (rewrite live_m1; split; [congruence|done]).
    clear Hb0 Hb1. split_and!.
    + tauto.
    + tauto.
    + tauto.
    + intros _ _. split.
      * by rewrite peek_m1, decide_True.
      * intros j. rewrite peek_m1, !decide_False; [done|congruence|].
        intros [? _]. congruence.
    + tauto.
    + intros q j ? ? ?. rewrite peek_m1, !decide_False; [done|done|].
      by intros [? _].
  - assert (bare (heap s) t0 i0) as Hy0 by by apply Hb0.
    assert (bare (heap s) t1 i1) as Hy1 by by apply Hb1.
    assert (¬ live m2 t0) as Hk0 by (rewrite live_m2; tauto).
    assert (¬ live m2 t1) as Hk1 by (rewrite live_m2; tauto).
    clear Hb0 Hb1. split_and!.
    + tauto.
    + tauto.
    + tauto.
    + tauto.
    + intros _. split; [|by rewrite peek_m2, decide_True].
      apply live_m2. split_and!; [congruence|congruence|].
      by destruct (wf_root s Hwf).
    + intros q j ? ? ?. rewrite peek_m2, !decide_False; [done|tauto|].
      by intros [? _].
Qed.
End Reclaim.

(** Without a root, or when the walk meets an invalid entry, nothing is
    touched. *)
Lemma page_deallocate_unmapped va s :
  ptbr s = 0 ∨ stalls (heap s) va (LEVELS - 1) (ptbr s) = true →
  page_deallocate va s = Some (0, s).
Proof.
  intros Hno. unfold page_deallocate. rewrite (bind_run _ _ s (ptbr s) s eq_refl).
  destruct (Z.eqb_spec (ptbr s) 0) as [|Hroot]; [done|].
  destruct Hno as [|Hst]; [done|].
  apply (deallocate_walk_stalls va s (LEVELS - 1)); [|done].
  rewrite length_replicate. unfold LEVELS. lia.
Qed.

(** [page_deallocate] in a well-formed state: it answers 1 exactly for a
    mapped address, and the state stays well-formed. *)
Lemma page_deallocate_spec va s :
  wf s → supply_ok s →
  ∃ r s', page_deallocate va s = Some (r, s') ∧ wf s' ∧ supply_ok s' ∧
    ptbr s' = ptbr s ∧ pending s' = pending s ∧
    (r = match lookup_leaf s va with Some _ => 1 | None => 0 end) ∧
    (lookup_leaf s va = None → s' = s).
Proof.
  intros Hwf Hsup. destruct (lookup_leaf s va) as [e0|] eqn:Hleaf.
  - apply lookup_leaf_path in Hleaf as (e2 & e1 & Hpath).
    eexists 1, _. split; [by apply (page_deallocate_mapped s va e2 e1 e0)|].
    split_and!; try done.
    + by eapply wf_reclaimed.
    + eapply (supply_ok_shrink s); [|done|done]. cbn [heap].
      intros a. by eapply live_reclaimed.
  - exists 0, s. split; [|done]. apply page_deallocate_unmapped.
    unfold lookup_leaf in Hleaf.
    destruct (Z.eqb_spec (ptbr s) 0) as [|Hroot]; [by left|right].
    destruct (wf_root s Hwf) as [|Hlive]; [done|].
    by apply wf_stalls_iff.
Qed.

(** ** Reachable states *)

Lemma supply_ok_boot : supply_ok boot.
Proof. split; simpl; [constructor|]. intros a Ha. by apply elem_of_nil in Ha. Qed.

Lemma reach_wf ok s : reach ok s → wf s ∧ supply_ok s.
Proof.
  induction 1 as [|s o _ [IHwf IHsup] Hok|s va r s' _ [IHwf IHsup] Hrun
                  |s va r s' _ [IHwf IHsup] Hrun _|s va r s' _ [IHwf IHsup] Hrun].
  - split; [apply wf_boot|apply supply_ok_boot].
  - split; [by apply (wf_same s)|done].
  - by apply translate_pure in Hrun as ->.
  - destruct (page_allocate_spec va s IHwf IHsup)
      as (r0 & s0 & Hrun0 & _ & ? & ? & _).
    rewrite Hrun in Hrun0. by injection Hrun0 as <- <-.
  - destruct (page_deallocate_spec va s IHwf IHsup)
      as (r0 & s0 & Hrun0 & ? & ? & _).
    rewrite Hrun in Hrun0. by injection Hrun0 as <- <-.
Qed.

Lemma reach_weaken (ok ok' : alloc_exit → Prop) s :
  (∀ r, ok r → ok' r) → reach ok s → reach ok' s.
Proof.
  intros Himp. induction 1; [constructor|by constructor|..].
  - by eapply reach_translate.
  - eapply reach_allocate; eauto.
  - by eapply reach_deallocate.
Qed.

(** The states reached without running out of memory are among the
    reachable ones. *)
Lemma reachable_unstarved_reachable s : reachable_unstarved s → reachable s.
Proof. by apply reach_weaken. Qed.

(** ** Sample runs *)

Lemma page_addr_sample a :
  (a mod 1024 =? 0) && (0 <? a) && (a + 1024 <? 2 ^ 64) = true → page_addr a.
Proof.
  unfold page_addr. change PAGE_SIZE with 1024. change WORD_BITS with 64. lia.
Qed.

Lemma demo_start_ok : supply_ok demo_start.
Proof.
  split; simpl.
  - repeat (apply NoDup_cons; split; [set_solver|]). constructor.
  - intros a Ha. split.
    + apply page_addr_sample. set_unfold. by destruct_or!; simplify_eq.
    + intros [t Ht]. by rewrite lookup_empty in Ht.
Qed.

Lemma demo_start_reachable : reachable demo_start.
Proof. apply reach_supply; [constructor|apply demo_start_ok]. Qed.

Lemma demo_mapped_run : page_allocate 0 demo_start = Some (ExitDone, demo_mapped).
Proof. vm_compute. reflexivity. Qed.

Lemma demo_mapped_reachable : reachable demo_mapped.
Proof.
  eapply reach_allocate; [apply demo_start_reachable|apply demo_mapped_run|done].
Qed.

Lemma demo_unmapped_run : page_deallocate 0 demo_mapped = Some (1, demo_unmapped).
Proof. vm_compute. reflexivity. Qed.

Example demo_translate : translate 1027 demo_mapped = Some (NOT_MAPPED, demo_mapped).
Proof. vm_compute. reflexivity. Qed.

Example demo_translate_3 : translate 3 demo_mapped = Some (16387, demo_mapped).
Proof. vm_compute. reflexivity. Qed.

Example demo_unmapped_heap :
  ptbr demo_unmapped = 4096 ∧
  dom (heap demo_unmapped) = {[4096; 16384]} ∧
  vacant (heap demo_unmapped) 4096 = true.
Proof. vm_compute. done. Qed.

(** ** The address codec and the bounds check *)

Lemma is_address_valid_loop_false entries va level n :
  (level < n)%nat → entries ≤ extract_level_index va level →
  is_address_valid_loop entries va n = false.
Proof.
  intros Hlt Hle. induction n as [|m IH]; [lia|]. simpl.
  destruct (Z.leb_spec entries (extract_level_index va m)) as [|Hm]; [done|].
  apply IH. destruct (decide (level = m)) as [->|]; lia.
Qed.

Lemma allocate_walk_exit va level cur s r s' :
  allocate_walk va level cur s = Some (r, s') → r ≠ ExitInvalid.
Proof.
  revert cur s. induction level as [|below IH]; intros cur s; cbn [allocate_walk].
  - intros (e & s1 & _ & Hk)%bind_Some. destruct (pte_valid e); simpl in Hk.
    + by injection Hk as <- _.
    + apply bind_Some in Hk as (a & s2 & _ & Hk).
      destruct (a =? 0); [by injection Hk as <- _|].
      apply bind_Some in Hk as (u & s3 & _ & Hk). by injection Hk as <- _.
  - intros (e & s1 & _ & Hk)%bind_Some. destruct (pte_valid e); simpl in Hk.
    + apply bind_Some in Hk as (e' & s2 & _ & Hk). by eapply IH.
    + apply bind_Some in Hk as (a & s2 & _ & Hk).
      destruct (a =? 0); [by injection Hk as <- _|].
      apply bind_Some in Hk as (u & s3 & _ & Hk).
      apply bind_Some in Hk as (e' & s4 & _ & Hk). by eapply IH.
Qed.

(** C10: for every virtual address and every level the extracted index is
    below [ENTRIES_PER_TABLE], which is [2 ^ (POBITS - 3)]; so
    [is_address_valid] answers 1 on every input and [page_allocate] never
    leaves by its bounds check. *)
Theorem index_always_in_bounds (va : Z) (level : nat) (s : machine) :
  0 ≤ extract_level_index va level < ENTRIES_PER_TABLE ∧
  ENTRIES_PER_TABLE = 2 ^ (POBITS - 3) ∧
  LEVEL_INDEX_MASK = 2 ^ BITS_PER_LEVEL - 1 ∧
  is_address_valid va = true ∧
  (∀ r s', page_allocate va s = Some (r, s') → r ≠ ExitInvalid).
Proof.
  split; [apply extract_level_index_range|].
  split; [done|]. split; [done|].
  split; [apply is_address_valid_true|].
  intros r s'. unfold page_allocate, page_allocate_within.
  fold (is_address_valid va). rewrite is_address_valid_true. simpl.
  intros (root & s1 & _ & Hk)%bind_Some.
  destruct (root =? 0).
  - apply bind_Some in Hk as (a & s2 & _ & Hk).
    destruct (a =? 0); [by injection Hk as <- _|].
    apply bind_Some in Hk as (u & s3 & _ & Hk).
    apply bind_Some in Hk as (root' & s4 & _ & Hk).
    by eapply allocate_walk_exit.
  - apply bind_Some in Hk as (root' & s4 & _ & Hk).
    by eapply allocate_walk_exit.
Qed.

(** C9: an address with an index at some level that is not below the table
    capacity is refused by [page_allocate] before anything is read or
    written: the call returns at the bounds check and the machine, [ptbr]
    and every table, is as before.  The capacity is a parameter here; at
    [ENTRIES_PER_TABLE] no address has such an index. *)
Theorem out_of_bounds_rejected (entries va : Z) (level : nat) (s : machine) :
  (level < LEVELS)%nat →
  entries ≤ extract_level_index va level →
  page_allocate_within entries va s = Some (ExitInvalid, s).
Proof.
  intros Hlevel Hidx. unfold page_allocate_within, is_address_valid_within.
  by rewrite (is_address_valid_loop_false entries va level LEVELS Hlevel Hidx).
Qed.

Lemma out_of_bounds_rejected_witness :
  (2 < LEVELS)%nat ∧ 64 ≤ extract_level_index (2 ^ 30) 2 ∧
  page_allocate_within 64 (2 ^ 30) demo_mapped = Some (ExitInvalid, demo_mapped).
Proof.
  split; [unfold LEVELS; lia|]. split; [by vm_compute|].
  apply (out_of_bounds_rejected 64 (2 ^ 30) 2 demo_mapped);
    [unfold LEVELS; lia|by vm_compute].
Defined.

(** ** translate *)

(** C8: [translate] is read-only: whenever it returns, the machine, [ptbr],
    every table entry and the pending requests for memory, is exactly as it
    was; without a root it returns the all-ones [NOT_MAPPED]; and in every
    reachable state it does return. *)
Theorem translate_read_only (va : Z) (s : machine) :
  (∀ pa s', translate va s = Some (pa, s') → s' = s) ∧
  (ptbr s = 0 → translate va s = Some (NOT_MAPPED, s)) ∧
  (reachable s → ∃ pa, translate va s = Some (pa, s)).
Proof.
  split_and!.
  - intros pa s'. apply translate_pure.
  - intros Hroot. unfold translate.
    rewrite (bind_run _ _ s (ptbr s) s eq_refl). by rewrite Hroot.
  - intros [Hwf _]%reach_wf. exists (translation s va). by apply translate_spec.
Qed.

Lemma translate_read_only_witness :
  (∀ pa s', translate 4660 demo_mapped = Some (pa, s') → s' = demo_mapped) ∧
  (ptbr boot = 0 → translate 4660 boot = Some (NOT_MAPPED, boot)) ∧
  (reachable demo_mapped → ∃ pa, translate 4660 demo_mapped = Some (pa, demo_mapped)).
Proof.
  split_and!.
  - apply (translate_read_only 4660 demo_mapped).
  - apply (translate_read_only 4660 boot).
  - apply (translate_read_only 4660 demo_mapped).
Defined.

(** C1: once [page_allocate] of an address has gone through, [translate] of
    that address is not [NOT_MAPPED], and the low [POBITS] bits of the
    physical address are the low [POBITS] bits of the virtual address. *)
Theorem translate_after_allocate (va : Z) (s s' : machine) :
  reachable s →
  page_allocate va s = Some (ExitDone, s') →
  ∃ pa, translate va s' = Some (pa, s') ∧ pa ≠ NOT_MAPPED ∧
    Z.land pa (PAGE_SIZE - 1) = Z.land va (PAGE_SIZE - 1).
Proof.
  intros [Hwf Hsup]%reach_wf Hrun.
  destruct (page_allocate_spec va s Hwf Hsup)
    as (r0 & s0 & Hrun0 & _ & Hwf' & _ & _ & _ & _ & Hdone & _).
  rewrite Hrun in Hrun0. injection Hrun0 as <- <-.
  destruct (Hdone eq_refl) as [e0 Hleaf].
  exists (translation s' va). split; [by apply translate_spec|].
  unfold translation. rewrite Hleaf.
  apply lookup_leaf_path in Hleaf as (e2 & e1 & _ & _ & _ & _ & _ & H0 & Hv0).
  destruct (wf_target s' _ _ e0 Hwf' H0 Hv0) as (_ & _ & Ha & _).
  pose proof (page_offset_range va) as Hoff.
  rewrite (lor_page_offset _ _ Ha Hoff).
  destruct Ha as (Hal & Hpos & Hhi). split.
  - change NOT_MAPPED with (2 ^ 64 - 1). change WORD_BITS with 64 in Hhi. lia.
  - set (a := ENTRY_TO_PHYS_ADDR e0) in *.
    change (PAGE_SIZE - 1) with (Z.ones 10) in *.
    change PAGE_SIZE with (2 ^ 10) in *.
    rewrite !Z.land_ones by lia.
    rewrite (Z_div_exact_full_2 a (2 ^ 10)) by (done || lia).
    rewrite Z.add_comm, Z.mul_comm, Z_mod_plus_full. apply Z.mod_mod. lia.
Qed.

Lemma translate_after_allocate_witness :
  ∃ pa, translate 4660 (after (page_allocate 4660) demo_start)
          = Some (pa, after (page_allocate 4660) demo_start) ∧
    pa ≠ NOT_MAPPED ∧ Z.land pa (PAGE_SIZE - 1) = Z.land 4660 (PAGE_SIZE - 1).
Proof.
  apply (translate_after_allocate 4660 demo_start);
    [apply demo_start_reachable|by vm_compute].
Defined.

Example translate_after_allocate_value :
  translate 4660 (after (page_allocate 4660) demo_start)
    = Some (16384 + 564, after (page_allocate 4660) demo_start).
Proof. vm_compute. reflexivity. Qed.

(** ** page_deallocate of an address that is not mapped *)

(** C7: without a root, or with an invalid entry at some level of the path
    of the address, [page_deallocate] returns 0 and the machine, [ptbr],
    every table and every entry, is exactly as before the call. *)
Theorem deallocate_unmapped_unchanged (va : Z) (s : machine) :
  ptbr s = 0 ∨ stalls (heap s) va (LEVELS - 1) (ptbr s) = true →
  page_deallocate va s = Some (0, s).
Proof. apply page_deallocate_unmapped. Qed.

Lemma deallocate_unmapped_unchanged_witness :
  page_deallocate 1024 demo_mapped = Some (0, demo_mapped) ∧
  page_deallocate 1024 boot = Some (0, boot).
Proof.
  split.
  - apply (deallocate_unmapped_unchanged 1024 demo_mapped). right. by vm_compute.
  - apply (deallocate_unmapped_unchanged 1024 boot). by left.
Defined.

(** ** A machine whose first request for memory fails *)

Lemma starved_start_reachable : reachable starved_start.
Proof.
  apply reach_supply; [constructor|]. split; simpl; [constructor|].
  intros a Ha. set_unfold. by destruct_or!.
Qed.

(** ** page_allocate twice *)

Lemma retry_start_reachable : reachable retry_start.
Proof.
  apply reach_supply; [constructor|]. destruct demo_start_ok as [Hnd Hok].
  split; [done|]. intros a Ha. apply Hok. simpl in *. set_unfold. naive_solver.
Qed.

(** C3, as stated, fails when the first call runs out of memory and the
    second does not: one call leaves the address unmapped, two map it. *)
Lemma allocate_twice_differs :
  reachable retry_start ∧
  page_allocate 0 retry_start = Some (ExitNoMem, demo_start) ∧
  page_allocate 0 demo_start = Some (ExitDone, demo_mapped) ∧
  translate 0 demo_start = Some (NOT_MAPPED, demo_start) ∧
  translate 0 demo_mapped = Some (16384, demo_mapped).
Proof.
  split; [apply retry_start_reachable|]. split_and!; by vm_compute.
Qed.

(** C3, amended: a call of [page_allocate] never changes an entry that is
    valid, and when the first call has gone through the second one leaves
    the whole machine as it is, so that [translate] answers the same. *)
Theorem allocate_twice (va : Z) (s s1 s2 : machine) (r1 r2 : alloc_exit) :
  reachable s →
  page_allocate va s = Some (r1, s1) →
  page_allocate va s1 = Some (r2, s2) →
  (∀ p i e, peek (heap s1) p i = Some e → pte_valid e = true →
            peek (heap s2) p i = Some e) ∧
  (r1 = ExitDone → r2 = ExitDone ∧ s2 = s1 ∧ translate va s2 = translate va s1).
Proof.
  intros [Hwf Hsup]%reach_wf Hrun1 Hrun2.
  destruct (page_allocate_spec va s Hwf Hsup)
    as (r0 & s0 & Hrun0 & _ & Hwf1 & Hsup1 & _ & _ & _ & Hdone & _).
  rewrite Hrun1 in Hrun0. injection Hrun0 as <- <-.
  destruct (page_allocate_spec va s1 Hwf1 Hsup1)
    as (r0 & s0 & Hrun0 & _ & _ & _ & _ & _ & [_ Hext] & _).
  rewrite Hrun2 in Hrun0. injection Hrun0 as <- <-.
  split.
  - intros p i e He Hv. apply Hext; [done|by apply pte_valid_nonzero].
  - intros Hok. rewrite (page_allocate_mapped va s1 (Hdone Hok)) in Hrun2.
    by injection Hrun2 as <- <-.
Qed.

Lemma allocate_twice_witness :
  (∀ p i e, peek (heap demo_mapped) p i = Some e → pte_valid e = true →
            peek (heap demo_mapped) p i = Some e) ∧
  (ExitDone = ExitDone →
   ExitDone = ExitDone ∧ demo_mapped = demo_mapped ∧
   translate 0 demo_mapped = translate 0 demo_mapped).
Proof.
  apply (allocate_twice 0 demo_start demo_mapped demo_mapped ExitDone ExitDone);
    [apply demo_start_reachable|apply demo_mapped_run|by vm_compute].
Defined.

(** ** The upward walk of page_deallocate *)

(** C5: after the leaf entry of a mapped address is cleared, a table below
    the root is freed exactly when the walk reaches it and all its entries
    are invalid, and then its entry in the parent is cleared; the walk stops
    at the first table that keeps a valid entry, and the tables above it
    are as they were. *)
Theorem upward_walk (va e2 e1 e0 r : Z) (s s' : machine) :
  reachable s →
  mapped_path s va e2 e1 e0 →
  page_deallocate va s = Some (r, s') →
  r = 1 ∧ walk_up_report s va e2 e1 s'.
Proof.
  intros [Hwf _]%reach_wf Hpath Hrun.
  rewrite (page_deallocate_mapped s va e2 e1 e0 Hwf Hpath) in Hrun.
  injection Hrun as <- <-. split; [done|].
  apply (walk_up_outcome s va e2 e1 e0 Hwf Hpath).
Qed.

Lemma demo_mapped_path : mapped_path demo_mapped 0 8193 12289 16385.
Proof. unfold mapped_path. split_and!; by vm_compute. Qed.

Lemma upward_walk_witness :
  1 = 1 ∧ walk_up_report demo_mapped 0 8193 12289 demo_unmapped.
Proof.
  apply (upward_walk 0 8193 12289 16385 1 demo_mapped demo_unmapped);
    [apply demo_mapped_reachable|apply demo_mapped_path|apply demo_unmapped_run].
Defined.

(** Two pages under one leaf table: unmapping one of them stops the walk
    at the leaf table, which stays with the other. *)
Example upward_walk_stops :
  let s := after (page_allocate 1024) (supply [Some 20480] demo_mapped) in
  let s' := after (page_deallocate 0) s in
  page_deallocate 0 s = Some (1, s') ∧
  dom (heap s') = dom (heap s) ∧
  peek (heap s') 12288 0 = Some 0 ∧
  peek (heap s') 12288 1 = Some 20481.
Proof. vm_compute. done. Qed.

(** ** The root *)

(** C6: [page_deallocate] never frees the root table, whatever is left in
    it: the blocks it frees are tables of the levels below the root's; and
    no operation changes [ptbr] once it is set, which a completed
    [page_allocate] ensures. *)
Theorem root_persists (va : Z) (s : machine) :
  reachable s →
  (∀ r s', page_deallocate va s = Some (r, s') →
     ptbr s' = ptbr s ∧
     (ptbr s ≠ 0 → live (heap s') (ptbr s)) ∧
     (∀ q, live (heap s) q → ¬ live (heap s') q →
        ∃ level, (level < LEVELS - 1)%nat ∧ table_at s level q)) ∧
  (∀ r s', page_allocate va s = Some (r, s') →
     (r = ExitDone → ptbr s' ≠ 0) ∧
     (ptbr s ≠ 0 → ptbr s' = ptbr s ∧ live (heap s') (ptbr s))) ∧
  (∀ r s', translate va s = Some (r, s') → ptbr s' = ptbr s ∧ heap s' = heap s).
Proof.
  intros [Hwf Hsup]%reach_wf. split_and!.
  - intros r s' Hrun. destruct (lookup_leaf s va) as [e0|] eqn:Hleaf.
    + apply lookup_leaf_path in Hleaf as (e2 & e1 & Hpath).
      rewrite (page_deallocate_mapped s va e2 e1 e0 Hwf Hpath) in Hrun.
      injection Hrun as <- <-. cbn [ptbr heap]. split_and!; [done| |].
      * intros _. by eapply live_reclaimed_root.
      * intros q Hq Hgone.
        destruct (dead_reclaimed s va e2 e1 e0 Hwf Hpath q Hq Hgone) as [->| ->];
          destruct Hpath as (Hr & H2 & Hv2 & H1 & Hv1 & _).
        -- exists 0%nat. split; [unfold LEVELS; lia|]. split; [done|].
           eapply sub_child; [|exact H1|done].
           eapply sub_child; [|exact H2|done]. constructor.
        -- exists 1%nat. split; [unfold LEVELS; lia|]. split; [done|].
           eapply sub_child; [|exact H2|done]. constructor.
    + destruct (page_deallocate_spec va s Hwf Hsup)
        as (r0 & s0 & Hrun0 & _ & _ & _ & _ & _ & Hsame).
      rewrite Hrun in Hrun0. injection Hrun0 as <- <-.
      rewrite (Hsame Hleaf). split_and!; [done| |done].
      intros Hroot. by destruct (wf_root s Hwf).
  - intros r s' Hrun.
    destruct (page_allocate_spec va s Hwf Hsup)
      as (r0 & s0 & Hrun0 & _ & _ & _ & Hroot & _ & [Hlive _] & Hdone & _).
    rewrite Hrun in Hrun0. injection Hrun0 as <- <-. split.
    + intros Hok Hnull. destruct (Hdone Hok) as [e He].
      unfold lookup_leaf in He. by rewrite Hnull in He.
    + intros Hset. split; [by apply Hroot|].
      apply Hlive. by destruct (wf_root s Hwf).
  - intros r s' Hrun. by apply translate_pure in Hrun as ->.
Qed.

Lemma root_persists_witness :
  (∀ r s', page_deallocate 0 demo_mapped = Some (r, s') →
     ptbr s' = ptbr demo_mapped ∧
     (ptbr demo_mapped ≠ 0 → live (heap s') (ptbr demo_mapped)) ∧
     (∀ q, live (heap demo_mapped) q → ¬ live (heap s') q →
        ∃ level, (level < LEVELS - 1)%nat ∧ table_at demo_mapped level q)) ∧
  (∀ r s', page_allocate 0 demo_mapped = Some (r, s') →
     (r = ExitDone → ptbr s' ≠ 0) ∧
     (ptbr demo_mapped ≠ 0 →
      ptbr s' = ptbr demo_mapped ∧ live (heap s') (ptbr demo_mapped))) ∧
  (∀ r s', translate 0 demo_mapped = Some (r, s') →
     ptbr s' = ptbr demo_mapped ∧ heap s' = heap demo_mapped).
Proof. apply (root_persists 0 demo_mapped). apply demo_mapped_reachable. Defined.

(** ** No empty table under a valid entry *)

(** A block is a table of one level only. *)
Lemma sub_at_unique s top k k' p :
  wf s →
  sub_at (heap s) top (ptbr s) k p → sub_at (heap s) top (ptbr s) k' p → k = k'.
Proof.
  intros Hwf H1. revert k'.
  induction H1 as [|level q i e Hq IH He Hv]; intros k' H2.
  - inversion H2 as [|level' q' i' e' Hq' He' Hv' Hk Hp]; [done|].
    destruct (wf_target s q' i' e' Hwf He' Hv') as (_ & _ & _ & Hne & _).
    congruence.
  - destruct (wf_target s q i e Hwf He Hv) as (Heq & _ & _ & Hne & _).
    inversion H2 as [Hk Hp|level' q' i' e' Hq' He' Hv' Hk Hp]; [congruence|].
    destruct (wf_target s q' i' e' Hwf He' Hv') as (Heq' & _).
    assert (e' = e) as -> by (rewrite Heq, Heq'; congruence).
    destruct (wf_inj s Hwf q i q' i' e He He' (pte_valid_nonzero e Hv)) as [-> _].
    specialize (IH _ Hq'). lia.
Qed.

Lemma allocate_keeps_tables va s r s' k p :
  page_allocate_post va s r s' →
  table_at s' k p → live (heap s) p → table_at s k p.
Proof.
  intros (_ & _ & _ & Hroot & Hnew & _ & _ & Hgrown) [Hnz Hsub].
  induction Hsub as [|level q i e Hq IH He Hv]; intros Hlive.
  - destruct (decide (ptbr s = 0)) as [Hnull|Hset].
    + destruct (Hnew Hnull); [done|tauto].
    + split; [done|]. rewrite (Hroot Hset). constructor.
  - destruct (Hgrown q i e He (pte_valid_nonzero e Hv)) as [Hold|[Hdead _]];
      [|tauto].
    destruct (IH (peek_live _ _ _ _ Hold)) as [Hset Hsub'].
    split; [done|]. by eapply sub_child.
Qed.

Lemma allocate_keeps_no_empty_child va s s' :
  no_empty_child s → page_allocate_post va s ExitDone s' → no_empty_child s'.
Proof.
  intros Hne Hpost level p i e Hat He Hv.
  pose proof Hpost as (_ & Hwf' & _ & _ & _ & [_ Hext] & _ & Hgrown).
  destruct (Hgrown p i e He (pte_valid_nonzero e Hv))
    as [Hold|(_ & k & Hk & _ & Hfull)].
  - assert (table_at s (S level) p) as Hat'
      by (eapply allocate_keeps_tables; eauto using peek_live).
    destruct (Hne level p i e Hat' Hold Hv) as (j & x & Hx & Hvx).
    exists j, x. split; [|done]. apply Hext; [done|by apply pte_valid_nonzero].
  - destruct Hat as [_ Hsub].
    pose proof (sub_at_unique s' _ _ _ p Hwf' Hsub Hk) as <-.
    apply Hfull; [done|lia].
Qed.

Lemma deallocate_keeps_no_empty_child va s r s' :
  wf s → supply_ok s → no_empty_child s →
  page_deallocate va s = Some (r, s') → no_empty_child s'.
Proof.
  intros Hwf Hsup Hne Hrun.
  destruct (lookup_leaf s va) as [e0|] eqn:Hleaf.
  - apply lookup_leaf_path in Hleaf as (e2 & e1 & Hpath).
    rewrite (page_deallocate_mapped s va e2 e1 e0 Hwf Hpath) in Hrun.
    injection Hrun as <- <-.
    pose proof (wf_reclaimed s va e2 e1 e0 Hwf Hpath) as Hwf'.
    intros level p i e [Hnz Hsub] He Hv. cbn [ptbr heap] in *.
    pose proof (pte_valid_nonzero e Hv) as Hnze.
    assert (∀ k q, sub_at (reclaimed (heap s) (ptbr s) (extract_level_index va 2)
                             (ENTRY_TO_PHYS_ADDR e2) (extract_level_index va 1)
                             (ENTRY_TO_PHYS_ADDR e1) (extract_level_index va 0))
                     (LEVELS - 1) (ptbr s) k q →
                   sub_at (heap s) (LEVELS - 1) (ptbr s) k q) as Hback.
    { intros k q. induction 1 as [|k q j x Hq IH Hx Hvx]; [constructor|].
      eapply sub_child; [done| |done].
      eapply (peek_reclaimed s va e2 e1 e0); eauto using pte_valid_nonzero. }
    pose proof (peek_reclaimed s va e2 e1 e0 Hwf Hpath p i e He Hnze) as Hold.
    destruct (wf_target s p i e Hwf Hold Hv) as (_ & _ & _ & Hnr & _).
    destruct (wf_target _ p i e Hwf' He Hv) as (_ & Hlive & _).
    apply (nonempty_reclaimed s va e2 e1 e0 Hwf Hpath); [done| |done].
    apply (Hne level p i e); [|done|done]. split; [done|by apply Hback].
  - destruct (page_deallocate_spec va s Hwf Hsup)
      as (r0 & s0 & Hrun0 & _ & _ & _ & _ & _ & Hsame).
    rewrite Hrun in Hrun0. injection Hrun0 as <- <-. by rewrite (Hsame Hleaf).
Qed.

Lemma half_built_reachable : reachable half_built.
Proof.
  eapply (reach_allocate _ (supply [Some 4096; Some 8192] boot) 0 ExitNoMem);
    [|by vm_compute|done].
  apply reach_supply; [constructor|]. split; simpl.
  - repeat (apply NoDup_cons; split; [set_solver|]). constructor.
  - intros a Ha. split.
    + apply page_addr_sample. set_unfold. by destruct_or!; simplify_eq.
    + intros [t Ht]. by rewrite lookup_empty in Ht.
Qed.

(** C4, as stated, fails: after an allocation that ran out of memory in
    mid-walk, a valid entry of the root names an empty table. *)
Lemma empty_table_left_behind :
  reachable half_built ∧
  peek (heap half_built) (ptbr half_built) 0 = Some 8193 ∧
  pte_valid 8193 = true ∧
  vacant (heap half_built) (ENTRY_TO_PHYS_ADDR 8193) = true ∧
  ¬ no_empty_child half_built.
Proof.
  split; [apply half_built_reachable|].
  split; [by vm_compute|]. split; [by vm_compute|]. split; [by vm_compute|].
  intros Hne.
  assert (vacant (heap half_built) (ENTRY_TO_PHYS_ADDR 8193) = false) as Hv;
    [|by vm_compute in Hv].
  assert (ptbr half_built = 4096) as Hroot by by vm_compute.
  apply vacant_false, (Hne 1%nat 4096 0 8193); [|by vm_compute..].
  split; [by rewrite Hroot|]. rewrite Hroot. constructor.
Qed.

(** C4, amended: in every state reached by calls of [page_deallocate] and by
    calls of [page_allocate] that did not run out of memory, every valid
    entry of a table above the leaf level names a table that holds a valid
    entry. *)
Theorem no_empty_table_unstarved (s : machine) :
  reachable_unstarved s → no_empty_child s.
Proof.
  induction 1 as [|s o Hs IH Hok|s va r s' Hs IH Hrun
                  |s va r s' Hs IH Hrun ->|s va r s' Hs IH Hrun].
  - by intros level p i e [Hnz _].
  - done.
  - by apply translate_pure in Hrun as ->.
  - destruct (reach_wf _ _ Hs) as [Hwf Hsup].
    destruct (page_allocate_spec va s Hwf Hsup) as (r0 & s0 & Hrun0 & Hpost).
    rewrite Hrun in Hrun0. injection Hrun0 as <- <-.
    by eapply allocate_keeps_no_empty_child.
  - destruct (reach_wf _ _ Hs) as [Hwf Hsup].
    by eapply deallocate_keeps_no_empty_child.
Qed.

Lemma demo_mapped_unstarved : reachable_unstarved demo_mapped.
Proof.
  eapply reach_allocate; [|apply demo_mapped_run|done].
  apply reach_supply; [constructor|apply demo_start_ok].
Qed.

Lemma no_empty_table_unstarved_witness :
  reachable_unstarved demo_mapped ∧ no_empty_child demo_mapped.
Proof.
  split; [apply demo_mapped_unstarved|].
  apply (no_empty_table_unstarved demo_mapped). apply demo_mapped_unstarved.
Defined.

(** * Further properties *)

(** ** The address codec *)

Lemma extract_level_index_div va level :
  extract_level_index va level =
    (va / 2 ^ (POBITS + Z.of_nat level * BITS_PER_LEVEL)) mod ENTRIES_PER_TABLE.
Proof.
  unfold extract_level_index.
  change LEVEL_INDEX_MASK with (Z.ones 7). change ENTRIES_PER_TABLE with (2 ^ 7).
  rewrite Z.land_ones by lia.
  rewrite Z.shiftr_div_pow2; [done|]. change BITS_PER_LEVEL with 7. unfold POBITS. lia.
Qed.

Lemma extract_level_index_low va level :
  (level < LEVELS)%nat →
  extract_level_index (va mod 2 ^ VA_BITS) level = extract_level_index va level.
Proof.
  intros Hlevel. rewrite !extract_level_index_div.
  change (2 ^ VA_BITS) with 2147483648. change ENTRIES_PER_TABLE with 128.
  unfold LEVELS in Hlevel.
  destruct level as [|[|[|?]]]; [| | |lia].
  - change (2 ^ _) with 1024. Z.div_mod_to_equations. lia.
  - change (2 ^ _) with 131072. Z.div_mod_to_equations. lia.
  - change (2 ^ _) with 16777216. Z.div_mod_to_equations. lia.
Qed.

Lemma page_offset_low va :
  Z.land (va mod 2 ^ VA_BITS) (PAGE_SIZE - 1) = Z.land va (PAGE_SIZE - 1).
Proof.
  change (PAGE_SIZE - 1) with (Z.ones 10). rewrite !Z.land_ones by lia.
  change (2 ^ VA_BITS) with 2147483648. change (2 ^ 10) with 1024.
  Z.div_mod_to_equations. lia.
Qed.

(** X1: the page offset and the three indices are the digits of the low
    [POBITS + LEVELS * BITS_PER_LEVEL] bits of the address: they put these
    bits together again, and nothing of the bits above. *)
Theorem address_decomposition (va : Z) :
  va mod 2 ^ VA_BITS =
    Z.land va (PAGE_SIZE - 1) +
    PAGE_SIZE * (extract_level_index va 0 +
      ENTRIES_PER_TABLE * (extract_level_index va 1 +
        ENTRIES_PER_TABLE * extract_level_index va 2)).
Proof.
  rewrite !extract_level_index_div.
  change (PAGE_SIZE - 1) with (Z.ones 10). rewrite Z.land_ones by lia.
  change (2 ^ VA_BITS) with 2147483648. change ENTRIES_PER_TABLE with 128.
  change PAGE_SIZE with 1024. change (2 ^ 10) with 1024.
  change (2 ^ (POBITS + Z.of_nat 0 * BITS_PER_LEVEL)) with 1024.
  change (2 ^ (POBITS + Z.of_nat 1 * BITS_PER_LEVEL)) with 131072.
  change (2 ^ (POBITS + Z.of_nat 2 * BITS_PER_LEVEL)) with 16777216.
  Z.div_mod_to_equations. lia.
Qed.

(** The walks look at the address through its indices only. *)
Lemma translate_walk_ext va vb off n cur s :
  (∀ level, (level < n)%nat →
     extract_level_index va level = extract_level_index vb level) →
  translate_walk va off n cur s = translate_walk vb off n cur s.
Proof.
  revert cur s. induction n as [|level IH]; intros cur s Hidx; [done|].
  cbn [translate_walk]. rewrite (Hidx level) by lia.
  destruct (ENTRIES_PER_TABLE <=? _); [done|].
  unfold bind. destruct (load cur _ s) as [[e s1]|]; [|done].
  destruct (pte_valid e); simpl; [|done].
  destruct (decide (level = 0%nat)); [done|].
  apply IH. intros l Hl. apply Hidx. lia.
Qed.

Lemma allocate_walk_ext va vb level cur s :
  (∀ l, (l ≤ level)%nat →
     extract_level_index va l = extract_level_index vb l) →
  allocate_walk va level cur s = allocate_walk vb level cur s.
Proof.
  revert cur s. induction level as [|below IH]; intros cur s Hidx;
    cbn [allocate_walk]; rewrite (Hidx _ (Nat.le_refl _)); [done|].
  assert (∀ c s0, allocate_walk va below c s0 = allocate_walk vb below c s0) as Hrec
    by (intros c s0; apply IH; intros l Hl; apply Hidx; lia).
  unfold bind. destruct (load cur _ s) as [[e s1]|]; [|done].
  destruct (pte_valid e); simpl.
  - destruct (load cur _ s1) as [[e' s2]|]; [|done]. apply Hrec.
  - destruct (allocate_aligned_page s1) as [[a s2]|]; [|done].
    destruct (a =? 0); [done|].
    destruct (store cur _ _ s2) as [[u s3]|]; [|done].
    destruct (load cur _ s3) as [[e' s4]|]; [|done]. apply Hrec.
Qed.

Lemma deallocate_walk_ext va vb tables indices n cur s :
  (∀ level, (level < n)%nat →
     extract_level_index va level = extract_level_index vb level) →
  deallocate_walk va tables indices n cur s =
    deallocate_walk vb tables indices n cur s.
Proof.
  revert tables indices cur s.
  induction n as [|level IH]; intros tables indices cur s Hidx; [done|].
  cbn [deallocate_walk]. rewrite (Hidx level) by lia.
  unfold bind. destruct (load cur _ s) as [[e s1]|]; [|done].
  destruct (pte_valid e); simpl; [|done].
  destruct (decide (0 < level)%nat); apply IH; intros k Hk; apply Hidx; lia.
Qed.

Lemma is_address_valid_loop_ext entries va vb n :
  (∀ level, (level < n)%nat →
     extract_level_index va level = extract_level_index vb level) →
  is_address_valid_loop entries va n = is_address_valid_loop entries vb n.
Proof.
  induction n as [|level IH]; intros Hidx; [done|]. simpl.
  rewrite (Hidx level) by lia. destruct (entries <=? _); [done|].
  apply IH. intros l Hl. apply Hidx. lia.
Qed.

(** X2: the three operations look at the low
    [POBITS + LEVELS * BITS_PER_LEVEL] = 31 bits of the virtual address
    only: two addresses that agree on these bits are translated alike,
    and allocating or deallocating either does the same to the machine. *)
Theorem high_bits_ignored (va vb : Z) (s : machine) :
  va mod 2 ^ VA_BITS = vb mod 2 ^ VA_BITS →
  translate va s = translate vb s ∧
  page_allocate va s = page_allocate vb s ∧
  page_deallocate va s = page_deallocate vb s.
Proof.
  intros Hlow.
  assert (∀ level, (level < LEVELS)%nat →
            extract_level_index va level = extract_level_index vb level) as Hidx.
  { intros level Hl.
    rewrite <- (extract_level_index_low va), <- (extract_level_index_low vb) by done.
    by rewrite Hlow. }
  assert (Z.land va (PAGE_SIZE - 1) = Z.land vb (PAGE_SIZE - 1)) as Hoff
    by (rewrite <- (page_offset_low va), <- (page_offset_low vb); by rewrite Hlow).
  split_and!.
  - unfold translate, bind, read_ptbr. destruct (ptbr s =? 0); [done|].
    rewrite Hoff. by apply translate_walk_ext.
  - unfold page_allocate, page_allocate_within, is_address_valid_within.
    rewrite (is_address_valid_loop_ext _ va vb LEVELS Hidx).
    destruct (negb _); [done|].
    assert (∀ s0, allocate_from_root va s0 = allocate_from_root vb s0) as Hroot.
    { intros s0. unfold allocate_from_root, bind, read_ptbr.
      apply allocate_walk_ext. intros l Hl. apply Hidx. unfold LEVELS in *. lia. }
    unfold bind, read_ptbr. destruct (ptbr s =? 0); [|apply Hroot].
    destruct (allocate_aligned_page s) as [[a s1]|]; [|done].
    destruct (a =? 0); [done|]. unfold write_ptbr. apply Hroot.
  - unfold page_deallocate, bind, read_ptbr. destruct (ptbr s =? 0); [done|].
    by apply deallocate_walk_ext.
Qed.

Lemma high_bits_ignored_witness :
  translate 4660 demo_mapped = translate (4660 + 2 ^ 31) demo_mapped ∧
  page_allocate 4660 demo_mapped = page_allocate (4660 + 2 ^ 31) demo_mapped ∧
  page_deallocate 4660 demo_mapped = page_deallocate (4660 + 2 ^ 31) demo_mapped.
Proof. apply (high_bits_ignored 4660 (4660 + 2 ^ 31) demo_mapped). by vm_compute. Defined.

(** ** Translations read off the heap *)

Lemma walk_ext m va vb level cur :
  (∀ l, (l ≤ level)%nat →
     extract_level_index va l = extract_level_index vb l) →
  walk m va level cur = walk m vb level cur.
Proof.
  revert cur. induction level as [|below IH]; intros cur Hidx; simpl;
    rewrite (Hidx _ (Nat.le_refl _)); [done|].
  destruct (peek m cur _) as [e|]; [|done]. destruct (pte_valid e); [|done].
  apply IH. intros l Hl. apply Hidx. lia.
Qed.

Lemma walk_kept s s' va level cur e :
  extends s s' → walk (heap s) va level cur = Some e →
  walk (heap s') va level cur = Some e.
Proof.
  intros [_ Hext]. revert cur. induction level as [|below IH]; intros cur; simpl.
  - destruct (peek (heap s) cur _) as [x|] eqn:Hx; [|done].
    destruct (pte_valid x) eqn:Hv; [|done]. intros [= <-].
    rewrite (Hext _ _ _ Hx (pte_valid_nonzero _ Hv)). by rewrite Hv.
  - destruct (peek (heap s) cur _) as [x|] eqn:Hx; [|done].
    destruct (pte_valid x) eqn:Hv; [|done]. intros Hw.
    rewrite (Hext _ _ _ Hx (pte_valid_nonzero _ Hv)). rewrite Hv. by apply IH.
Qed.

Lemma land_page_mask a off :
  page_addr a → 0 ≤ off < PAGE_SIZE → Z.land (a + off) PAGE_MASK = a.
Proof.
  intros Ha Hoff. rewrite <- (lor_page_offset a off Ha Hoff).
  apply Z.bits_inj'. intros n Hn.
  rewrite Z.land_spec, Z.lor_spec, PAGE_MASK_testbit, (page_addr_testbit a n) by done.
  destruct (Z.leb_spec 10 n) as [Hge|Hlt]; simpl; [|by rewrite !andb_false_r].
  replace (Z.testbit off n) with false.
  - by destruct (Z.testbit a n), (n <? 64).
  - symmetry. rewrite <- (Z.mod_small off (2 ^ 10)) by done.
    apply Z.mod_pow2_bits_high. lia.
Qed.

(** A mapped address is translated to its page plus its offset, which is
    never the all-ones word. *)
Lemma translation_mapped s va e :
  wf s → lookup_leaf s va = Some e →
  page_addr (ENTRY_TO_PHYS_ADDR e) ∧
  translation s va = ENTRY_TO_PHYS_ADDR e + Z.land va (PAGE_SIZE - 1) ∧
  translation s va ≠ NOT_MAPPED ∧
  Z.land (translation s va) PAGE_MASK = ENTRY_TO_PHYS_ADDR e.
Proof.
  intros Hwf Hleaf. unfold translation. rewrite Hleaf.
  apply lookup_leaf_path in Hleaf as (e2 & e1 & _ & _ & _ & _ & _ & H0 & Hv0).
  destruct (wf_target s _ _ e Hwf H0 Hv0) as (_ & _ & Ha & _).
  pose proof (page_offset_range va) as Hoff.
  rewrite (lor_page_offset _ _ Ha Hoff). split_and!; [done|done| |].
  - destruct Ha as (_ & _ & Hhi).
    change NOT_MAPPED with (2 ^ 64 - 1). change WORD_BITS with 64 in Hhi. lia.
  - by apply land_page_mask.
Qed.

Lemma translation_mapped_iff s va :
  wf s → (translation s va ≠ NOT_MAPPED ↔ is_Some (lookup_leaf s va)).
Proof.
  intros Hwf. destruct (lookup_leaf s va) as [e|] eqn:Hleaf.
  - split; [by eexists|]. intros _.
    by destruct (translation_mapped s va e Hwf Hleaf) as (_ & _ & ? & _).
  - unfold translation. rewrite Hleaf. split; [done|by intros [? ?]].
Qed.

(** X3: a mapping covers a whole page: when [translate] maps an address,
    it maps every address with the same three indices to the same physical
    page, each with its own offset. *)
Theorem translate_same_page (va vb pa : Z) (s : machine) :
  reachable s →
  translate va s = Some (pa, s) → pa ≠ NOT_MAPPED →
  (∀ level, (level < LEVELS)%nat →
     extract_level_index vb level = extract_level_index va level) →
  translate vb s =
    Some (Z.lor (Z.land pa PAGE_MASK) (Z.land vb (PAGE_SIZE - 1)), s).
Proof.
  intros [Hwf _]%reach_wf Hrun Hmapped Hidx.
  rewrite (translate_spec va s Hwf) in Hrun. injection Hrun as <-.
  apply translation_mapped_iff in Hmapped as [e Hleaf]; [|done].
  destruct (translation_mapped s va e Hwf Hleaf) as (_ & _ & _ & ->).
  rewrite (translate_spec vb s Hwf). unfold translation.
  replace (lookup_leaf s vb) with (lookup_leaf s va); [by rewrite Hleaf|].
  unfold lookup_leaf. destruct (ptbr s =? 0); [done|].
  apply walk_ext. intros l Hl. symmetry. apply Hidx. unfold LEVELS in *. lia.
Qed.

Lemma translate_same_page_witness :
  translate 1000 demo_mapped =
    Some (Z.lor (Z.land 16387 PAGE_MASK) (Z.land 1000 (PAGE_SIZE - 1)), demo_mapped).
Proof.
  apply (translate_same_page 3 1000 16387 demo_mapped);
    [apply demo_mapped_reachable|by vm_compute|by vm_compute|].
  intros level Hlevel. unfold LEVELS in Hlevel.
  destruct level as [|[|[|?]]]; [by vm_compute..|lia].
Defined.

(** ** Memory safety and the shape of the tables *)

(** X4: in every reachable state each of the three operations returns:
    none reads or writes outside a live block, and [page_deallocate] frees
    live blocks only; the state they return to is reachable again. *)
Theorem operations_defined (va : Z) (s : machine) :
  reachable s →
  (∃ pa, translate va s = Some (pa, s)) ∧
  (∃ r s', page_allocate va s = Some (r, s') ∧ reachable s') ∧
  (∃ r s', page_deallocate va s = Some (r, s') ∧ reachable s').
Proof.
  intros Hs. destruct (reach_wf _ _ Hs) as [Hwf Hsup]. split_and!.
  - eexists. by apply translate_spec.
  - destruct (page_allocate_spec va s Hwf Hsup) as (r & s' & Hrun & _).
    exists r, s'. split; [done|]. by eapply reach_allocate.
  - destruct (page_deallocate_spec va s Hwf Hsup) as (r & s' & Hrun & _).
    exists r, s'. split; [done|]. by eapply reach_deallocate.
Qed.

Lemma operations_defined_witness :
  (∃ pa, translate 4660 half_built = Some (pa, half_built)) ∧
  (∃ r s', page_allocate 4660 half_built = Some (r, s') ∧ reachable s') ∧
  (∃ r s', page_deallocate 4660 half_built = Some (r, s') ∧ reachable s').
Proof. apply (operations_defined 4660 half_built). apply half_built_reachable. Defined.

Lemma make_entry_plus a : page_addr a → make_entry a = a + 1.
Proof.
  intros Ha. unfold make_entry, VALID_FLAG.
  assert (0 ≤ 0 < PAGE_SIZE) as H0 by done.
  pose proof (land_page_mask a 0 Ha H0) as Hmask. rewrite Z.add_0_r in Hmask.
  rewrite Hmask. by apply lor_page_offset.
Qed.

(** X5: in every reachable state every block is a page of
    [ENTRIES_PER_TABLE] words; every entry is either 0 or the address of a
    live page-aligned block plus the valid flag, so that an entry without
    the flag is entirely zero; no entry names the root or the table it is
    in, and no two entries name the same block. *)
Theorem table_shape (s : machine) :
  reachable s →
  (∀ p i, live (heap s) p →
     (is_Some (peek (heap s) p i) ↔ 0 ≤ i < ENTRIES_PER_TABLE)) ∧
  (∀ p i e, peek (heap s) p i = Some e →
     (pte_valid e = false ∧ e = 0) ∨
     (pte_valid e = true ∧
      ∃ a, e = a + 1 ∧ a mod PAGE_SIZE = 0 ∧ live (heap s) a ∧
           a ≠ ptbr s ∧ a ≠ p)) ∧
  (∀ p i q j e, peek (heap s) p i = Some e → peek (heap s) q j = Some e →
     e ≠ 0 → p = q ∧ i = j).
Proof.
  intros [Hwf _]%reach_wf. split_and!.
  - apply (wf_size s Hwf).
  - intros p i e He. destruct (pte_valid e) eqn:Hv.
    + right. split; [done|].
      destruct (wf_target s p i e Hwf He Hv) as (Heq & Hlive & Ha & Hroot & Hself).
      exists (ENTRY_TO_PHYS_ADDR e). rewrite <- make_entry_plus by done.
      split_and!; try done. by destruct Ha.
    + left. split; [done|]. by eapply wf_invalid_zero.
  - apply (wf_inj s Hwf).
Qed.

Lemma table_shape_witness :
  reachable demo_mapped ∧
  (∀ p i, live (heap demo_mapped) p →
     (is_Some (peek (heap demo_mapped) p i) ↔ 0 ≤ i < ENTRIES_PER_TABLE)) ∧
  (∀ p i e, peek (heap demo_mapped) p i = Some e →
     (pte_valid e = false ∧ e = 0) ∨
     (pte_valid e = true ∧
      ∃ a, e = a + 1 ∧ a mod PAGE_SIZE = 0 ∧ live (heap demo_mapped) a ∧
           a ≠ ptbr demo_mapped ∧ a ≠ p)) ∧
  (∀ p i q j e, peek (heap demo_mapped) p i = Some e →
     peek (heap demo_mapped) q j = Some e → e ≠ 0 → p = q ∧ i = j).
Proof.
  split; [apply demo_mapped_reachable|].
  apply (table_shape demo_mapped). apply demo_mapped_reachable.
Defined.

(** ** Other mappings *)

(** X6: [page_allocate] never takes anything away: every block stays
    live, and an address that was mapped is translated as before, whatever
    address is allocated and whether or not the call runs out of memory. *)
Theorem allocate_keeps_mappings (va vb pb : Z) (r : alloc_exit) (s s' : machine) :
  reachable s →
  page_allocate va s = Some (r, s') →
  translate vb s = Some (pb, s) → pb ≠ NOT_MAPPED →
  translate vb s' = Some (pb, s') ∧
  (∀ q, live (heap s) q → live (heap s') q).
Proof.
  intros [Hwf Hsup]%reach_wf Hrun Htr Hmapped.
  destruct (page_allocate_spec va s Hwf Hsup)
    as (r0 & s0 & Hrun0 & _ & Hwf' & _ & Hroot & _ & Hext & _).
  rewrite Hrun in Hrun0. injection Hrun0 as <- <-.
  split; [|apply Hext].
  rewrite (translate_spec vb s Hwf) in Htr. injection Htr as <-.
  apply translation_mapped_iff in Hmapped as [e Hleaf]; [|done].
  rewrite (translate_spec vb s' Hwf'). do 2 f_equal.
  unfold translation. rewrite Hleaf.
  replace (lookup_leaf s' vb) with (Some e); [done|]. symmetry.
  unfold lookup_leaf in *. destruct (Z.eqb_spec (ptbr s) 0) as [|Hset]; [done|].
  rewrite (Hroot Hset). destruct (Z.eqb_spec (ptbr s) 0); [done|].
  by eapply walk_kept.
Qed.

Lemma allocate_keeps_mappings_witness :
  translate 3 (after (page_allocate 1024) (supply [Some 20480] demo_mapped))
    = Some (16387, after (page_allocate 1024) (supply [Some 20480] demo_mapped)) ∧
  (∀ q, live (heap (supply [Some 20480] demo_mapped)) q →
        live (heap (after (page_allocate 1024) (supply [Some 20480] demo_mapped))) q).
Proof.
  apply (allocate_keeps_mappings 1024 3 16387 ExitDone
           (supply [Some 20480] demo_mapped));
    [|by vm_compute..].
  apply reach_supply; [apply demo_mapped_reachable|].
  split; simpl.
  - repeat (apply NoDup_cons; split; [set_solver|]). constructor.
  - intros a Ha. assert (a = 20480) as -> by (set_unfold; naive_solver).
    split; [by apply page_addr_sample|]. intros [t Ht]. by vm_compute in Ht.
Defined.

(** ** page_deallocate: what it answers and what it leaves *)

(** X7: [page_deallocate] answers 1 exactly when the address was mapped
    and 0 otherwise, and in both cases the address is not mapped when it
    returns. *)
Theorem deallocate_answer (va r : Z) (s s' : machine) :
  reachable s →
  page_deallocate va s = Some (r, s') →
  ∃ pa, translate va s = Some (pa, s) ∧
    (r = 1 ∧ pa ≠ NOT_MAPPED ∨ r = 0 ∧ pa = NOT_MAPPED ∧ s' = s) ∧
    translate va s' = Some (NOT_MAPPED, s').
Proof.
  intros [Hwf Hsup]%reach_wf Hrun.
  exists (translation s va). split; [by apply translate_spec|].
  destruct (lookup_leaf s va) as [e0|] eqn:Hleaf.
  - destruct (translation_mapped s va e0 Hwf Hleaf) as (_ & _ & Hne & _).
    apply lookup_leaf_path in Hleaf as (e2 & e1 & Hpath).
    rewrite (page_deallocate_mapped s va e2 e1 e0 Hwf Hpath) in Hrun.
    injection Hrun as <- <-. split; [by left|].
    rewrite translate_spec by (by eapply wf_reclaimed).
    unfold translation. by erewrite lookup_leaf_reclaimed.
  - destruct (page_deallocate_spec va s Hwf Hsup)
      as (r0 & s0 & Hrun0 & _ & _ & _ & _ & Hr & Hsame).
    rewrite Hrun in Hrun0. injection Hrun0 as <- <-.
    rewrite Hleaf in Hr. rewrite (Hsame Hleaf).
    assert (translation s va = NOT_MAPPED) as Hno
      by (unfold translation; by rewrite Hleaf).
    split; [right; by rewrite Hno|].
    rewrite translate_spec by done. by rewrite Hno.
Qed.

Lemma deallocate_answer_witness :
  (∃ pa, translate 3 demo_mapped = Some (pa, demo_mapped) ∧
     (1 = 1 ∧ pa ≠ NOT_MAPPED ∨ 1 = 0 ∧ pa = NOT_MAPPED ∧ demo_unmapped = demo_mapped) ∧
     translate 3 demo_unmapped = Some (NOT_MAPPED, demo_unmapped)) ∧
  (∃ pa, translate 1024 demo_mapped = Some (pa, demo_mapped) ∧
     (0 = 1 ∧ pa ≠ NOT_MAPPED ∨ 0 = 0 ∧ pa = NOT_MAPPED ∧ demo_mapped = demo_mapped) ∧
     translate 1024 demo_mapped = Some (NOT_MAPPED, demo_mapped)).
Proof.
  split.
  - apply (deallocate_answer 3 1 demo_mapped demo_unmapped);
      [apply demo_mapped_reachable|by vm_compute].
  - apply (deallocate_answer 1024 0 demo_mapped demo_mapped);
      [apply demo_mapped_reachable|by vm_compute].
Defined.

(** X8: a second [page_deallocate] of the same address answers 0 and
    changes nothing. *)
Theorem deallocate_twice (va r : Z) (s s' : machine) :
  reachable s →
  page_deallocate va s = Some (r, s') →
  page_deallocate va s' = Some (0, s').
Proof.
  intros Hs Hrun. pose proof (reach_deallocate _ _ _ _ _ Hs Hrun) as Hs'.
  destruct (reach_wf _ _ Hs) as [Hwf Hsup].
  destruct (reach_wf _ _ Hs') as [Hwf' Hsup'].
  assert (lookup_leaf s' va = None) as Hleaf'.
  { destruct (lookup_leaf s va) as [e0|] eqn:Hleaf.
    - apply lookup_leaf_path in Hleaf as (e2 & e1 & Hpath).
      rewrite (page_deallocate_mapped s va e2 e1 e0 Hwf Hpath) in Hrun.
      injection Hrun as <- <-. by eapply lookup_leaf_reclaimed.
    - destruct (page_deallocate_spec va s Hwf Hsup)
        as (r0 & s0 & Hrun0 & _ & _ & _ & _ & _ & Hsame).
      rewrite Hrun in Hrun0. injection Hrun0 as <- <-. by rewrite (Hsame Hleaf). }
  destruct (page_deallocate_spec va s' Hwf' Hsup')
    as (r0 & s0 & Hrun0 & _ & _ & _ & _ & Hr & Hsame).
  rewrite Hleaf' in Hr. rewrite (Hsame Hleaf') in Hrun0. by rewrite Hr in Hrun0.
Qed.

Lemma deallocate_twice_witness :
  page_deallocate 3 demo_unmapped = Some (0, demo_unmapped).
Proof.
  apply (deallocate_twice 3 1 demo_mapped demo_unmapped);
    [apply demo_mapped_reachable|by vm_compute].
Defined.

(** Two valid entries that name the same block are one entry. *)
Lemma names_inj s p i e q j f :
  wf s → peek (heap s) p i = Some e → pte_valid e = true →
  peek (heap s) q j = Some f → pte_valid f = true →
  ENTRY_TO_PHYS_ADDR e = ENTRY_TO_PHYS_ADDR f → p = q ∧ i = j ∧ e = f.
Proof.
  intros Hwf He Hve Hf Hvf Heq.
  destruct (wf_target s p i e Hwf He Hve) as (Hee & _).
  destruct (wf_target s q j f Hwf Hf Hvf) as (Hff & _).
  assert (e = f) as <- by (rewrite Hee, Hff; congruence).
  destruct (wf_inj s Hwf p i q j e He Hf (pte_valid_nonzero e Hve)). done.
Qed.

Section Survivors.
Variables (s : machine) (va e2 e1 e0 : Z).
Hypothesis Hwf : wf s.
Hypothesis Hpath : mapped_path s va e2 e1 e0.

Local Abbreviation i2 := (extract_level_index va 2).
Local Abbreviation i1 := (extract_level_index va 1).
Local Abbreviation i0 := (extract_level_index va 0).
Local Abbreviation t2 := (ptbr s).
Local Abbreviation t1 := (ENTRY_TO_PHYS_ADDR e2).
Local Abbreviation t0 := (ENTRY_TO_PHYS_ADDR e1).
Local Abbreviation m' := (reclaimed (heap s) t2 i2 t1 i1 t0 i0).

Local Ltac split_cases :=
  pose proof (vacant_m0 s va e2 e1 e0 Hpath) as Hb0;
  pose proof (vacant_m1 s va e2 e1 e0 Hwf Hpath) as Hb1;
  destruct (path_distinct s va e2 e1 e0 Hwf Hpath) as (Hd12 & Hd02 & Hd01 & Hl1 & Hl0);
  destruct (reclaimed_cases s va e2 e1)
    as [(Hvac0 & ->)|[(Hvac0 & Hvac1 & ->)|(Hvac0 & Hvac1 & ->)]].

(** A valid entry that is not on the path of [va] stays. *)
Lemma off_path_entry_stays q j x :
  peek (heap s) q j = Some x → pte_valid x = true →
  ¬ (q = t2 ∧ j = i2) → ¬ (q = t1 ∧ j = i1) → ¬ (q = t0 ∧ j = i0) →
  peek m' q j = Some x.
Proof.
  intros Hx Hv N2 N1 N0. split_cases.
  - rewrite (peek_m0 s va e2 e1 e0 Hpath), decide_False by done. done.
  - assert (q ≠ t0) as Hq0.
    { intros ->. apply Hb0 in Hvac0.
      assert (j ≠ i0) as Hj by tauto. rewrite (Hvac0 j x Hx Hj) in Hv. done. }
    rewrite (peek_m1 s va e2 e1 e0 Hwf Hpath), !decide_False by done. done.
  - assert (q ≠ t0) as Hq0.
    { intros ->. apply Hb0 in Hvac0.
      assert (j ≠ i0) as Hj by tauto. rewrite (Hvac0 j x Hx Hj) in Hv. done. }
    assert (q ≠ t1) as Hq1.
    { intros ->. apply Hb1 in Hvac1.
      assert (j ≠ i1) as Hj by tauto. rewrite (Hvac1 j x Hx Hj) in Hv. done. }
    rewrite (peek_m2 s va e2 e1 e0 Hwf Hpath), !decide_False by tauto. done.
Qed.

(** The entry of the leaf table in its parent stays when the leaf table
    keeps a valid entry. *)
Lemma mid_entry_stays :
  ¬ bare (heap s) t0 i0 → peek m' t1 i1 = Some e1.
Proof.
  intros Hn0. pose proof Hpath as (_ & _ & _ & H1 & _). split_cases.
  - rewrite (peek_m0 s va e2 e1 e0 Hpath), decide_False; [done|].
    intros [? _]. congruence.
  - apply Hb0 in Hvac0. tauto.
  - apply Hb0 in Hvac0. tauto.
Qed.

(** The entry of the root stays when one of the two tables below it keeps
    a valid entry. *)
Lemma root_entry_stays :
  ¬ (bare (heap s) t0 i0 ∧ bare (heap s) t1 i1) → peek m' t2 i2 = Some e2.
Proof.
  intros Hn. pose proof Hpath as (_ & H2 & _). split_cases.
  - rewrite (peek_m0 s va e2 e1 e0 Hpath), decide_False; [done|].
    intros [? _]. congruence.
  - rewrite (peek_m1 s va e2 e1 e0 Hwf Hpath), !decide_False; [done|congruence|].
    intros [? _]. congruence.
  - apply Hb0 in Hvac0. apply Hb1 in Hvac1. tauto.
Qed.
End Survivors.

(** X9: [page_deallocate] never frees the data page: after a mapped
    address is deallocated its page is still a live block, with the
    contents it had, and no entry names it any more. *)
Theorem data_page_never_freed (va e2 e1 e0 r : Z) (s s' : machine) :
  reachable s →
  mapped_path s va e2 e1 e0 →
  page_deallocate va s = Some (r, s') →
  live (heap s') (ENTRY_TO_PHYS_ADDR e0) ∧
  (∀ j, peek (heap s') (ENTRY_TO_PHYS_ADDR e0) j =
        peek (heap s) (ENTRY_TO_PHYS_ADDR e0) j) ∧
  (∀ q j x, peek (heap s') q j = Some x → pte_valid x = true →
            ENTRY_TO_PHYS_ADDR x ≠ ENTRY_TO_PHYS_ADDR e0).
Proof.
  intros [Hwf _]%reach_wf Hpath Hrun.
  rewrite (page_deallocate_mapped s va e2 e1 e0 Hwf Hpath) in Hrun.
  injection Hrun as <- <-. cbn [heap].
  pose proof Hpath as (Hr & H2 & Hv2 & H1 & Hv1 & H0 & Hv0).
  destruct (path_distinct s va e2 e1 e0 Hwf Hpath) as (Hd12 & Hd02 & Hd01 & Hl1 & Hl0).
  destruct (wf_target s _ _ e0 Hwf H0 Hv0) as (_ & Hlive & _ & Hdr & Hd0).
  assert (ENTRY_TO_PHYS_ADDR e0 ≠ ENTRY_TO_PHYS_ADDR e2) as Hd1.
  { intros Heq. destruct (names_inj s _ _ e0 _ _ e2 Hwf H0 Hv0 H2 Hv2 Heq) as (? & _).
    congruence. }
  destruct (walk_up_outcome s va e2 e1 e0 Hwf Hpath)
    as (_ & _ & Hstay0 & _ & _ & Hframe).
  split_and!.
  - unfold live. apply dec_stable. intros Hdead.
    destruct (dead_reclaimed s va e2 e1 e0 Hwf Hpath _ Hlive Hdead); done.
  - intros j. by apply Hframe.
  - intros q j x Hx Hvx Heq.
    pose proof (peek_reclaimed s va e2 e1 e0 Hwf Hpath q j x Hx
                  (pte_valid_nonzero x Hvx)) as Hold.
    destruct (names_inj s _ _ x _ _ e0 Hwf Hold Hvx H0 Hv0 Heq) as (-> & -> & ->).
    destruct (Hstay0 (peek_live _ _ _ _ Hx)) as (Hzero & _).
    rewrite Hzero in Hx. injection Hx as <-. done.
Qed.

Lemma data_page_never_freed_witness :
  live (heap demo_unmapped) (ENTRY_TO_PHYS_ADDR 16385) ∧
  (∀ j, peek (heap demo_unmapped) (ENTRY_TO_PHYS_ADDR 16385) j =
        peek (heap demo_mapped) (ENTRY_TO_PHYS_ADDR 16385) j) ∧
  (∀ q j x, peek (heap demo_unmapped) q j = Some x → pte_valid x = true →
            ENTRY_TO_PHYS_ADDR x ≠ ENTRY_TO_PHYS_ADDR 16385).
Proof.
  apply (data_page_never_freed 0 8193 12289 16385 1 demo_mapped demo_unmapped);
    [apply demo_mapped_reachable|apply demo_mapped_path|apply demo_unmapped_run].
Defined.

(** X10: two mapped addresses that are translated into the same physical
    page have the same three indices: no physical page serves two virtual
    pages. *)
Theorem shared_frame_same_page (va vb pa pb : Z) (s : machine) :
  reachable s →
  translate va s = Some (pa, s) → pa ≠ NOT_MAPPED →
  translate vb s = Some (pb, s) → pb ≠ NOT_MAPPED →
  Z.land pa PAGE_MASK = Z.land pb PAGE_MASK →
  ∀ level, (level < LEVELS)%nat →
    extract_level_index va level = extract_level_index vb level.
Proof.
  intros [Hwf _]%reach_wf Hta Hma Htb Hmb Hframe.
  rewrite (translate_spec va s Hwf) in Hta. injection Hta as <-.
  rewrite (translate_spec vb s Hwf) in Htb. injection Htb as <-.
  apply translation_mapped_iff in Hma as [ea Hla]; [|done].
  apply translation_mapped_iff in Hmb as [eb Hlb]; [|done].
  destruct (translation_mapped s va ea Hwf Hla) as (_ & _ & _ & Hpa).
  destruct (translation_mapped s vb eb Hwf Hlb) as (_ & _ & _ & Hpb).
  rewrite Hpa, Hpb in Hframe.
  apply lookup_leaf_path in Hla as (a2 & a1 & _ & A2 & Va2 & A1 & Va1 & A0 & Va0).
  apply lookup_leaf_path in Hlb as (b2 & b1 & _ & B2 & Vb2 & B1 & Vb1 & B0 & Vb0).
  destruct (names_inj s _ _ ea _ _ eb Hwf A0 Va0 B0 Vb0 Hframe) as (Ht0 & Hi0 & _).
  destruct (names_inj s _ _ a1 _ _ b1 Hwf A1 Va1 B1 Vb1 Ht0) as (Ht1 & Hi1 & _).
  destruct (names_inj s _ _ a2 _ _ b2 Hwf A2 Va2 B2 Vb2 Ht1) as (_ & Hi2 & _).
  intros level Hlevel. unfold LEVELS in Hlevel.
  destruct level as [|[|[|?]]]; [done..|lia].
Qed.

Lemma shared_frame_same_page_witness :
  ∃ pa pb, translate 3 demo_mapped = Some (pa, demo_mapped) ∧
    translate 1000 demo_mapped = Some (pb, demo_mapped) ∧
    ∀ level, (level < LEVELS)%nat →
      extract_level_index 3 level = extract_level_index 1000 level.
Proof.
  exists 16387, 17384. split; [by vm_compute|]. split; [by vm_compute|].
  apply (shared_frame_same_page 3 1000 16387 17384 demo_mapped);
    [apply demo_mapped_reachable|by vm_compute..].
Defined.

(** X11: [page_deallocate] of an address leaves every mapped address with
    another index at some level translated as before. *)
Theorem deallocate_keeps_mappings (va vb pb r : Z) (s s' : machine) :
  reachable s →
  page_deallocate va s = Some (r, s') →
  translate vb s = Some (pb, s) → pb ≠ NOT_MAPPED →
  (∃ level, (level < LEVELS)%nat ∧
     extract_level_index vb level ≠ extract_level_index va level) →
  translate vb s' = Some (pb, s').
Proof.
  intros Hs Hrun Htr Hmapped Hdiff.
  pose proof (reach_deallocate _ _ _ _ _ Hs Hrun) as Hs'.
  destruct (reach_wf _ _ Hs) as [Hwf Hsup]. destruct (reach_wf _ _ Hs') as [Hwf' _].
  rewrite (translate_spec vb s Hwf) in Htr. injection Htr as <-.
  rewrite (translate_spec vb s' Hwf'). do 2 f_equal.
  apply translation_mapped_iff in Hmapped as [f0 Hlb]; [|done].
  unfold translation. rewrite Hlb.
  replace (lookup_leaf s' vb) with (Some f0); [done|]. symmetry.
  destruct (lookup_leaf s va) as [e0|] eqn:Hla; last first.
  { destruct (page_deallocate_spec va s Hwf Hsup)
      as (r0 & s0 & Hrun0 & _ & _ & _ & _ & _ & Hsame).
    rewrite Hrun in Hrun0. injection Hrun0 as <- <-. by rewrite (Hsame Hla). }
  apply lookup_leaf_path in Hla as (e2 & e1 & Hpath).
  rewrite (page_deallocate_mapped s va e2 e1 e0 Hwf Hpath) in Hrun.
  injection Hrun as <- <-.
  apply lookup_leaf_path in Hlb as (f2 & f1 & Hr & F2 & Vf2 & F1 & Vf1 & F0 & Vf0).
  pose proof Hpath as (_ & E2 & Ve2 & E1 & Ve1 & E0 & Ve0).
  destruct (path_distinct s va e2 e1 e0 Hwf Hpath) as (Hd12 & Hd02 & Hd01 & _ & _).
  destruct (wf_target s _ _ f2 Hwf F2 Vf2) as (_ & _ & _ & Hu1r & _).
  destruct (wf_target s _ _ f1 Hwf F1 Vf1) as (_ & _ & _ & Hu0r & Hu0s).
  apply lookup_leaf_path. exists f2, f1. unfold mapped_path. cbn [ptbr heap].
  destruct (decide ((extract_level_index vb 2) = (extract_level_index va 2))) as [Heq2|Hne2].
  - rewrite Heq2 in F2. assert (f2 = e2) as -> by congruence.
    destruct (decide ((extract_level_index vb 1) = (extract_level_index va 1))) as [Heq1|Hne1].
    + rewrite Heq1 in F1. assert (f1 = e1) as -> by congruence.
      assert ((extract_level_index vb 0) ≠ (extract_level_index va 0)) as Hne0.
      { intros Heq0. destruct Hdiff as (level & Hlevel & Hne).
        unfold LEVELS in Hlevel. destruct level as [|[|[|?]]]; [done..|lia]. }
      assert (¬ bare (heap s) (ENTRY_TO_PHYS_ADDR e1) (extract_level_index va 0)) as Hn0.
      { intros Hbare. rewrite (Hbare (extract_level_index vb 0) f0 F0 Hne0) in Vf0. done. }
      split_and!; try done.
      * rewrite Heq2. apply (root_entry_stays s va e2 e1 e0 Hwf Hpath). tauto.
      * rewrite Heq1. by apply (mid_entry_stays s va e2 e1 e0 Hwf Hpath).
      * apply (off_path_entry_stays s va e2 e1 e0 Hwf Hpath); try done;
          intros [? ?]; congruence.
    + assert (¬ bare (heap s) (ENTRY_TO_PHYS_ADDR e2) (extract_level_index va 1)) as Hn1.
      { intros Hbare. rewrite (Hbare (extract_level_index vb 1) f1 F1 Hne1) in Vf1. done. }
      assert (ENTRY_TO_PHYS_ADDR f1 ≠ ENTRY_TO_PHYS_ADDR e1) as Hu0.
      { intros Heq. destruct (names_inj s _ _ f1 _ _ e1 Hwf F1 Vf1 E1 Ve1 Heq)
          as (_ & ? & _). done. }
      split_and!; try done.
      * rewrite Heq2. apply (root_entry_stays s va e2 e1 e0 Hwf Hpath). tauto.
      * apply (off_path_entry_stays s va e2 e1 e0 Hwf Hpath); try done;
          intros [? ?]; congruence.
      * apply (off_path_entry_stays s va e2 e1 e0 Hwf Hpath); try done;
          intros [? ?]; congruence.
  - assert (ENTRY_TO_PHYS_ADDR f2 ≠ ENTRY_TO_PHYS_ADDR e2) as Hu1.
    { intros Heq. destruct (names_inj s _ _ f2 _ _ e2 Hwf F2 Vf2 E2 Ve2 Heq)
        as (_ & ? & _). done. }
    assert (ENTRY_TO_PHYS_ADDR f2 ≠ ENTRY_TO_PHYS_ADDR e1) as Hu1'.
    { intros Heq. destruct (names_inj s _ _ f2 _ _ e1 Hwf F2 Vf2 E1 Ve1 Heq)
        as (? & _). congruence. }
    assert (ENTRY_TO_PHYS_ADDR f1 ≠ ENTRY_TO_PHYS_ADDR e2) as Hu0.
    { intros Heq. destruct (names_inj s _ _ f1 _ _ e2 Hwf F1 Vf1 E2 Ve2 Heq)
        as (? & _). congruence. }
    assert (ENTRY_TO_PHYS_ADDR f1 ≠ ENTRY_TO_PHYS_ADDR e1) as Hu0'.
    { intros Heq. destruct (names_inj s _ _ f1 _ _ e1 Hwf F1 Vf1 E1 Ve1 Heq)
        as (? & _). congruence. }
    split_and!; try done;
      apply (off_path_entry_stays s va e2 e1 e0 Hwf Hpath); try done;
      intros [? ?]; congruence.
Qed.

Lemma deallocate_keeps_mappings_witness :
  let s := after (page_allocate 1024) (supply [Some 20480] demo_mapped) in
  reachable s ∧
  translate 1027 (after (page_deallocate 0) s) =
    Some (20483, after (page_deallocate 0) s).
Proof.
  assert (reachable (after (page_allocate 1024) (supply [Some 20480] demo_mapped)))
    as Hs.
  { eapply (reach_allocate _ (supply [Some 20480] demo_mapped) 1024 ExitDone);
      [|by vm_compute|done].
    apply reach_supply; [apply demo_mapped_reachable|].
    split; simpl.
    - repeat (apply NoDup_cons; split; [set_solver|]). constructor.
    - intros a Ha. assert (a = 20480) as -> by (set_unfold; naive_solver).
      split; [by apply page_addr_sample|]. intros [t Ht]. by vm_compute in Ht. }
  split; [exact Hs|].
  apply (deallocate_keeps_mappings 0 1027 20483 1 _ _ Hs); [by vm_compute..|].
  exists 0%nat. split; [unfold LEVELS; lia|by vm_compute].
Defined.

(** ** The requests for memory of page_allocate *)

Lemma on_walk_below m va cur e below k p :
  peek m cur (extract_level_index va (S below)) = Some e → pte_valid e = true →
  on_walk m va below (ENTRY_TO_PHYS_ADDR e) k p →
  on_walk m va (S below) cur k p.
Proof.
  intros He Hv. induction 1 as [|level p x Hp IH Hx Hvx].
  - eapply walk_down; [constructor|done..].
  - by eapply walk_down.
Qed.

(** What a request does to the list of pending answers. *)
Lemma allocate_aligned_page_pending s a s1 :
  supply_ok s → allocate_aligned_page s = Some (a, s1) →
  (a = 0 ∧ heap s1 = heap s ∧
   (pending s = [] ∧ pending s1 = [] ∨ pending s = None :: pending s1)) ∨
  (a ≠ 0 ∧ heap s1 = <[a := zero_page]> (heap s) ∧
   pending s = Some a :: pending s1).
Proof.
  intros [_ Hok]. unfold allocate_aligned_page.
  destruct (pending s) as [|[b|] o] eqn:Hp; intros [= <- <-]; simpl.
  - left. rewrite Hp. tauto.
  - right. destruct (Hok b) as [(_ & ? & _) _]; [by left|].
    split; [lia|done].
  - left. tauto.
Qed.

Lemma store_pending p i v s u s2 :
  is_Some (peek (heap s) p i) → store p i v s = Some (u, s2) →
  pending s2 = pending s.
Proof. intros Hpi. rewrite (store_run p i v s Hpi). by intros [= _ <-]. Qed.

Lemma walk_stops m va level cur :
  peek m cur (extract_level_index va level) = Some 0 → walk m va level cur = None.
Proof. intros He. destruct level; simpl; by rewrite He. Qed.

(** A walk that wrote nothing. *)
Lemma account_same_heap va level cur s r s' used :
  heap s' = heap s → pending s = used ++ pending s' →
  (length used ≤ 1)%nat → (∀ q, Some q ∉ used) →
  (r = ExitDone → used = []) →
  (r = ExitNoMem →
     walk (heap s') va level cur = None ∧
     (None ∈ used ∨ (pending s' = [] ∧ used = []))) →
  allocate_account va level cur s r s' used.
Proof.
  intros Hheap Hp Hlen Hnone Hdone Hfail. unfold allocate_account.
  rewrite Hheap in *. split_and!; try done.
  - lia.
  - intros q. specialize (Hnone q). tauto.
  - intros -> Hin. rewrite (Hdone eq_refl) in Hin. by apply elem_of_nil in Hin.
  - intros Hr. destruct (Hfail Hr) as [Hw [?|[? ->]]]; split; try done; [by left|].
    right. split; [done|]. simpl. lia.
  - intros p i e He _. by left.
  - intros a Ha. by destruct (Hnone a).
Qed.

(** The leaf step that installed a page. *)
Lemma account_installed_leaf va cur s s2 a :
  peek (heap s) cur (extract_level_index va 0) = Some 0 →
  page_addr a → ¬ live (heap s) a →
  heap s2 = installed (heap s) cur (extract_level_index va 0) a →
  pending s = Some a :: pending s2 →
  allocate_account va 0 cur s ExitDone s2 [Some a].
Proof.
  intros He Ha Hdead Hheap Hp. unfold allocate_account. rewrite Hheap.
  assert (is_Some (peek (heap s) cur (extract_level_index va 0))) as Hsome
    by by eexists.
  assert (peek (installed (heap s) cur (extract_level_index va 0) a) cur
            (extract_level_index va 0) = Some (make_entry a)) as Hnew
    by (rewrite peek_installed by done; by rewrite decide_True).
  split_and!; try done.
  - intros q. rewrite live_installed. set_solver.
  - set_solver.
  - intros p i e. rewrite peek_installed by done. case_decide as Hpi.
    + destruct Hpi as [-> ->]. intros [= <-] _. right.
      rewrite phys_make_entry by done. split; [set_solver|].
      exists 0%nat. split; [constructor|done].
    + case_decide; [case_decide; naive_solver|]. by left.
  - intros b Hb. assert (b = a) as -> by set_solver.
    exists 0%nat, cur. split; [constructor|done].
Qed.

(** From the walk below an entry that was there to the walk from here. *)
Lemma account_lift_old va below cur s r s' used e :
  peek (heap s') cur (extract_level_index va (S below)) = Some e →
  pte_valid e = true →
  allocate_account va below (ENTRY_TO_PHYS_ADDR e) s r s' used →
  allocate_account va (S below) cur s r s' used.
Proof.
  intros He Hv (Hp & Hlen & Hlive & Hdone & Hfail & Hlinks & Hnamed).
  unfold allocate_account. split_and!; try done.
  - lia.
  - intros Hr. destruct (Hfail Hr) as [Hw Hwhy]. split.
    + simpl. by rewrite He, Hv.
    + destruct Hwhy as [?|[? ?]]; [by left|right]. split; [done|lia].
  - intros p i x Hx Hnz. destruct (Hlinks p i x Hx Hnz)
      as [?|(Hin & k & Hk & Hi)]; [by left|right].
    split; [done|]. exists k. split; [|done]. by eapply on_walk_below.
  - intros a Hin. destruct (Hnamed a Hin) as (k & p & Hk & Hpk).
    exists k, p. split; [|done]. by eapply on_walk_below.
Qed.

(** From the walk below an entry that was installed to the walk from here. *)
Lemma account_lift_new va below cur s s2 r s' used a :
  peek (heap s) cur (extract_level_index va (S below)) = Some 0 →
  page_addr a → ¬ live (heap s) a →
  heap s2 = installed (heap s) cur (extract_level_index va (S below)) a →
  pending s = Some a :: pending s2 →
  peek (heap s') cur (extract_level_index va (S below)) = Some (make_entry a) →
  allocate_account va below a s2 r s' used →
  allocate_account va (S below) cur s r s' (Some a :: used).
Proof.
  intros He Ha Hdead Hheap Hps Hnew (Hp & Hlen & Hlive & Hdone & Hfail & Hlinks & Hnamed).
  assert (is_Some (peek (heap s) cur (extract_level_index va (S below)))) as Hsome
    by by eexists.
  pose proof (make_entry_valid a) as Hva.
  assert (ENTRY_TO_PHYS_ADDR (make_entry a) = a) as Hphys by by apply phys_make_entry.
  unfold allocate_account. split_and!.
  - by rewrite Hps, Hp.
  - simpl. lia.
  - intros q. rewrite Hlive, Hheap, live_installed. set_solver.
  - intros Hr. specialize (Hdone Hr). set_solver.
  - intros Hr. destruct (Hfail Hr) as [Hw Hwhy]. split.
    + simpl. by rewrite Hnew, Hva, Hphys.
    + destruct Hwhy as [?|[? ?]]; [left; set_solver|right].
      split; [done|]. simpl. lia.
  - intros p i x Hx Hnz.
    destruct (Hlinks p i x Hx Hnz) as [Hold|(Hin & k & Hk & Hi)].
    + revert Hold. rewrite Hheap, peek_installed by done. case_decide as Hpi.
      * destruct Hpi as [-> ->]. intros [= <-]. right. rewrite Hphys.
        split; [set_solver|]. exists (S below). split; [constructor|done].
      * case_decide; [case_decide; naive_solver|]. by left.
    + right. split; [set_solver|]. exists k. split; [|done].
      eapply on_walk_below; [exact Hnew|done|]. by rewrite Hphys.
  - intros b [[= ->]|Hin]%elem_of_cons.
    + exists (S below), cur. split; [constructor|done].
    + destruct (Hnamed b Hin) as (k & p & Hk & Hpk).
      exists k, p. split; [|done].
      eapply on_walk_below; [exact Hnew|done|]. by rewrite Hphys.
Qed.

Lemma allocate_walk_extends va level cur s r s' :
  wf s → supply_ok s → live (heap s) cur →
  allocate_walk va level cur s = Some (r, s') → extends s s'.
Proof.
  intros Hwf Hsup Hcur Hrun.
  destruct (allocate_walk_spec va level cur s Hwf Hsup Hcur)
    as (r0 & s0 & Hrun0 & _ & _ & _ & _ & Hext & _).
  rewrite Hrun in Hrun0. by injection Hrun0 as <- <-.
Qed.

Lemma allocate_walk_account va level cur s r s' :
  wf s → supply_ok s → live (heap s) cur →
  allocate_walk va level cur s = Some (r, s') →
  ∃ used, allocate_account va level cur s r s' used.
Proof.
  revert cur s r s'.
  induction level as [|below IH]; intros cur s r s' Hwf Hsup Hcur Hrun;
    cbn [allocate_walk] in Hrun;
    match type of Hrun with
    | context [load cur (extract_level_index va ?l)] =>
        destruct (proj2 (wf_size s Hwf cur _ Hcur) (extract_level_index_range va l))
          as [e He]
    end;
    rewrite (bind_run _ _ s e s (load_run _ _ _ _ He)) in Hrun;
    destruct (pte_valid e) eqn:Hv; cbn [negb] in Hrun.
  - (* leaf entry there *)
    injection Hrun as <- <-. exists [].
    apply account_same_heap; [done|done|simpl; lia|set_solver|done|done].
  - (* leaf entry missing *)
    pose proof (wf_invalid_zero s cur _ e Hwf He Hv) as ->.
    destruct (fill_entry s cur _ 0 Hwf Hsup He Hv)
      as (a & s1 & Hrun1 & [(-> & Hwf1 & Hsup1 & Hroot1 & Hheap)|
           (Hnz & Ha & Hdead & s2 & Hst & Hwf2 & Hsup2 & Hroot2 & Hheap)]);
      rewrite (bind_run _ _ _ _ _ Hrun1) in Hrun.
    + simpl in Hrun. injection Hrun as <- <-.
      assert (walk (heap s1) va 0 cur = None) as Hw
        by (apply walk_stops; by rewrite Hheap).
      destruct (allocate_aligned_page_pending s 0 s1 Hsup Hrun1)
        as [(_ & _ & [[Hp Hp1]|Hp])|(? & _)]; [| |done].
      * exists []. apply account_same_heap;
          [done|by rewrite Hp, Hp1|simpl; lia|set_solver|done|].
        intros _. split; [done|]. by right.
      * exists [None]. apply account_same_heap;
          [done|done|simpl; lia|set_solver|done|].
        intros _. split; [done|]. left. set_solver.
    + rewrite Hnz, (bind_run _ _ _ _ _ Hst) in Hrun. injection Hrun as <- <-.
      destruct (allocate_aligned_page_pending s a s1 Hsup Hrun1)
        as [(-> & _)|(_ & Hheap1 & Hp)]; [done|].
      exists [Some a]. apply account_installed_leaf; try done.
      rewrite Hp. f_equal. symmetry. eapply store_pending; [|exact Hst].
      rewrite Hheap1, peek_fresh, decide_False; [by eexists|].
      intros ->. by apply Hdead.
  - (* table there *)
    rewrite (bind_run _ _ s e s (load_run _ _ _ _ He)) in Hrun.
    destruct (wf_target s cur _ e Hwf He Hv) as (_ & Hchild & _).
    destruct (IH _ _ _ _ Hwf Hsup Hchild Hrun) as (used & Hacc).
    pose proof (allocate_walk_extends _ _ _ _ _ _ Hwf Hsup Hchild Hrun) as [_ Hext].
    exists used. eapply account_lift_old; [|done|done].
    apply Hext; [done|by apply pte_valid_nonzero].
  - (* table missing *)
    pose proof (wf_invalid_zero s cur _ e Hwf He Hv) as ->.
    destruct (fill_entry s cur _ 0 Hwf Hsup He Hv)
      as (a & s1 & Hrun1 & [(-> & Hwf1 & Hsup1 & Hroot1 & Hheap)|
           (Hnz & Ha & Hdead & s2 & Hst & Hwf2 & Hsup2 & Hroot2 & Hheap)]);
      rewrite (bind_run _ _ _ _ _ Hrun1) in Hrun.
    + simpl in Hrun. injection Hrun as <- <-.
      assert (walk (heap s1) va (S below) cur = None) as Hw
        by (apply walk_stops; by rewrite Hheap).
      destruct (allocate_aligned_page_pending s 0 s1 Hsup Hrun1)
        as [(_ & _ & [[Hp Hp1]|Hp])|(? & _)]; [| |done].
      * exists []. apply account_same_heap;
          [done|by rewrite Hp, Hp1|simpl; lia|set_solver|done|].
        intros _. split; [done|]. by right.
      * exists [None]. apply account_same_heap;
          [done|done|simpl; lia|set_solver|done|].
        intros _. split; [done|]. left. set_solver.
    + rewrite Hnz, (bind_run _ _ _ _ _ Hst) in Hrun.
      assert (peek (heap s2) cur (extract_level_index va (S below))
                = Some (make_entry a)) as Hnew.
      { rewrite Hheap, peek_installed by (done || by eexists).
        by rewrite decide_True. }
      rewrite (bind_run _ _ _ _ _ (load_run _ _ _ _ Hnew)) in Hrun.
      rewrite phys_make_entry in Hrun by done.
      assert (live (heap s2) a) as Hlive
        by (rewrite Hheap; apply live_installed; by left).
      destruct (IH _ _ _ _ Hwf2 Hsup2 Hlive Hrun) as (used & Hacc).
      pose proof (allocate_walk_extends _ _ _ _ _ _ Hwf2 Hsup2 Hlive Hrun) as [_ Hext].
      destruct (allocate_aligned_page_pending s a s1 Hsup Hrun1)
        as [(-> & _)|(_ & Hheap1 & Hp)]; [done|].
      exists (Some a :: used).
      eapply (account_lift_new va below cur s s2); try done.
      * rewrite Hp. f_equal. symmetry. eapply store_pending; [|exact Hst].
        rewrite Hheap1, peek_fresh, decide_False; [by eexists|].
        intros ->. by apply Hdead.
      * apply Hext; [done|apply make_entry_nonzero].
Qed.

Lemma allocate_walk_ptbr va level cur s r s' :
  wf s → supply_ok s → live (heap s) cur →
  allocate_walk va level cur s = Some (r, s') → ptbr s' = ptbr s.
Proof.
  intros Hwf Hsup Hcur Hrun.
  destruct (allocate_walk_spec va level cur s Hwf Hsup Hcur)
    as (r0 & s0 & Hrun0 & _ & _ & _ & Hroot & _).
  rewrite Hrun in Hrun0. by injection Hrun0 as <- <-.
Qed.

(** With a root, [page_allocate] is the walk from the root. *)
Lemma page_allocate_rooted va s :
  ptbr s ≠ 0 → page_allocate va s = allocate_walk va (LEVELS - 1) (ptbr s) s.
Proof.
  intros Hroot. unfold page_allocate, page_allocate_within.
  fold (is_address_valid va). rewrite is_address_valid_true. cbn [negb].
  rewrite (bind_run _ _ s (ptbr s) s eq_refl).
  destruct (Z.eqb_spec (ptbr s) 0); [done|].
  unfold allocate_from_root. by rewrite (bind_run _ _ s (ptbr s) s eq_refl).
Qed.

(** The books of a whole call of [page_allocate]. *)
Lemma page_allocate_account va s r s' :
  wf s → supply_ok s → page_allocate va s = Some (r, s') →
  ∃ used,
    pending s = used ++ pending s' ∧
    (length used ≤ LEVELS + 1)%nat ∧
    (∀ q, live (heap s') q ↔ live (heap s) q ∨ Some q ∈ used) ∧
    (r = ExitDone → None ∉ used) ∧
    (r = ExitNoMem →
       lookup_leaf s' va = None ∧
       (None ∈ used ∨ (pending s' = [] ∧ (length used < LEVELS + 1)%nat))).
Proof.
  intros Hwf Hsup Hrun.
  destruct (decide (ptbr s = 0)) as [Hnull|Hset].
  - revert Hrun. unfold page_allocate, page_allocate_within.
    fold (is_address_valid va). rewrite is_address_valid_true. cbn [negb].
    rewrite (bind_run _ _ s (ptbr s) s eq_refl).
    destruct (Z.eqb_spec (ptbr s) 0); [|done].
    destruct (allocate_aligned_page_cases s Hsup)
      as (a & s1 & Hrun1 & Hsup1 & Hroot1 & Hcases).
    rewrite (bind_run _ _ _ _ _ Hrun1).
    destruct (allocate_aligned_page_pending s a s1 Hsup Hrun1)
      as [(-> & Hheap & Hp)|(Hnz & Hheap & Hp)].
    + simpl. intros [= <- <-].
      assert (lookup_leaf s1 va = None) as Hleaf
        by (unfold lookup_leaf; by rewrite Hroot1, Hnull).
      destruct Hp as [[Hp Hp1]|Hp].
      * exists []. rewrite Hheap, Hp, Hp1. split_and!; try done.
        -- unfold LEVELS. simpl. lia.
        -- set_solver.
        -- intros _. split; [done|]. right. split; [done|]. unfold LEVELS. simpl. lia.
      * exists [None]. rewrite Hheap. split_and!; try done.
        -- unfold LEVELS. simpl. lia.
        -- set_solver.
        -- intros _. split; [done|]. left. set_solver.
    + destruct Hcases as [[? _]|(Ha & Hdead & _)]; [done|].
      apply Z.eqb_neq in Hnz as Hnzb. rewrite Hnzb.
      rewrite (bind_run _ _ s1 tt (Machine a (heap s1) (pending s1)) eq_refl).
      set (s2 := Machine a (heap s1) (pending s1)).
      unfold allocate_from_root. rewrite (bind_run _ _ s2 a s2 eq_refl).
      intros Hwalk.
      assert (wf s2) as Hwf2.
      { eapply (wf_same (Machine a (<[a:=zero_page]> (heap s)) (pending s1)));
          [done|done|by apply wf_new_root]. }
      assert (supply_ok s2) as Hsup2 by by eapply (supply_ok_shrink s1).
      assert (live (heap s2) a) as Hlive
        by (simpl; rewrite Hheap; apply live_fresh; by left).
      destruct (allocate_walk_account va _ a s2 r s' Hwf2 Hsup2 Hlive Hwalk)
        as (used & Hpu & Hlen & Hlv & Hdone & Hfail & _).
      pose proof (allocate_walk_ptbr va _ a s2 r s' Hwf2 Hsup2 Hlive Hwalk) as Hroot'.
      simpl in Hroot', Hpu, Hlv. exists (Some a :: used). split_and!.
      * by rewrite Hp, Hpu.
      * unfold LEVELS in *. simpl in *. lia.
      * intros q. rewrite Hlv, Hheap, live_fresh. set_solver.
      * intros Hr. specialize (Hdone Hr). set_solver.
      * intros Hr. destruct (Hfail Hr) as [Hw Hwhy]. split.
        -- unfold lookup_leaf. rewrite Hroot', Hnzb. done.
        -- destruct Hwhy as [?|[? ?]]; [left; set_solver|right].
           split; [done|]. unfold LEVELS in *. simpl in *. lia.
  - rewrite (page_allocate_rooted va s Hset) in Hrun.
    destruct (wf_root s Hwf) as [?|Hlive]; [done|].
    destruct (allocate_walk_account va _ _ s r s' Hwf Hsup Hlive Hrun)
      as (used & Hpu & Hlen & Hlv & Hdone & Hfail & _).
    pose proof (allocate_walk_ptbr va _ _ s r s' Hwf Hsup Hlive Hrun) as Hroot'.
    exists used. split_and!; try done.
    + unfold LEVELS in *. simpl in *. lia.
    + intros Hr. destruct (Hfail Hr) as [Hw Hwhy]. split.
      * unfold lookup_leaf. rewrite Hroot'.
        by destruct (Z.eqb_spec (ptbr s) 0).
      * destruct Hwhy as [?|[? ?]]; [by left|right].
        split; [done|]. unfold LEVELS in *. simpl in *. lia.
Qed.

(** ** page_allocate followed by page_deallocate, whatever the exit *)

(** C2, as stated, fails when the request for memory fails: the call of
    [page_allocate] maps nothing and [page_deallocate] returns 0. *)
Lemma deallocate_after_failed_allocate :
  reachable starved_start ∧
  page_allocate 0 starved_start = Some (ExitNoMem, boot) ∧
  page_deallocate 0 boot = Some (0, boot).
Proof.
  split; [apply starved_start_reachable|]. split; by vm_compute.
Qed.

(** C2, amended: in every reachable state [page_allocate] of an address
    and then [page_deallocate] of it both return, and [translate] of the
    address then returns [NOT_MAPPED], whether or not the allocation went
    through; [page_deallocate] returns 1 exactly when it did, and returns
    0, changing nothing, when a request for memory failed. *)
Theorem deallocate_after_allocate (va : Z) (s : machine) :
  reachable s →
  ∃ r1 s1 r s2,
    page_allocate va s = Some (r1, s1) ∧
    page_deallocate va s1 = Some (r, s2) ∧
    translate va s2 = Some (NOT_MAPPED, s2) ∧
    (r = 1 ↔ r1 = ExitDone) ∧
    (r1 = ExitDone ∧ r = 1 ∨ r1 = ExitNoMem ∧ r = 0 ∧ s2 = s1).
Proof.
  intros [Hwf Hsup]%reach_wf.
  destruct (page_allocate_spec va s Hwf Hsup)
    as (r1 & s1 & Hrun & Hexit & Hwf1 & Hsup1 & _ & _ & _ & Hdone & _).
  destruct (page_allocate_account va s r1 s1 Hwf Hsup Hrun)
    as (used & _ & _ & _ & _ & Hfail).
  destruct (page_deallocate_spec va s1 Hwf1 Hsup1)
    as (r & s2 & Hrun2 & Hwf2 & _ & _ & _ & Hr & Hsame).
  exists r1, s1, r, s2. split; [done|]. split; [done|].
  destruct r1; [done| |].
  - (* a request failed: nothing is mapped *)
    destruct (Hfail eq_refl) as [Hleaf _]. rewrite Hleaf in Hr.
    rewrite (Hsame Hleaf) in *. subst r. split_and!.
    + rewrite translate_spec by done. unfold translation. by rewrite Hleaf.
    + done.
    + right. done.
  - (* the call went through *)
    destruct (Hdone eq_refl) as [e0 Hleaf]. rewrite Hleaf in Hr. subst r.
    apply lookup_leaf_path in Hleaf as (e2 & e1 & Hpath).
    rewrite (page_deallocate_mapped s1 va e2 e1 e0 Hwf1 Hpath) in Hrun2.
    injection Hrun2 as <-. split_and!.
    + rewrite translate_spec by (by eapply wf_reclaimed).
      unfold translation. by erewrite lookup_leaf_reclaimed.
    + done.
    + left. done.
Qed.

Lemma deallocate_after_allocate_witness :
  (∃ r1 s1 r s2,
     page_allocate 4660 demo_start = Some (r1, s1) ∧
     page_deallocate 4660 s1 = Some (r, s2) ∧
     translate 4660 s2 = Some (NOT_MAPPED, s2) ∧
     (r = 1 ↔ r1 = ExitDone) ∧
     (r1 = ExitDone ∧ r = 1 ∨ r1 = ExitNoMem ∧ r = 0 ∧ s2 = s1)) ∧
  (∃ r1 s1 r s2,
     page_allocate 0 starved_start = Some (r1, s1) ∧
     page_deallocate 0 s1 = Some (r, s2) ∧
     translate 0 s2 = Some (NOT_MAPPED, s2) ∧
     (r = 1 ↔ r1 = ExitDone) ∧
     (r1 = ExitDone ∧ r = 1 ∨ r1 = ExitNoMem ∧ r = 0 ∧ s2 = s1)).
Proof.
  split.
  - apply (deallocate_after_allocate 4660 demo_start). apply demo_start_reachable.
  - apply (deallocate_after_allocate 0 starved_start). apply starved_start_reachable.
Defined.

(** X12: the address is mapped when [page_allocate] returns exactly when
    the call went through: a call that runs out of memory leaves the
    address unmapped, and the bounds check refuses nothing. *)
Theorem allocate_exit_tells (va : Z) (r : alloc_exit) (s s' : machine) :
  reachable s →
  page_allocate va s = Some (r, s') →
  ∃ pa, translate va s' = Some (pa, s') ∧
    (r = ExitDone ∧ pa ≠ NOT_MAPPED ∨ r = ExitNoMem ∧ pa = NOT_MAPPED).
Proof.
  intros [Hwf Hsup]%reach_wf Hrun.
  destruct (page_allocate_spec va s Hwf Hsup)
    as (r0 & s0 & Hrun0 & Hexit & Hwf' & _ & _ & _ & _ & Hdone & _).
  rewrite Hrun in Hrun0. injection Hrun0 as <- <-.
  destruct (page_allocate_account va s r s' Hwf Hsup Hrun)
    as (used & _ & _ & _ & _ & Hfail).
  exists (translation s' va). split; [by apply translate_spec|].
  destruct r; [done| |].
  - right. split; [done|]. destruct (Hfail eq_refl) as [Hleaf _].
    unfold translation. by rewrite Hleaf.
  - left. split; [done|]. apply translation_mapped_iff; [done|]. by apply Hdone.
Qed.

Lemma allocate_exit_tells_witness :
  (∃ pa, translate 0 half_built = Some (pa, half_built) ∧
     (ExitNoMem = ExitDone ∧ pa ≠ NOT_MAPPED ∨ ExitNoMem = ExitNoMem ∧ pa = NOT_MAPPED)) ∧
  (∃ pa, translate 0 demo_mapped = Some (pa, demo_mapped) ∧
     (ExitDone = ExitDone ∧ pa ≠ NOT_MAPPED ∨ ExitDone = ExitNoMem ∧ pa = NOT_MAPPED)).
Proof.
  split.
  - apply (allocate_exit_tells 0 ExitNoMem (supply [Some 4096; Some 8192] boot));
      [|by vm_compute].
    apply reach_supply; [constructor|]. split; simpl.
    + repeat (apply NoDup_cons; split; [set_solver|]). constructor.
    + intros a Ha. split.
      * apply page_addr_sample. set_unfold. by destruct_or!; simplify_eq.
      * intros [t Ht]. by rewrite lookup_empty in Ht.
  - apply (allocate_exit_tells 0 ExitDone demo_start);
      [apply demo_start_reachable|apply demo_mapped_run].
Defined.

(** X13: [page_allocate] makes at most [LEVELS + 1] requests for memory;
    the answers it took are a prefix of the pending ones, and the blocks
    that are live when it returns are those that were live before and
    those it was given: it frees nothing and keeps all it gets. *)
Theorem allocate_requests (va : Z) (r : alloc_exit) (s s' : machine) :
  reachable s →
  page_allocate va s = Some (r, s') →
  ∃ used,
    pending s = used ++ pending s' ∧
    (length used ≤ LEVELS + 1)%nat ∧
    (∀ q, live (heap s') q ↔ live (heap s) q ∨ Some q ∈ used) ∧
    (r = ExitDone → None ∉ used).
Proof.
  intros [Hwf Hsup]%reach_wf Hrun.
  destruct (page_allocate_account va s r s' Hwf Hsup Hrun)
    as (used & ? & ? & ? & ? & _).
  by exists used.
Qed.

Lemma allocate_requests_witness :
  ∃ used,
    pending demo_start = used ++ pending demo_mapped ∧
    (length used ≤ LEVELS + 1)%nat ∧
    (∀ q, live (heap demo_mapped) q ↔ live (heap demo_start) q ∨ Some q ∈ used) ∧
    (ExitDone = ExitDone → None ∉ used).
Proof.
  apply (allocate_requests 0 ExitDone demo_start demo_mapped);
    [apply demo_start_reachable|apply demo_mapped_run].
Defined.

(** X14: when the next [LEVELS + 1] requests for memory are going to
    succeed, [page_allocate] goes through and the address is mapped when
    it returns, whatever the address and whatever is mapped already. *)
Theorem enough_memory_suffices (va : Z) (s : machine) :
  reachable s →
  (∀ k, (k < LEVELS + 1)%nat → ∃ a, pending s !! k = Some (Some a)) →
  ∃ s' pa, page_allocate va s = Some (ExitDone, s') ∧
    translate va s' = Some (pa, s') ∧ pa ≠ NOT_MAPPED ∧
    Z.land pa (PAGE_SIZE - 1) = Z.land va (PAGE_SIZE - 1).
Proof.
  intros [Hwf Hsup]%reach_wf Hmem.
  destruct (page_allocate_spec va s Hwf Hsup)
    as (r & s' & Hrun & Hexit & Hwf' & _ & _ & _ & _ & Hdone & _).
  destruct (page_allocate_account va s r s' Hwf Hsup Hrun)
    as (used & Hp & Hlen & _ & _ & Hfail).
  exists s', (translation s' va). destruct r; [done| |].
  - exfalso. destruct (Hfail eq_refl) as [_ [Hnone|[Hempty Hshort]]].
    + apply list_elem_of_lookup in Hnone as [k Hk].
      pose proof (lookup_lt_Some _ _ _ Hk) as Hlt.
      destruct (Hmem k) as [a Ha]; [lia|].
      rewrite Hp, lookup_app_l, Hk in Ha by done. done.
    + destruct (Hmem (length used)) as [a Ha]; [lia|].
      rewrite Hp, Hempty, app_nil_r in Ha.
      apply lookup_lt_Some in Ha. lia.
  - destruct (Hdone eq_refl) as [e0 Hleaf].
    destruct (translation_mapped s' va e0 Hwf' Hleaf) as (Hpa & Hsum & Hne & _).
    split_and!; [done|by apply translate_spec|done|].
    rewrite Hsum. destruct Hpa as (Hal & _).
    change (PAGE_SIZE - 1) with (Z.ones 10). rewrite !Z.land_ones by lia.
    change PAGE_SIZE with 1024 in Hal. change (2 ^ 10) with 1024.
    Z.div_mod_to_equations. lia.
Qed.

Lemma enough_memory_suffices_witness :
  ∃ s' pa, page_allocate 4660 demo_start = Some (ExitDone, s') ∧
    translate 4660 s' = Some (pa, s') ∧ pa ≠ NOT_MAPPED ∧
    Z.land pa (PAGE_SIZE - 1) = Z.land 4660 (PAGE_SIZE - 1).
Proof.
  apply (enough_memory_suffices 4660 demo_start); [apply demo_start_reachable|].
  intros k Hk. unfold LEVELS in Hk.
  destruct k as [|[|[|[|?]]]]; [by eexists..|simpl in Hk; lia].
Defined.

(** ** page_allocate then page_deallocate *)

Section RoundTrip.
Variables (s s1 : machine) (va e2 e1 e0 : Z) (used : list (option Z)).
Hypothesis Hwf : wf s.
Hypothesis Hsup : supply_ok s.
Hypothesis Hne : no_empty_child s.
Hypothesis Hroot : ptbr s ≠ 0.
Hypothesis Hunmapped : lookup_leaf s va = None.
Hypothesis Hwf1 : wf s1.
Hypothesis Hptbr : ptbr s1 = ptbr s.
Hypothesis Hext : extends s s1.
Hypothesis Hpath : mapped_path s1 va e2 e1 e0.
Hypothesis Hacc : allocate_account va 2 (ptbr s) s ExitDone s1 used.

Local Abbreviation i2 := (extract_level_index va 2).
Local Abbreviation i1 := (extract_level_index va 1).
Local Abbreviation i0 := (extract_level_index va 0).
Local Abbreviation t2 := (ptbr s).
Local Abbreviation t1 := (ENTRY_TO_PHYS_ADDR e2).
Local Abbreviation t0 := (ENTRY_TO_PHYS_ADDR e1).
Local Abbreviation page := (ENTRY_TO_PHYS_ADDR e0).

Lemma used_dead a : Some a ∈ used → ¬ live (heap s) a.
Proof.
  intros Hin. destruct Hacc as (Hp & _). destruct Hsup as [_ Hok].
  apply (Hok a). rewrite Hp. apply elem_of_app. by left.
Qed.

Lemma on_walk_path k p :
  on_walk (heap s1) va 2 t2 k p →
  (k = 2%nat ∧ p = t2) ∨ (k = 1%nat ∧ p = t1) ∨ (k = 0%nat ∧ p = t0).
Proof.
  destruct Hpath as (_ & H2 & _ & H1 & _). rewrite Hptbr in H2.
  induction 1 as [|level p e Hp IH He Hv]; [by left|].
  destruct IH as [[Hk ->]|[[Hk ->]|[Hk _]]]; [| |lia].
  - assert (level = 1%nat) as -> by lia. right. left.
    rewrite H2 in He. by injection He as <-.
  - assert (level = 0%nat) as -> by lia. right. right.
    rewrite H1 in He. by injection He as <-.
Qed.

(** An entry of a block of [s] is as it was, or it was zero and is on the
    path now. *)
Lemma entry_change q j :
  live (heap s) q →
  peek (heap s1) q j = peek (heap s) q j ∨
  (peek (heap s) q j = Some 0 ∧
   ((q = t2 ∧ j = i2) ∨ (q = t1 ∧ j = i1) ∨ (q = t0 ∧ j = i0))).
Proof.
  intros Hq. destruct Hext as [Hlive Hkeep].
  destruct Hacc as (_ & _ & _ & _ & _ & Hlinks & _).
  destruct (peek (heap s) q j) as [y|] eqn:Hy; last first.
  { left. destruct (peek (heap s1) q j) as [x|] eqn:Hx; [|done].
    assert (is_Some (peek (heap s) q j)) as [? ?]; [|congruence].
    apply (wf_size s Hwf q j Hq), (wf_size s1 Hwf1 q j (Hlive q Hq)). by eexists. }
  destruct (decide (y = 0)) as [->|Hnz]; [|left; by apply Hkeep].
  destruct (peek (heap s1) q j) as [x|] eqn:Hx; last first.
  { assert (is_Some (peek (heap s1) q j)) as [? ?]; [|congruence].
    apply (wf_size s1 Hwf1 q j (Hlive q Hq)), (wf_size s Hwf q j Hq). by eexists. }
  destruct (decide (x = 0)) as [->|Hnx]; [by left|right]. split; [done|].
  destruct (Hlinks q j x Hx Hnx) as [Hold|(_ & k & Hk & ->)]; [congruence|].
  destruct (on_walk_path k q Hk) as [[-> ->]|[[-> ->]|[-> ->]]]; tauto.
Qed.

(** An entry of the path is an entry of [s], or it names a block that
    [page_allocate] was given. *)
Lemma path_entry_origin p i e :
  peek (heap s1) p i = Some e → pte_valid e = true →
  (peek (heap s) p i = Some e ∧ live (heap s) (ENTRY_TO_PHYS_ADDR e)) ∨
  (peek (heap s) p i ≠ Some e ∧ ¬ live (heap s) (ENTRY_TO_PHYS_ADDR e)).
Proof.
  intros He Hv. destruct Hacc as (_ & _ & _ & _ & _ & Hlinks & _).
  destruct (Hlinks p i e He (pte_valid_nonzero e Hv)) as [Hold|(Hin & _)].
  - left. split; [done|]. by destruct (wf_target s p i e Hwf Hold Hv) as (_ & ? & _).
  - right. pose proof (used_dead _ Hin) as Hdead. split; [|done].
    intros Hold. by destruct (wf_target s p i e Hwf Hold Hv) as (_ & ? & _).
Qed.

(** The blocks [page_allocate] was given are on the path. *)
Lemma used_on_path a : Some a ∈ used → a = t1 ∨ a = t0 ∨ a = page.
Proof.
  intros Hin. destruct Hacc as (_ & _ & _ & _ & _ & _ & Hnamed).
  destruct Hpath as (_ & H2 & _ & H1 & _ & H0 & _). rewrite Hptbr in H2.
  destruct (Hsup) as [_ Hok].
  assert (page_addr a) as Ha.
  { apply (Hok a). destruct Hacc as (Hp & _). rewrite Hp. apply elem_of_app. by left. }
  destruct (Hnamed a Hin) as (k & p & Hk & Hpk).
  destruct (on_walk_path k p Hk) as [[-> ->]|[[-> ->]|[-> ->]]].
  - left. rewrite H2 in Hpk. injection Hpk as ->. by rewrite phys_make_entry.
  - right. left. rewrite H1 in Hpk. injection Hpk as ->. by rewrite phys_make_entry.
  - right. right. rewrite H0 in Hpk. injection Hpk as ->. by rewrite phys_make_entry.
Qed.

(** A table that is new holds its path entry only. *)
Lemma new_table_bare k p :
  on_walk (heap s1) va 2 t2 k p → ¬ live (heap s) p →
  bare (heap s1) p (extract_level_index va k).
Proof.
  intros Hk Hdead j x Hx Hj. destruct (decide (x = 0)) as [->|Hnx]; [done|].
  destruct Hacc as (_ & _ & _ & _ & _ & Hlinks & _).
  destruct (path_distinct s1 va e2 e1 e0 Hwf1 Hpath) as (Hd12 & Hd02 & Hd01 & _).
  rewrite Hptbr in Hd12, Hd02.
  destruct (Hlinks p j x Hx Hnx) as [Hold|(_ & k' & Hk' & ->)].
  - destruct Hdead. by eapply peek_live.
  - destruct (on_walk_path k p Hk) as [[-> ->]|[[-> ->]|[-> ->]]],
             (on_walk_path k' _ Hk') as [[-> ?]|[[-> ?]|[-> ?]]];
      done || congruence.
Qed.

(** A table of [s] whose path entry is new has another valid entry. *)
Lemma old_table_not_bare level p q i e :
  table_at s (S level) q → peek (heap s) q i = Some e → pte_valid e = true →
  p = ENTRY_TO_PHYS_ADDR e →
  peek (heap s) p (extract_level_index va level) = Some 0 →
  ¬ bare (heap s1) p (extract_level_index va level).
Proof.
  intros Hat He Hv -> Hzero Hbare.
  destruct (Hne level q i e Hat He Hv) as (j & y & Hy & Hvy).
  assert (j ≠ extract_level_index va level) as Hj.
  { intros ->. rewrite Hzero in Hy. injection Hy as <-. done. }
  destruct Hext as [_ Hkeep].
  rewrite (Hbare j y (Hkeep _ _ _ Hy (pte_valid_nonzero y Hvy)) Hj) in Hvy. done.
Qed.
(** The heap after the address is deallocated again. *)
Lemma round_trip_heap :
  (∀ q j, live (heap s) q →
     peek (reclaimed (heap s1) (ptbr s1) i2 t1 i1 t0 i0) q j = peek (heap s) q j) ∧
  ¬ live (heap s) page ∧
  (∀ q, live (reclaimed (heap s1) (ptbr s1) i2 t1 i1 t0 i0) q ↔
        live (heap s) q ∨ q = page).
Proof.
  pose proof Hpath as (_ & H2 & Hv2 & H1 & Hv1 & H0 & Hv0).
  destruct (path_distinct s1 va e2 e1 e0 Hwf1 Hpath) as (Hd12 & Hd02 & Hd01 & _).
  destruct (wf_target s1 _ _ e0 Hwf1 H0 Hv0) as (_ & Hpage1 & _ & Hdpr & Hdp0).
  assert (page ≠ t1) as Hdp1.
  { intros Heq. destruct (names_inj s1 _ _ e0 _ _ e2 Hwf1 H0 Hv0 H2 Hv2 Heq) as (? & _).
    congruence. }
  pose proof (vacant_m0 s1 va e2 e1 e0 Hpath) as Hb0.
  pose proof (vacant_m1 s1 va e2 e1 e0 Hwf1 Hpath) as Hb1.
  rewrite Hptbr in *.
  assert (live (heap s) t2) as Hl2 by by destruct (wf_root s Hwf).
  assert (on_walk (heap s1) va 2 t2 1 t1) as Hw1
    by (eapply walk_down; [constructor|exact H2|done]).
  assert (on_walk (heap s1) va 2 t2 0 t0) as Hw0
    by (eapply walk_down; [exact Hw1|exact H1|done]).
  destruct Hacc as (_ & _ & Hlive1 & _).
  destruct Hext as [Hkeepl _].
  assert (∀ q, Some q ∈ used → q = page ∨ (q = t1 ∧ ¬ live (heap s) t1)
                              ∨ (q = t0 ∧ ¬ live (heap s) t0)) as Hused.
  { intros q Hin. pose proof (used_dead q Hin) as Hdead.
    destruct (used_on_path q Hin) as [-> | [-> | ->]]; tauto. }
  destruct (path_entry_origin t0 i0 e0 H0 Hv0) as [[O0 L0]|[N0 D0]].
  { (* the leaf entry was there: the address was mapped *)
    exfalso.
    destruct (path_entry_origin t1 i1 e1 H1 Hv1) as [[O1 L1]|[N1 D1]];
      [|destruct D1; by eapply peek_live].
    destruct (path_entry_origin t2 i2 e2 H2 Hv2) as [[O2 L2]|[N2 D2]];
      [|destruct D2; by eapply peek_live].
    assert (lookup_leaf s va = Some e0) as Hmapped; [|congruence].
    apply lookup_leaf_path. by exists e2, e1. }
  split_and!; [|done|].
  all: destruct (path_entry_origin t1 i1 e1 H1 Hv1) as [[O1 L1]|[N1 D1]].
  all: destruct (path_entry_origin t2 i2 e2 H2 Hv2) as [[O2 L2]|[N2 D2]];
    try (destruct D2; by eapply peek_live).
  all: try (assert (¬ bare (heap s1) t0 i0) as Hn0;
    [apply (old_table_not_bare 0 t0 t1 i1 e1); try done;
     [split; [done|]; eapply sub_child; [constructor|exact O2|done]|];
     destruct (entry_change t0 i0 L1) as [Hsame|[? _]]; [congruence|done]|]).
  all: try (assert (bare (heap s1) t0 i0) as Hy0
    by by apply (new_table_bare 0 t0)).
  all: try (assert (¬ bare (heap s1) t1 i1) as Hn1;
    [apply (old_table_not_bare 1 t1 t2 i2 e2); try done;
     [split; [done|]; constructor|];
     destruct (entry_change t1 i1 L2) as [Hsame|[? _]]; [congruence|done]|]).
  all: try (assert (bare (heap s1) t1 i1) as Hy1
    by by apply (new_table_bare 1 t1)).
  all: unfold reclaimed.
  all: try (rewrite (not_true_is_false (vacant (poke (heap s1) t0 i0 0) t0))
              by (intros Hvac0; apply Hb0 in Hvac0; tauto)).
  all: try (apply Hb0 in Hy0 as Hvac0; rewrite Hvac0).
  all: try (rewrite (not_true_is_false
                       (vacant (poke (delete t0 (poke (heap s1) t0 i0 0)) t1 i1 0) t1))
              by (intros Hvac1; apply Hb1 in Hvac1; tauto)).
  all: try (apply Hb1 in Hy1 as Hvac1; rewrite Hvac1).
  - (* the two tables were there *)
    intros q j Hq. rewrite (peek_m0 s1 va e2 e1 e0 Hpath). case_decide as Hqj.
    + destruct Hqj as [-> ->].
      destruct (entry_change t0 i0 L1) as [Hsame|[? _]]; [congruence|done].
    + destruct (entry_change q j Hq) as [?|[Hz [[-> ->]|[[-> ->]|[-> ->]]]]];
        done || congruence || tauto.
  - (* the table above the leaf table was there *)
    intros q j Hq. rewrite (peek_m1 s1 va e2 e1 e0 Hwf1 Hpath). case_decide as Hqj.
    + destruct Hqj as [-> ->].
      destruct (entry_change t1 i1 L2) as [Hsame|[? _]]; [congruence|done].
    + rewrite decide_False by (intros ->; done).
      destruct (entry_change q j Hq) as [?|[Hz [[-> ->]|[[-> ->]|[-> ->]]]]];
        done || congruence || tauto.
  - (* the root only was there *)
    intros q j Hq. pose proof (peek_m2 s1 va e2 e1 e0 Hwf1 Hpath q j) as Hp2.
    rewrite Hptbr in Hp2. rewrite Hp2.
    case_decide as Hqj.
    + destruct Hqj as [-> ->].
      destruct (entry_change t2 i2 Hl2) as [Hsame|[? _]]; [congruence|done].
    + rewrite decide_False by (intros [->| ->]; done).
      destruct (entry_change q j Hq) as [?|[Hz [[-> ->]|[[-> ->]|[-> ->]]]]];
        done || congruence || tauto.
  - intros q. rewrite (live_m0 s1 va e1), Hlive1. split.
    + intros [?|Hin]; [by left|]. destruct (Hused q Hin) as [?|[[? ?]|[? ?]]]; tauto.
    + intros [?| ->]; [by left|]. apply Hlive1. done.
  - intros q. rewrite (live_m1 s1 va e2 e1), Hlive1. split.
    + intros [Hq0 [?|Hin]]; [by left|].
      destruct (Hused q Hin) as [?|[[? ?]|[? ?]]]; tauto.
    + intros [Hq| ->].
      * split; [by intros ->|by left].
      * split; [done|]. by apply Hlive1.
  - intros q. pose proof (live_m2 s1 va e2 e1 q) as Hl. rewrite Hptbr in Hl.
    rewrite Hl, Hlive1. split.
    + intros (Hq1 & Hq0 & [?|Hin]); [by left|].
      destruct (Hused q Hin) as [?|[[? ?]|[? ?]]]; tauto.
    + intros [Hq| ->].
      * split_and!; [by intros ->|by intros ->|by left].
      * split_and!; [done|done|]. by apply Hlive1.
Qed.
End RoundTrip.

Lemma unstarved_no_empty_child s : reachable_unstarved s → no_empty_child s.
Proof.
  induction 1 as [|s o Hs IH Hok|s va r s' Hs IH Hrun
                  |s va r s' Hs IH Hrun ->|s va r s' Hs IH Hrun].
  - by intros level p i e [Hnz _].
  - done.
  - by apply translate_pure in Hrun as ->.
  - destruct (reach_wf _ _ Hs) as [Hwf Hsup].
    destruct (page_allocate_spec va s Hwf Hsup) as (r0 & s0 & Hrun0 & Hpost).
    rewrite Hrun in Hrun0. injection Hrun0 as <- <-.
    by eapply allocate_keeps_no_empty_child.
  - destruct (reach_wf _ _ Hs) as [Hwf Hsup].
    by eapply deallocate_keeps_no_empty_child.
Qed.

(** X15: mapping an unmapped address and unmapping it again, in a state
    with a root that no failed request for memory has touched, puts every
    table back: [page_deallocate] returns 1 and the address is unmapped
    again, the root is the same, the blocks that were live keep all their
    entries, and the one block that is live afterwards and was not before
    is the data page, the page [translate] gave for the address while it
    was mapped; every other block the mapping created, that is every
    table, is freed again. *)
Theorem allocate_then_deallocate (va r : Z) (s s1 s2 : machine) :
  reachable_unstarved s → ptbr s ≠ 0 →
  translate va s = Some (NOT_MAPPED, s) →
  page_allocate va s = Some (ExitDone, s1) →
  page_deallocate va s1 = Some (r, s2) →
  r = 1 ∧ ptbr s2 = ptbr s ∧
  translate va s2 = Some (NOT_MAPPED, s2) ∧
  (∀ q j, live (heap s) q → peek (heap s2) q j = peek (heap s) q j) ∧
  ∃ page, page_addr page ∧ ¬ live (heap s) page ∧
    translate va s1 = Some (page + Z.land va (PAGE_SIZE - 1), s1) ∧
    (∀ q, live (heap s2) q ↔ live (heap s) q ∨ q = page) ∧
    (∀ q, live (heap s1) q → ¬ live (heap s) q → q ≠ page → ¬ live (heap s2) q).
Proof.
  intros Hs Hroot Htr Hal Hde.
  pose proof (unstarved_no_empty_child s Hs) as Hne.
  apply reachable_unstarved_reachable, reach_wf in Hs as [Hwf Hsup].
  assert (lookup_leaf s va = None) as Hleaf.
  { rewrite (translate_spec va s Hwf) in Htr. injection Htr as Htr.
    destruct (lookup_leaf s va) as [e|] eqn:He; [|done].
    by destruct (translation_mapped s va e Hwf He) as (_ & _ & ? & _). }
  destruct (page_allocate_spec va s Hwf Hsup)
    as (r0 & s0 & Hrun0 & _ & Hwf1 & _ & Hptbr & _ & Hext & Hdone & _).
  rewrite Hal in Hrun0. injection Hrun0 as <- <-.
  specialize (Hptbr Hroot). destruct (Hdone eq_refl) as [e0 Hleaf1].
  destruct (translation_mapped s1 va e0 Hwf1 Hleaf1) as (Hpa & Hsum & _).
  pose proof (translate_spec va s1 Hwf1) as Htr1. rewrite Hsum in Htr1.
  pose proof Hleaf1 as (e2 & e1 & Hpath)%lookup_leaf_path.
  rewrite page_allocate_rooted in Hal by done.
  assert (live (heap s) (ptbr s)) as Hlr by by destruct (wf_root s Hwf).
  destruct (allocate_walk_account va _ _ s _ s1 Hwf Hsup Hlr Hal) as [used Hacc].
  rewrite (page_deallocate_mapped s1 va e2 e1 e0 Hwf1 Hpath) in Hde.
  injection Hde as <- <-.
  assert (translate va
            (Machine (ptbr s1)
               (reclaimed (heap s1) (ptbr s1) (extract_level_index va 2)
                  (ENTRY_TO_PHYS_ADDR e2) (extract_level_index va 1)
                  (ENTRY_TO_PHYS_ADDR e1) (extract_level_index va 0))
               (pending s1)) = Some (NOT_MAPPED, Machine (ptbr s1)
               (reclaimed (heap s1) (ptbr s1) (extract_level_index va 2)
                  (ENTRY_TO_PHYS_ADDR e2) (extract_level_index va 1)
                  (ENTRY_TO_PHYS_ADDR e1) (extract_level_index va 0))
               (pending s1))) as Htr2.
  { rewrite translate_spec by (by eapply wf_reclaimed).
    unfold translation. by erewrite lookup_leaf_reclaimed. }
  cbn [ptbr heap].
  destruct (round_trip_heap s s1 va e2 e1 e0 used) as (Hkeep & Hdead & Hlive);
    try done.
  split_and!; [done|done|done|done|].
  exists (ENTRY_TO_PHYS_ADDR e0). split_and!; [done|done|done|done|].
  intros q Hq1 Hq Hqp Hq2. apply Hlive in Hq2 as [?|?]; done.
Qed.

Lemma demo_refilled_unstarved : reachable_unstarved demo_refilled.
Proof.
  apply reach_supply.
  - eapply reach_deallocate; [apply demo_mapped_unstarved|apply demo_unmapped_run].
  - split; simpl.
    + repeat (apply NoDup_cons; split; [set_solver|]). constructor.
    + intros a Ha. split.
      * apply page_addr_sample. set_unfold. by destruct_or!; simplify_eq.
      * set_unfold. destruct_or!; simplify_eq; intros [t Ht]; by vm_compute in Ht.
Qed.

Lemma allocate_then_deallocate_witness :
  1 = 1 ∧
  ptbr (after (page_deallocate 0) (after (page_allocate 0) demo_refilled))
    = ptbr demo_refilled ∧
  translate 0 (after (page_deallocate 0) (after (page_allocate 0) demo_refilled))
    = Some (NOT_MAPPED,
            after (page_deallocate 0) (after (page_allocate 0) demo_refilled)) ∧
  (∀ q j, live (heap demo_refilled) q →
     peek (heap (after (page_deallocate 0) (after (page_allocate 0) demo_refilled))) q j
     = peek (heap demo_refilled) q j) ∧
  ∃ page, page_addr page ∧ ¬ live (heap demo_refilled) page ∧
    translate 0 (after (page_allocate 0) demo_refilled)
      = Some (page + Z.land 0 (PAGE_SIZE - 1), after (page_allocate 0) demo_refilled) ∧
    (∀ q, live (heap (after (page_deallocate 0) (after (page_allocate 0) demo_refilled))) q
          ↔ live (heap demo_refilled) q ∨ q = page) ∧
    (∀ q, live (heap (after (page_allocate 0) demo_refilled)) q →
          ¬ live (heap demo_refilled) q → q ≠ page →
          ¬ live (heap (after (page_deallocate 0) (after (page_allocate 0) demo_refilled))) q).
Proof.
  apply (allocate_then_deallocate 0 1 demo_refilled
           (after (page_allocate 0) demo_refilled)
           (after (page_deallocate 0) (after (page_allocate 0) demo_refilled))).
  - apply demo_refilled_unstarved.
  - by vm_compute.
  - by vm_compute.
  - by vm_compute.
  - by vm_compute.
Defined.

(** ** The page a new mapping names *)

(** A non-zero entry after [page_allocate] was there before, or it is the
    entry for [va] in a table on the path of [va] and names a block that
    was not live. *)
Lemma page_allocate_links va s r s' :
  wf s → supply_ok s → page_allocate va s = Some (r, s') →
  ∀ p i e, peek (heap s') p i = Some e → e ≠ 0 →
    peek (heap s) p i = Some e ∨
    (¬ live (heap s) (ENTRY_TO_PHYS_ADDR e) ∧
     ∃ k, on_walk (heap s') va (LEVELS - 1) (ptbr s') k p ∧
          i = extract_level_index va k).
Proof.
  intros Hwf Hsup Hrun.
  destruct (decide (ptbr s = 0)) as [Hnull|Hset].
  - revert Hrun. unfold page_allocate, page_allocate_within.
    fold (is_address_valid va). rewrite is_address_valid_true. cbn [negb].
    rewrite (bind_run _ _ s (ptbr s) s eq_refl).
    destruct (Z.eqb_spec (ptbr s) 0) as [_|?]; [|done].
    destruct (allocate_aligned_page_cases s Hsup)
      as (a & s1 & Hrun1 & Hsup1 & Hroot1 & Hcases).
    rewrite (bind_run _ _ _ _ _ Hrun1).
    destruct (allocate_aligned_page_pending s a s1 Hsup Hrun1)
      as [(-> & Hheap & Hp)|(Hnz & Hheap & Hp)].
    + simpl. intros [= <- <-] p i e He _. left. by rewrite <- Hheap.
    + destruct Hcases as [[? _]|(Ha & Hdead & _)]; [done|].
      apply Z.eqb_neq in Hnz as Hnzb. rewrite Hnzb.
      rewrite (bind_run _ _ s1 tt (Machine a (heap s1) (pending s1)) eq_refl).
      set (s2 := Machine a (heap s1) (pending s1)).
      unfold allocate_from_root. rewrite (bind_run _ _ s2 a s2 eq_refl).
      intros Hwalk.
      assert (wf s2) as Hwf2.
      { eapply (wf_same (Machine a (<[a:=zero_page]> (heap s)) (pending s1)));
          [done|done|by apply wf_new_root]. }
      assert (supply_ok s2) as Hsup2 by by eapply (supply_ok_shrink s1).
      assert (live (heap s2) a) as Hlive
        by (simpl; rewrite Hheap; apply live_fresh; by left).
      destruct (allocate_walk_account va _ a s2 r s' Hwf2 Hsup2 Hlive Hwalk)
        as (used & Hpu & _ & _ & _ & _ & Hlinks & _).
      pose proof (allocate_walk_ptbr va _ a s2 r s' Hwf2 Hsup2 Hlive Hwalk) as Hroot'.
      simpl in Hroot'. rewrite Hroot'.
      intros p i e He Hnze.
      destruct (Hlinks p i e He Hnze) as [Hold|(Hin & Hk)].
      * left. simpl in Hold. rewrite Hheap, peek_fresh in Hold.
        destruct (decide (p = a)); [|done]. case_decide; congruence.
      * right. split; [|done]. destruct Hsup2 as [_ Hok2].
        destruct (Hok2 (ENTRY_TO_PHYS_ADDR e)) as [_ Hd2].
        { rewrite Hpu. apply elem_of_app. by left. }
        intros Hl. apply Hd2. simpl. rewrite Hheap. apply live_fresh. by right.
  - rewrite (page_allocate_rooted va s Hset) in Hrun.
    destruct (wf_root s Hwf) as [?|Hlive]; [done|].
    destruct (allocate_walk_account va _ _ s r s' Hwf Hsup Hlive Hrun)
      as (used & Hpu & _ & _ & _ & _ & Hlinks & _).
    pose proof (allocate_walk_ptbr va _ _ s r s' Hwf Hsup Hlive Hrun) as Hroot'.
    rewrite Hroot'. intros p i e He Hnze.
    destruct (Hlinks p i e He Hnze) as [Hold|(Hin & Hk)]; [by left|right].
    split; [|done]. destruct Hsup as [_ Hok].
    apply (Hok (ENTRY_TO_PHYS_ADDR e)). rewrite Hpu. apply elem_of_app. by left.
Qed.

(** The tables on the path of a mapped address. *)
Lemma on_walk_mapped_path s va e2 e1 e0 k p :
  mapped_path s va e2 e1 e0 →
  on_walk (heap s) va 2 (ptbr s) k p →
  (k = 2%nat ∧ p = ptbr s) ∨ (k = 1%nat ∧ p = ENTRY_TO_PHYS_ADDR e2) ∨
  (k = 0%nat ∧ p = ENTRY_TO_PHYS_ADDR e1).
Proof.
  intros (_ & H2 & _ & H1 & _).
  induction 1 as [|level p e Hp IH He Hv]; [by left|].
  destruct IH as [[Hk ->]|[[Hk ->]|[Hk _]]]; [| |lia].
  - assert (level = 1%nat) as -> by lia. right. left.
    rewrite H2 in He. by injection He as <-.
  - assert (level = 0%nat) as -> by lia. right. right.
    rewrite H1 in He. by injection He as <-.
Qed.

(** X16: the page of a new mapping is fresh and blank: when
    [page_allocate] maps an address that was not mapped, the page it maps
    it to was not in use before the call, and every word of that page is
    zero. *)
Theorem fresh_page_zeroed (va : Z) (s s' : machine) :
  reachable s →
  translate va s = Some (NOT_MAPPED, s) →
  page_allocate va s = Some (ExitDone, s') →
  ∃ page, page_addr page ∧ ¬ live (heap s) page ∧
    translate va s' = Some (page + Z.land va (PAGE_SIZE - 1), s') ∧
    ∀ j, 0 ≤ j < ENTRIES_PER_TABLE → peek (heap s') page j = Some 0.
Proof.
  intros [Hwf Hsup]%reach_wf Htr Hal.
  assert (lookup_leaf s va = None) as Hleaf.
  { rewrite (translate_spec va s Hwf) in Htr. injection Htr as Htr.
    destruct (lookup_leaf s va) as [e|] eqn:He; [|done].
    by destruct (translation_mapped s va e Hwf He) as (_ & _ & ? & _). }
  destruct (page_allocate_spec va s Hwf Hsup)
    as (r0 & s0 & Hrun0 & _ & Hwf1 & _ & Hptbr & Hptbr0 & Hext & Hdone & _).
  rewrite Hal in Hrun0. injection Hrun0 as <- <-.
  destruct (Hdone eq_refl) as [e0 Hleaf1].
  pose proof (page_allocate_links va s _ s' Hwf Hsup Hal) as Hlinks.
  destruct (translation_mapped s' va e0 Hwf1 Hleaf1) as (Hpa & Hsum & _).
  pose proof Hleaf1 as (e2 & e1 & Hpath)%lookup_leaf_path.
  pose proof Hpath as (Hr & H2 & Hv2 & H1 & Hv1 & H0 & Hv0).
  destruct (path_distinct s' va e2 e1 e0 Hwf1 Hpath) as (Hd12 & Hd02 & Hd01 & _).
  destruct (wf_target s' _ _ e0 Hwf1 H0 Hv0) as (_ & Hpage1 & _ & Hdpr & Hdp0).
  assert (ENTRY_TO_PHYS_ADDR e0 ≠ ENTRY_TO_PHYS_ADDR e2) as Hdp1.
  { intros Heq. destruct (names_inj s' _ _ e0 _ _ e2 Hwf1 H0 Hv0 H2 Hv2 Heq) as (? & _).
    congruence. }
  assert (¬ live (heap s) (ENTRY_TO_PHYS_ADDR e0)) as Hdead.
  { destruct (Hlinks _ _ e0 H0 (pte_valid_nonzero _ Hv0)) as [O0|[? _]]; [|done].
    exfalso.
    destruct (Hlinks _ _ e1 H1 (pte_valid_nonzero _ Hv1)) as [O1|[D1 _]];
      [|destruct D1; by eapply peek_live].
    destruct (Hlinks _ _ e2 H2 (pte_valid_nonzero _ Hv2)) as [O2|[D2 _]];
      [|destruct D2; by eapply peek_live].
    assert (ptbr s' = ptbr s) as Hsame.
    { destruct (decide (ptbr s = 0)) as [Hnull|Hset]; [|by apply Hptbr].
      destruct (Hptbr0 Hnull) as [?|Hd]; [done|].
      destruct Hd. by eapply peek_live. }
    rewrite Hsame in *.
    assert (lookup_leaf s va = Some e0) as Hmapped; [|congruence].
    apply lookup_leaf_path. by exists e2, e1. }
  exists (ENTRY_TO_PHYS_ADDR e0). split_and!; [done|done| |].
  - rewrite <- Hsum. by apply translate_spec.
  - intros j Hj.
    destruct (proj2 (wf_size s' Hwf1 _ j Hpage1) Hj) as [x Hx].
    destruct (decide (x = 0)) as [->|Hnx]; [done|]. exfalso.
    destruct (Hlinks _ _ x Hx Hnx) as [Hold|(_ & k & Hk & _)].
    + destruct Hdead. by eapply peek_live.
    + destruct (on_walk_mapped_path s' va e2 e1 e0 k _ Hpath Hk)
        as [[_ ?]|[[_ ?]|[_ ?]]]; done.
Qed.

Lemma fresh_page_zeroed_witness :
  ∃ page, page_addr page ∧ ¬ live (heap demo_start) page ∧
    translate 0 demo_mapped = Some (page + Z.land 0 (PAGE_SIZE - 1), demo_mapped) ∧
    ∀ j, 0 ≤ j < ENTRIES_PER_TABLE → peek (heap demo_mapped) page j = Some 0.
Proof.
  apply (fresh_page_zeroed 0 demo_start demo_mapped).
  - apply demo_start_reachable.
  - by vm_compute.
  - apply demo_mapped_run.
Defined.
